(** * Antigravity Manager: credential store, token manager, proxy retry loop,
      auto-switcher and semantic cache

    A shallow embedding of the TypeScript sources

      - [src/ipc/database/cloudHandler.ts]      (CloudAccountRepo)
      - [src/ipc/database/semanticCache.ts]     (SemanticCacheRepo)
      - [src/server/modules/proxy/*.ts]         (TokenManagerService,
                                                 ProxyService,
                                                 SemanticCacheManager)
      - [src/services/AutoSwitchService.ts]     (AutoSwitchService)
      - [src/services/GoogleAPIService.ts]      (fetchQuota)
      - [src/utils/resilience.ts]               (exponentialBackoff,
                                                 withRetry, CircuitBreaker,
                                                 Semaphore)
      - [src/ipc/process/handler.ts]            (isProcessRunning,
                                                 _waitForProcessExit)

    Conventions of the embedding.
      - A SQLite table with a TEXT PRIMARY KEY is a [gmap string row]:
        [INSERT OR REPLACE] is [<[id:=row]>], [UPDATE ... WHERE id = ?] is
        [alter], an unconditional [UPDATE] is [fmap].
      - A JavaScript [Map] that is iterated is an association list in
        insertion order; [Map.set] on an existing key keeps its position.
      - Timestamps are integers ([Z]); the round-robin counter is a natural
        number (a JavaScript number counts exactly up to 2^53, which a
        counter bumped once per request does not reach).
      - Calls that leave the process (OAuth refresh, project discovery,
        embeddings, upstream dispatch, the clock, the random session id) are
        fields of an environment record; a call that throws is [Throw].
      - Strings are sequences of bytes. [String.prototype.toLowerCase] of
        the model filter, which compares folded identifiers as a whole, is
        a field of the environment too, so that the results hold for the
        runtime's folding of every letter; [Js.toLowerCase] folds [A]-[Z]
        and is used where the folded text is searched for ASCII keywords.
      - [encrypt]/[decrypt] are inverse of each other and store reads
        succeed, so rows hold the decoded account. *)

From Stdlib Require Import ZArith QArith Qminmax Qround String Ascii Bool Lia.
From stdpp Require Import gmap strings list fin_maps sorting.

Local Open Scope string_scope.
Local Open Scope Z_scope.

(** ** JavaScript string primitives used by the sources *)

Module Js.

  (** [s.startsWith(p)] *)
Definition startsWith (p s : string) : bool := String.prefix p s.

  (** [s.includes(needle)] *)
Fixpoint includes (needle s : string) : bool :=
    String.prefix needle s ||
    match s with
    | EmptyString => false
    | String _ s' => includes needle s'
    end.

  (** The ASCII part of [String.prototype.toLowerCase]: [A]-[Z] are folded,
      every other character is kept. It is used only where the folded text
      is searched for ASCII keywords without [k] and not ending in [i]
      (the two ASCII letters that a non-ASCII letter can fold to), so that
      the search gives what the full folding gives. The model filter of
      the token manager compares folded strings as a whole and takes the
      folding from its environment instead. *)
Definition lowerAscii (c : ascii) : ascii :=
    let n := nat_of_ascii c in
    if ((65 <=? n)%nat && (n <=? 90)%nat)%bool then ascii_of_nat (n + 32) else c.

Fixpoint toLowerCase (s : string) : string :=
    match s with
    | EmptyString => EmptyString
    | String c s' => String (lowerAscii c) (toLowerCase s')
    end.

  (** [s.replace(/^models\//, '')] *)
Definition stripModelsPrefix (s : string) : string :=
    if String.prefix "models/" s then String.substring 7 (String.length s - 7) s
    else s.

  (** [s.split('@')[0]] *)
Fixpoint beforeAt (s : string) : string :=
    match s with
    | EmptyString => EmptyString
    | String c s' => if Ascii.eqb c "@" then EmptyString else String c (beforeAt s')
    end.

  (** [s.trim()], on the ASCII white space (tab, line feed, vertical tab,
    form feed, carriage return, space). *)
Definition isSpace (c : ascii) : bool :=
  let n := nat_of_ascii c in
  ((9 <=? n)%nat && (n <=? 13)%nat)%bool || (n =? 32)%nat.

Fixpoint trimStart (s : string) : string :=
  match s with
  | EmptyString => EmptyString
  | String c s' => if isSpace c then trimStart s' else s
  end.

Fixpoint trimEnd (s : string) : string :=
  match s with
  | EmptyString => EmptyString
  | String c s' =>
      match trimEnd s' with
      | EmptyString => if isSpace c then EmptyString else String c EmptyString
      | t => String c t
      end
  end.

Definition trim (s : string) : string := trimEnd (trimStart s).

(** Truthiness of a string value that may be [undefined]/[null]. *)
Definition truthy (o : option string) : bool :=
    match o with
    | Some s => negb (String.eqb s "")
    | None => false
    end.

  (** Outcome of a call that may throw. *)
Inductive Outcome (A : Type) : Type :=
  | Ok (a : A)
  | Throw.
Arguments Ok {A} a.
Arguments Throw {A}.

End Js.

(** ** Data model ([src/types/cloudAccount.ts], as used by the sources) *)

Inductive AccountStatus : Type :=
| status_active
| status_refreshing
| status_rate_limited
| status_error.

Definition AccountStatus_eqb (a b : AccountStatus) : bool :=
  match a, b with
  | status_active, status_active
  | status_refreshing, status_refreshing
  | status_rate_limited, status_rate_limited
  | status_error, status_error => true
  | _, _ => false
  end.

Module Token.
Record t : Type := mk {
    access_token : string;
    refresh_token : string;
    expires_in : Z;
    expiry_timestamp : Z;
    project_id : option string;
    session_id : option string
  }.
End Token.

Module ModelQuota.
  (** [percentage] is an integer: [Math.floor(fraction * 100)] or [100]
      in [GoogleAPIService.fetchQuota]. *)
Record t : Type := mk {
    percentage : Z;
    resetTime : string
  }.
End ModelQuota.

Module CloudAccount.
Record t : Type := mk {
    id : string;
    provider : string;
    email : string;
    token : Token.t;
    (** [quota.models], an object from model id to its quota entry *)
    quota : option (list (string * ModelQuota.t));
    created_at : Z;
    last_used : Z;
    status : AccountStatus;
    is_active : bool;
    selected_models : option (list string)
  }.

Definition with_is_active (b : bool) (a : t) : t :=
    mk (id a) (provider a) (email a) (token a) (quota a) (created_at a)
       (last_used a) (status a) b (selected_models a).

Definition with_token (tk : Token.t) (a : t) : t :=
    mk (id a) (provider a) (email a) tk (quota a) (created_at a)
       (last_used a) (status a) (is_active a) (selected_models a).
End CloudAccount.

(** Stable insertion sort: [x] goes before the first element that does not
    strictly precede it, so equal elements keep their order (the order of
    [Array.prototype.sort]). *)
Section StableSort.
Context {A : Type} (before : A -> A -> bool).

Fixpoint insertSorted (x : A) (l : list A) : list A :=
    match l with
    | [] => [x]
    | y :: l' => if before y x then y :: insertSorted x l' else x :: l
    end.

Definition sortBy (l : list A) : list A := foldr insertSorted [] l.

Lemma insertSorted_Permutation x l : insertSorted x l ≡ₚ x :: l.
Proof.
    induction l as [|y l IH]; simpl; [done|].
    destruct (before y x); [|done].
    rewrite IH. apply Permutation_swap.
Qed.

Lemma sortBy_Permutation l : sortBy l ≡ₚ l.
Proof.
    induction l as [|x l IH]; simpl; [done|].
    rewrite insertSorted_Permutation. by rewrite IH.
Qed.

Lemma elem_of_sortBy x l : x ∈ sortBy l <-> x ∈ l.
Proof. by rewrite sortBy_Permutation. Qed.
End StableSort.

(** ** Credential store ([CloudAccountRepo], table [accounts]) *)

Module CloudAccountRepo.

Abbreviation Table := (gmap string CloudAccount.t).

  (** [UPDATE accounts SET is_active = 0] *)
Definition deactivateAll (db : Table) : Table :=
    CloudAccount.with_is_active false <$> db.

  (** [addAccount]: one transaction; when the account is active every row
      is demoted first, then the row is upserted by primary key. *)
Definition addAccount (account : CloudAccount.t) (db : Table) : Table :=
    let db1 := if CloudAccount.is_active account then deactivateAll db else db in
    <[CloudAccount.id account := account]> db1.

  (** [setActive]: one transaction running [updateAll] then [updateOne]. *)
Definition setActive (id : string) (db : Table) : Table :=
    alter (CloudAccount.with_is_active true) id (deactivateAll db).

  (** [getAccount] *)
Definition getAccount (id : string) (db : Table) : option CloudAccount.t :=
    db !! id.

  (** [updateToken]: [UPDATE accounts SET token_json = ? WHERE id = ?] *)
Definition updateToken (id : string) (tk : Token.t) (db : Table) : Table :=
    alter (CloudAccount.with_token tk) id db.

  (** [getAccounts]: [SELECT * FROM accounts ORDER BY last_used DESC].
      SQL leaves the order of rows with equal [last_used] open; the model
      keeps the order of the underlying map for them. *)
Definition getAccounts (db : Table) : list CloudAccount.t :=
    sortBy (fun a b => CloudAccount.last_used b <? CloudAccount.last_used a)
           ((map_to_list db).*2).

  (** [getSetting<boolean>(key, defaultValue)] over the [settings] table *)
Definition getSetting (key : string) (defaultValue : bool)
      (settings : gmap string bool) : bool :=
    default defaultValue (settings !! key).

  (** The rows whose [is_active] column is set, and their number. *)
Definition activeRows (db : Table) : Table :=
    filter (fun kv => CloudAccount.is_active kv.2 = true) db.

Definition activeCount (db : Table) : nat := size (activeRows db).

  (** Operations of the claim and the states a sequence of them visits;
      each operation is one transaction, so the states in between two
      operations are the observable ones. *)
Inductive Op : Type :=
  | OpAdd (account : CloudAccount.t)
  | OpSetActive (id : string).

Definition step (op : Op) (db : Table) : Table :=
    match op with
    | OpAdd a => addAccount a db
    | OpSetActive i => setActive i db
    end.


Lemma elem_of_getAccounts a db :
    a ∈ getAccounts db <-> exists i, db !! i = Some a.
Proof.
    unfold getAccounts. rewrite elem_of_sortBy, list_elem_of_fmap. split.
    - intros [[i b] [-> Hin]]. exists i. by apply elem_of_map_to_list.
    - intros [i Hi]. exists (i, a). split; [done|]. by apply elem_of_map_to_list.
Qed.

Lemma activeRows_deactivateAll db : activeRows (deactivateAll db) = ∅.
Proof.
    unfold activeRows, deactivateAll. apply map_empty_filter.
    intros i x Hx. rewrite lookup_fmap in Hx.
    destruct (db !! i); simplify_eq/=. done.
Qed.

Lemma activeCount_deactivateAll db : activeCount (deactivateAll db) = 0%nat.
Proof. unfold activeCount. by rewrite activeRows_deactivateAll, map_size_empty. Qed.

Lemma activeCount_insert_le i y db :
    (activeCount (<[i := y]> db) <= S (activeCount db))%nat.
Proof.
    unfold activeCount, activeRows.
    destruct (CloudAccount.is_active y) eqn:Hy.
    - rewrite map_filter_insert_True by done.
      rewrite map_size_insert. destruct (_ !! _); simpl; lia.
    - rewrite map_filter_insert_False by (simpl; congruence).
      pose proof (map_subseteq_size _ _
        (map_filter_subseteq_mono (fun kv => CloudAccount.is_active kv.2 = true)
           _ _ (delete_subseteq db i))). lia.
Qed.

Lemma activeCount_insert_inactive i y db :
    CloudAccount.is_active y = false ->
    (activeCount (<[i := y]> db) <= activeCount db)%nat.
Proof.
    intros Hy. unfold activeCount, activeRows.
    rewrite map_filter_insert_False by (simpl; congruence).
    apply map_subseteq_size, map_filter_subseteq_mono, delete_subseteq.
Qed.

Lemma alter_lookup_Some {V} (f : V -> V) i x (m : gmap string V) :
    m !! i = Some x -> alter f i m = <[i := f x]> m.
Proof.
    intros Hi. apply map_eq. intros j.
    destruct (decide (i = j)) as [->|Hne].
    - by rewrite lookup_alter_eq, lookup_insert_eq, Hi.
    - by rewrite lookup_alter_ne, lookup_insert_ne.
Qed.

Lemma activeCount_alter_le f i db :
    (activeCount (alter f i db) <= S (activeCount db))%nat.
Proof.
    destruct (db !! i) as [x|] eqn:Hi.
    - rewrite (alter_lookup_Some f i x) by done. apply activeCount_insert_le.
    - rewrite alter_id' by done. lia.
Qed.

Lemma step_activeCount op db :
    (activeCount db <= 1)%nat -> (activeCount (step op db) <= 1)%nat.
Proof.
    intros Hdb. destruct op as [a|i]; simpl.
    - unfold addAccount. destruct (CloudAccount.is_active a) eqn:Ha.
      + pose proof (activeCount_insert_le (CloudAccount.id a) a (deactivateAll db)).
        rewrite activeCount_deactivateAll in *. lia.
      + pose proof (activeCount_insert_inactive (CloudAccount.id a) a db Ha). lia.
    - unfold setActive.
      pose proof (activeCount_alter_le (CloudAccount.with_is_active true) i
                    (deactivateAll db)).
      rewrite activeCount_deactivateAll in *. lia.
Qed.

(** *** The remaining operations of the repository *)

(** [removeAccount]: [DELETE FROM accounts WHERE id = ?] *)
Definition removeAccount (id : string) (db : Table) : Table := delete id db.

(** [updateQuota]: [UPDATE accounts SET quota_json = ? WHERE id = ?] *)
Definition updateQuota (id : string) (q : list (string * ModelQuota.t))
    (db : Table) : Table :=
  alter (fun a => CloudAccount.mk (CloudAccount.id a) (CloudAccount.provider a)
                    (CloudAccount.email a) (CloudAccount.token a) (Some q)
                    (CloudAccount.created_at a) (CloudAccount.last_used a)
                    (CloudAccount.status a) (CloudAccount.is_active a)
                    (CloudAccount.selected_models a)) id db.

(** [updateSelectedModels] *)
Definition updateSelectedModels (id : string) (models : list string)
    (db : Table) : Table :=
  alter (fun a => CloudAccount.mk (CloudAccount.id a) (CloudAccount.provider a)
                    (CloudAccount.email a) (CloudAccount.token a)
                    (CloudAccount.quota a)
                    (CloudAccount.created_at a) (CloudAccount.last_used a)
                    (CloudAccount.status a) (CloudAccount.is_active a)
                    (Some models)) id db.

(** [updateLastUsed], at clock reading [now_ms] *)
Definition updateLastUsed (now_ms : Z) (id : string) (db : Table) : Table :=
  alter (fun a => CloudAccount.mk (CloudAccount.id a) (CloudAccount.provider a)
                    (CloudAccount.email a) (CloudAccount.token a)
                    (CloudAccount.quota a)
                    (CloudAccount.created_at a) (now_ms / 1000)
                    (CloudAccount.status a) (CloudAccount.is_active a)
                    (CloudAccount.selected_models a)) id db.

(** Every operation of the repository on table [accounts]. *)
Inductive AnyOp : Type :=
| DoAdd (account : CloudAccount.t)
| DoSetActive (id : string)
| DoRemove (id : string)
| DoUpdateToken (id : string) (tk : Token.t)
| DoUpdateQuota (id : string) (q : list (string * ModelQuota.t))
| DoUpdateSelectedModels (id : string) (models : list string)
| DoUpdateLastUsed (now_ms : Z) (id : string).

Definition apply (op : AnyOp) (db : Table) : Table :=
  match op with
  | DoAdd a => addAccount a db
  | DoSetActive i => setActive i db
  | DoRemove i => removeAccount i db
  | DoUpdateToken i tk => updateToken i tk db
  | DoUpdateQuota i q => updateQuota i q db
  | DoUpdateSelectedModels i ms => updateSelectedModels i ms db
  | DoUpdateLastUsed t i => updateLastUsed t i db
  end.

(** Rows are stored under their own [id]. *)
Definition keyedById (db : Table) : Prop :=
  map_Forall (fun i a => CloudAccount.id a = i) db.

#[global] Instance keyedById_dec db : Decision (keyedById db).
Proof. unfold keyedById. apply _. Defined.

(** An in-place update that leaves [is_active] alone leaves the active rows'
    count alone. *)
Lemma activeCount_alter_same f i db :
  (forall a, CloudAccount.is_active (f a) = CloudAccount.is_active a) ->
  activeCount (alter f i db) = activeCount db.
Proof.
  intros Hf. unfold activeCount, activeRows.
  destruct (db !! i) as [x|] eqn:Hi; [|by rewrite alter_id'].
  rewrite (alter_lookup_Some f i x) by done.
  rewrite <- (insert_id db i x) at 2 by done.
  destruct (CloudAccount.is_active x) eqn:Hx.
  - rewrite !map_filter_insert_True by (simpl; by rewrite ?Hf).
    rewrite !map_size_insert. done.
  - rewrite !map_filter_insert_False by (simpl; rewrite ?Hf; congruence). done.
Qed.

Lemma activeCount_delete_le i db :
  (activeCount (delete i db) <= activeCount db)%nat.
Proof.
  unfold activeCount, activeRows.
  apply map_subseteq_size, map_filter_subseteq_mono, delete_subseteq.
Qed.

Lemma apply_activeCount op db :
  (activeCount db <= 1)%nat -> (activeCount (apply op db) <= 1)%nat.
Proof.
  intros Hdb. destruct op; simpl.
  - by apply (step_activeCount (OpAdd account)).
  - by apply (step_activeCount (OpSetActive id)).
  - pose proof (activeCount_delete_le id db). unfold removeAccount. lia.
  - unfold updateToken. by rewrite activeCount_alter_same.
  - unfold updateQuota. by rewrite activeCount_alter_same.
  - unfold updateSelectedModels. by rewrite activeCount_alter_same.
  - unfold updateLastUsed. by rewrite activeCount_alter_same.
Qed.

Lemma apply_keyedById op db :
  keyedById db -> keyedById (apply op db).
Proof.
  unfold keyedById. intros Hdb.
  assert (Halter : forall f i,
    (forall a, CloudAccount.id (f a) = CloudAccount.id a) ->
    map_Forall (fun i a => CloudAccount.id a = i) (alter f i db)).
  { intros f i Hf j a Hj. apply lookup_alter_Some in Hj
      as [(-> & x & Hx & ->)|[_ Hj]]; [|by apply Hdb].
    rewrite Hf. by apply Hdb. }
  assert (Hdeact : map_Forall (fun i a => CloudAccount.id a = i) (deactivateAll db)).
  { intros j a Hj. unfold deactivateAll in Hj. rewrite lookup_fmap in Hj.
    destruct (db !! j) as [x|] eqn:Hx; simplify_eq/=. by apply Hdb. }
  destruct op; simpl.
  - unfold addAccount. apply map_Forall_insert_2; [done|].
    by destruct (CloudAccount.is_active account).
  - unfold setActive. intros j a Hj. apply lookup_alter_Some in Hj
      as [(-> & x & Hx & ->)|[_ Hj]]; [simpl|]; by apply Hdeact.
  - unfold removeAccount. by apply map_Forall_delete.
  - by apply Halter.
  - by apply Halter.
  - by apply Halter.
  - by apply Halter.
Qed.

Lemma sortBy_length {A} (before : A -> A -> bool) (l : list A) :
  length (sortBy before l) = length l.
Proof. by rewrite sortBy_Permutation. Qed.

End CloudAccountRepo.



(** ** Token manager ([TokenManagerService]) *)

Module TokenData.
Record t : Type := mk {
  email : string;
  account_id : string;
  provider : string;
  access_token : string;
  refresh_token : string;
  expires_in : Z;
  expiry_timestamp : Z;
  project_id : option string;
  session_id : option string;
  selected_models : option (list string)
}.

Definition with_refresh (at' : string) (ei et : Z) (d : t) : t :=
  mk (email d) (account_id d) (provider d) at' (refresh_token d) ei et
     (project_id d) (session_id d) (selected_models d).

Definition with_project_id (p : option string) (d : t) : t :=
  mk (email d) (account_id d) (provider d) (access_token d) (refresh_token d)
     (expires_in d) (expiry_timestamp d) p (session_id d) (selected_models d).
End TokenData.

(** [TokenResponse] of [GoogleAPIService.refreshAccessToken] *)
Module TokenResponse.
Record t : Type := mk {
  access_token : string;
  expires_in : Z
}.
End TokenResponse.

(** The object [getNextToken] returns: [id], [email], [provider], [token]. *)
Module SelectedAccount.
Record t : Type := mk {
  id : string;
  email : string;
  provider : string;
  token : Token.t
}.
End SelectedAccount.

Module TokenManagerService.
Import Js.

(** What one call of [getNextToken] observes outside the process. *)
Record Env : Type := mkEnv {
  (** [Date.now()], milliseconds *)
  now : Z;
  (** [GoogleAPIService.refreshAccessToken(refresh_token)] *)
  refreshAccessToken : string -> Outcome TokenResponse.t;
  (** [GoogleAPIService.fetchProjectId(access_token)] *)
  fetchProjectId : string -> Outcome (option string);
  (** the random [generateSessionId()] drawn for an account id *)
  generateSessionId : string -> string;
  (** [String.prototype.toLowerCase] of the runtime; nothing is assumed
      about it *)
  toLowerCase : string -> string
}.

(** The manager's fields and the store it reads and writes. *)
Record State : Type := mkState {
  currentIndex : nat;
  tokens : list (string * TokenData.t);
  cooldowns : gmap string Z;
  db : gmap string CloudAccount.t
}.

(** [Map.prototype.get] and [Map.prototype.set] on the insertion-ordered map *)
Fixpoint mapGet {V : Type} (k : string) (m : list (string * V)) : option V :=
  match m with
  | [] => None
  | (k', v) :: m' => if String.eqb k' k then Some v else mapGet k m'
  end.

Fixpoint mapSet {V : Type} (k : string) (v : V) (m : list (string * V))
  : list (string * V) :=
  match m with
  | [] => [(k, v)]
  | (k', v') :: m' =>
      if String.eqb k' k then (k, v) :: m' else (k', v') :: mapSet k v m'
  end.

(** [convertAccountToToken]; [account.token] is always present for a value
    of type [CloudAccount], so the [null] branch does not arise. *)
Definition convertAccountToToken (env : Env) (account : CloudAccount.t)
  : TokenData.t :=
  let tk := CloudAccount.token account in
  TokenData.mk
    (CloudAccount.email account)
    (CloudAccount.id account)
    (CloudAccount.provider account)
    (Token.access_token tk)
    (Token.refresh_token tk)
    (Token.expires_in tk)
    (Token.expiry_timestamp tk)
    (if truthy (Token.project_id tk) then Token.project_id tk else None)
    (if truthy (Token.session_id tk) then Token.session_id tk
     else Some (generateSessionId env (CloudAccount.id account)))
    (CloudAccount.selected_models account).

(** [loadAccounts] *)
Definition loadAccounts (env : Env) (st : State) : State :=
  mkState (currentIndex st)
    (foldl (fun tks account =>
              mapSet (CloudAccount.id account)
                     (convertAccountToToken env account) tks)
           (tokens st) (CloudAccountRepo.getAccounts (db st)))
    (cooldowns st) (db st).

(** [if (this.tokens.size === 0) await this.loadAccounts()] *)
Definition reloadIfEmpty (env : Env) (st : State) : State :=
  match tokens st with
  | [] => loadAccounts env st
  | _ => st
  end.

(** [!cooldownUntil || cooldownUntil <= now] *)
Definition isNotCooldown (cds : gmap string Z) (now_ms : Z) (email : string)
  : bool :=
  match cds !! email with
  | None => true
  | Some cooldownUntil => (cooldownUntil =? 0) || (cooldownUntil <=? now_ms)
  end.

(** [x.replace(/^models\//, '').toLowerCase()] *)
Definition cleanModel (env : Env) (m : string) : string :=
  toLowerCase env (stripModelsPrefix m).

(** The model filter of [getNextToken]: it is applied only when
    [requestedModel] is truthy (given and not the empty string) and the
    account has a non-empty [selected_models]. *)
Definition isModelAllowed (env : Env) (requestedModel : option string)
    (selected : option (list string)) : bool :=
  match requestedModel, selected with
  | Some r, Some sms =>
      if negb (String.eqb r "") && (0 <? length sms)%nat then
        let cleanRequested := cleanModel env r in
        existsb (fun sm => String.eqb (cleanModel env sm) cleanRequested) sms
      else true
  | _, _ => true
  end.

(** [validTokens]: the entries of the map that pass both filters, in map
    order. *)
Definition validTokens (env : Env) (requestedModel : option string)
    (cds : gmap string Z) (tks : list (string * TokenData.t))
  : list (string * TokenData.t) :=
  List.filter
    (fun e => isNotCooldown cds (now env) (TokenData.email e.2)
              && isModelAllowed env requestedModel
                   (TokenData.selected_models e.2))
    tks.

(** [accountsInDb.find(a => a.is_active)] *)
Definition activeAccount (tbl : gmap string CloudAccount.t)
  : option CloudAccount.t :=
  List.find CloudAccount.is_active (CloudAccountRepo.getAccounts tbl).

(** The active local account the session is locked to, when there is one
    and the in-memory map knows it. *)
Definition lockedLocal (st : State) : option (string * TokenData.t) :=
  match activeAccount (db st) with
  | Some a =>
      if startsWith "local-" (CloudAccount.provider a) then
        match mapGet (CloudAccount.id a) (tokens st) with
        | Some localToken => Some (CloudAccount.id a, localToken)
        | None => None
        end
      else None
  | None => None
  end.

(** [validTokens[this.currentIndex % validTokens.length]]; reading past the
    array would make the destructuring throw, which the outer [catch] turns
    into [null]. *)
Definition roundRobin (valid : list (string * TokenData.t)) (idx : nat)
  : option (string * TokenData.t) :=
  valid !! (idx mod length valid)%nat.

(** [saveRefreshedToken] *)
Definition saveRefreshedToken (accountId : string) (d : TokenData.t)
    (tbl : gmap string CloudAccount.t) : gmap string CloudAccount.t :=
  match CloudAccountRepo.getAccount accountId tbl with
  | Some acc =>
      let old := CloudAccount.token acc in
      CloudAccountRepo.updateToken accountId
        (Token.mk (TokenData.access_token d) (Token.refresh_token old)
                  (TokenData.expires_in d) (TokenData.expiry_timestamp d)
                  (Token.project_id old) (Token.session_id old))
        tbl
  | None => tbl
  end.

(** [saveProjectId] *)
Definition saveProjectId (accountId projectId : string)
    (tbl : gmap string CloudAccount.t) : gmap string CloudAccount.t :=
  match CloudAccountRepo.getAccount accountId tbl with
  | Some acc =>
      let old := CloudAccount.token acc in
      CloudAccountRepo.updateToken accountId
        (Token.mk (Token.access_token old) (Token.refresh_token old)
                  (Token.expires_in old) (Token.expiry_timestamp old)
                  (Some projectId) (Token.session_id old))
        tbl
  | None => tbl
  end.

(** The refresh block: [if (nowSeconds >= tokenData.expiry_timestamp - 300)]. *)
Definition needsRefresh (nowSeconds : Z) (d : TokenData.t) : bool :=
  TokenData.expiry_timestamp d - 300 <=? nowSeconds.

Definition refreshStep (env : Env) (nowSeconds : Z) (accountId : string)
    (d : TokenData.t) (tbl : gmap string CloudAccount.t)
  : TokenData.t * gmap string CloudAccount.t :=
  if needsRefresh nowSeconds d then
    match refreshAccessToken env (TokenData.refresh_token d) with
    | Ok newTokens =>
        let d' := TokenData.with_refresh
                    (TokenResponse.access_token newTokens)
                    (TokenResponse.expires_in newTokens)
                    (nowSeconds + TokenResponse.expires_in newTokens) d in
        (d', saveRefreshedToken accountId d' tbl)
    | Throw => (d, tbl)
    end
  else (d, tbl).

(** [`cloud-code-${tokenData.email.split('@')[0]}`] *)
Definition fallbackProjectId (d : TokenData.t) : string :=
  "cloud-code-" ++ beforeAt (TokenData.email d).

(** The project-id block. *)
Definition needsProjectId (d : TokenData.t) : bool :=
  negb (truthy (TokenData.project_id d))
  && (String.eqb (TokenData.provider d) "google"
      || String.eqb (TokenData.provider d) "anthropic").

Definition projectStep (env : Env) (accountId : string) (d : TokenData.t)
    (tbl : gmap string CloudAccount.t)
  : TokenData.t * gmap string CloudAccount.t :=
  let fallback := (TokenData.with_project_id (Some (fallbackProjectId d)) d, tbl) in
  if needsProjectId d then
    match fetchProjectId env (TokenData.access_token d) with
    | Ok (Some realId) =>
        if negb (String.eqb realId "") then
          (TokenData.with_project_id (Some realId) d,
           saveProjectId accountId realId tbl)
        else fallback
    | Ok None => fallback
    | Throw => fallback
    end
  else (d, tbl).

(** The value returned for the chosen entry. *)
Definition toAccount (accountId : string) (d : TokenData.t)
  : SelectedAccount.t :=
  SelectedAccount.mk accountId (TokenData.email d) (TokenData.provider d)
    (Token.mk (TokenData.access_token d) (TokenData.refresh_token d)
              (TokenData.expires_in d) (TokenData.expiry_timestamp d)
              (TokenData.project_id d) (TokenData.session_id d)).

(** Everything after the choice of the entry. [tokenData] is the object
    held by the map, so what the two blocks assign to it is visible in the
    map afterwards; the model writes the final record back at its key. *)
Definition finish (env : Env) (st : State) (idx' : nat)
    (chosen : string * TokenData.t) : option SelectedAccount.t * State :=
  let nowSeconds := now env / 1000 in
  let '(accountId, d0) := chosen in
  let '(d1, tbl1) := refreshStep env nowSeconds accountId d0 (db st) in
  let '(d2, tbl2) := projectStep env accountId d1 tbl1 in
  (Some (toAccount accountId d2),
   mkState idx' (mapSet accountId d2 (tokens st)) (cooldowns st) tbl2).

(** [getNextToken(requestedModel?)] *)
Definition getNextToken (env : Env) (requestedModel : option string)
    (st0 : State) : option SelectedAccount.t * State :=
  let st := reloadIfEmpty env st0 in
  match tokens st with
  | [] => (None, st)
  | _ =>
      let valid := validTokens env requestedModel (cooldowns st) (tokens st) in
      match valid with
      | [] => (None, st)
      | _ =>
          match lockedLocal st with
          | Some chosen => finish env st (currentIndex st) chosen
          | None =>
              match roundRobin valid (currentIndex st) with
              | Some chosen => finish env st (S (currentIndex st)) chosen
              | None => (None, st)
              end
          end
      end
  end.

(** [markAsRateLimited(email)] at clock reading [now_ms] *)
Definition markAsRateLimited (now_ms : Z) (email : string) (st : State) : State :=
  mkState (currentIndex st) (tokens st)
          (<[email := now_ms + 5 * 60 * 1000]> (cooldowns st)) (db st).

(** [resetCooldown(email)] *)
Definition resetCooldown (email : string) (st : State) : State :=
  mkState (currentIndex st) (tokens st) (delete email (cooldowns st)) (db st).

(** The candidate list a call computes, after its reload step. *)
Definition candidates (env : Env) (requestedModel : option string)
    (st : State) : list (string * TokenData.t) :=
  let st' := reloadIfEmpty env st in
  validTokens env requestedModel (cooldowns st') (tokens st').

(** A run of consecutive calls: each entry records the environment and
    request of a call, the state it started from and what it returned. *)
Fixpoint runCalls (calls : list (Env * option string)) (st : State)
  : list (Env * option string * State * option SelectedAccount.t) :=
  match calls with
  | [] => []
  | (env, req) :: calls' =>
      let r := getNextToken env req st in
      (env, req, st, r.1) :: runCalls calls' r.2
  end.

(** No row of the store is both active and of a [local-] provider. *)
Definition noActiveLocal (tbl : gmap string CloudAccount.t) : Prop :=
  map_Forall (fun _ a => CloudAccount.is_active a = true ->
                         startsWith "local-" (CloudAccount.provider a) = false)
             tbl.

Lemma reloadIfEmpty_db env st : db (reloadIfEmpty env st) = db st.
Proof. unfold reloadIfEmpty. by destruct (tokens st). Qed.

Lemma reloadIfEmpty_currentIndex env st :
  currentIndex (reloadIfEmpty env st) = currentIndex st.
Proof. unfold reloadIfEmpty. by destruct (tokens st). Qed.

Lemma reloadIfEmpty_cooldowns env st :
  cooldowns (reloadIfEmpty env st) = cooldowns st.
Proof. unfold reloadIfEmpty. by destruct (tokens st). Qed.

Lemma activeAccount_Some tbl a :
  activeAccount tbl = Some a ->
  CloudAccount.is_active a = true /\ exists i, tbl !! i = Some a.
Proof.
  unfold activeAccount. intros Hf.
  apply List.find_some in Hf as [Hin Hact]. split; [done|].
  apply CloudAccountRepo.elem_of_getAccounts. by apply list_elem_of_In.
Qed.

Lemma noActiveLocal_lockedLocal st :
  noActiveLocal (db st) -> lockedLocal st = None.
Proof.
  intros Hno. unfold lockedLocal.
  destruct (activeAccount (db st)) as [a|] eqn:Ha; [|done].
  apply activeAccount_Some in Ha as [Hact [i Hi]].
  by rewrite (Hno i a Hi Hact).
Qed.

#[global] Instance noActiveLocal_dec tbl : Decision (noActiveLocal tbl).
Proof. unfold noActiveLocal. apply _. Defined.

Lemma finish_result env st idx' chosen :
  SelectedAccount.id <$> (finish env st idx' chosen).1 = Some chosen.1 /\
  currentIndex (finish env st idx' chosen).2 = idx' /\
  cooldowns (finish env st idx' chosen).2 = cooldowns st.
Proof.
  unfold finish. destruct chosen as [accountId d0].
  destruct (refreshStep _ _ _ _ _) as [d1 tbl1].
  by destruct (projectStep _ _ _ _) as [d2 tbl2].
Qed.

Lemma roundRobin_is_Some (valid : list (string * TokenData.t)) idx :
  valid <> [] -> is_Some (roundRobin valid idx).
Proof.
  intros Hne. unfold roundRobin. apply lookup_lt_is_Some.
  apply Nat.mod_upper_bound. by destruct valid.
Qed.

(** With a non-empty candidate list and no locked local account the call
    takes the round-robin branch. *)
Lemma getNextToken_roundRobin env req st :
  lockedLocal (reloadIfEmpty env st) = None ->
  candidates env req st <> [] ->
  exists chosen,
    roundRobin (candidates env req st) (currentIndex st) = Some chosen /\
    getNextToken env req st =
      finish env (reloadIfEmpty env st) (S (currentIndex st)) chosen.
Proof.
  intros Hlock Hne. unfold candidates in *. unfold getNextToken.
  set (st' := reloadIfEmpty env st) in *.
  destruct (roundRobin_is_Some _ (currentIndex st) Hne) as [chosen Hch].
  exists chosen. split; [done|].
  destruct (tokens st') as [|e tks] eqn:Htk; [done|].
  destruct (validTokens _ _ _ _) as [|v vs] eqn:Hv; [done|].
  rewrite Hlock. subst st'.
  rewrite !reloadIfEmpty_currentIndex. by rewrite Hch.
Qed.

(** Membership in the filtered list. *)
Lemma elem_of_validTokens env req cds tks e :
  e ∈ validTokens env req cds tks <->
  e ∈ tks /\ isNotCooldown cds (now env) (TokenData.email e.2) = true
          /\ isModelAllowed env req (TokenData.selected_models e.2) = true.
Proof.
  unfold validTokens. rewrite !list_elem_of_In, List.filter_In.
  by rewrite andb_true_iff.
Qed.

(** What the model filter decides for a truthy [requestedModel]. *)
Lemma isModelAllowed_given env r selected :
  r <> "" ->
  isModelAllowed env (Some r) selected = true <->
  match selected with
  | None | Some [] => True
  | Some sms => exists sm, sm ∈ sms /\ cleanModel env sm = cleanModel env r
  end.
Proof.
  intros Hr. unfold isModelAllowed.
  destruct selected as [[|sm0 sms]|]; [| |done].
  - rewrite andb_false_r. done.
  - apply String.eqb_neq in Hr. rewrite Hr. cbn [negb andb length Nat.ltb Nat.leb].
    rewrite existsb_exists. split.
    + intros (sm & Hin & Heq). exists sm. split; [by apply list_elem_of_In|].
      by apply String.eqb_eq.
    + intros (sm & Hin & Heq). exists sm. split; [by apply list_elem_of_In|].
      by apply String.eqb_eq.
Qed.

(** The normalisation of a model identifier as the specification words it,
    written without [stripModelsPrefix] and [cleanModel]: one leading
    [models/], when there is one, is dropped, and what is left is
    lower-cased by the runtime. *)
Definition normalisedTo (env : Env) (m n : string) : Prop :=
  exists rest,
    (m = "models/" ++ rest \/ (m = rest /\ forall t, m <> "models/" ++ t)) /\
    n = toLowerCase env rest.

Lemma substring_whole s : String.substring 0 (String.length s) s = s.
Proof. induction s as [|c s IH]; simpl; [done|]. by rewrite IH. Qed.

Lemma startsWith_app p s : startsWith p s = true -> exists t, s = p ++ t.
Proof.
  unfold startsWith. revert s. induction p as [|c p IH]; intros s; simpl.
  - intros _. by exists s.
  - destruct s as [|c' s]; [done|]. simpl.
    destruct (Ascii.ascii_dec c c') as [->|Hne]; [|done].
    intros Hp. destruct (IH s Hp) as [t ->]. by exists t.
Qed.

Lemma stripModelsPrefix_prefixed rest :
  stripModelsPrefix ("models/" ++ rest) = rest.
Proof.
  change ("models/" ++ rest)
    with (String "m" (String "o" (String "d" (String "e" (String "l"
           (String "s" (String "/" rest))))))).
  unfold stripModelsPrefix. simpl.
  assert (String.prefix "" rest = true) as -> by (by destruct rest).
  rewrite Nat.sub_0_r. apply substring_whole.
Qed.

Lemma stripModelsPrefix_other m :
  (forall t, m <> "models/" ++ t) -> stripModelsPrefix m = m.
Proof.
  intros Hno. unfold stripModelsPrefix.
  destruct (String.prefix "models/" m) eqn:Hp; [|done].
  destruct (startsWith_app _ _ Hp) as [t Ht]. by destruct (Hno t).
Qed.

(** [cleanModel] computes the specification's normalisation. *)
Lemma normalisedTo_cleanModel env m n :
  normalisedTo env m n <-> n = cleanModel env m.
Proof.
  unfold normalisedTo, cleanModel. split.
  - intros (rest & [->|[<- Hno]] & ->).
    + by rewrite stripModelsPrefix_prefixed.
    + by rewrite stripModelsPrefix_other.
  - intros ->. destruct (String.prefix "models/" m) eqn:Hp.
    + destruct (startsWith_app _ _ Hp) as [t ->]. exists t.
      split; [by left|]. by rewrite stripModelsPrefix_prefixed.
    + exists m. split.
      * right. split; [done|]. intros t ->.
        change ("models/" ++ t)
          with (String "m" (String "o" (String "d" (String "e" (String "l"
                 (String "s" (String "/" t))))))) in Hp.
        simpl in Hp. by destruct t.
      * unfold stripModelsPrefix. by rewrite Hp.
Qed.

Lemma runCalls_length calls st : length (runCalls calls st) = length calls.
Proof.
  revert st. induction calls as [|[env req] calls IH]; intros st; simpl; [done|].
  by rewrite IH.
Qed.

(** The conditions under which a run is a round-robin over the stable
    candidate ids [C]: no active local account in the store, and the call's
    filtered list has exactly the keys [C]. *)
Definition stableFor (C : list string)
    (e : Env * option string * State * option SelectedAccount.t) : Prop :=
  noActiveLocal (db e.1.2) /\ (candidates e.1.1.1 e.1.1.2 e.1.2).*1 = C.

#[global] Instance stableFor_dec C e : Decision (stableFor C e).
Proof. unfold stableFor. apply _. Defined.

Lemma stable_call (C : list string) env req st :
  C <> [] ->
  noActiveLocal (db st) -> (candidates env req st).*1 = C ->
  SelectedAccount.id <$> (getNextToken env req st).1
    = C !! (currentIndex st mod length C)%nat /\
  currentIndex (getNextToken env req st).2 = S (currentIndex st).
Proof.
  intros HC Hno Hcand.
  assert (Hlock : lockedLocal (reloadIfEmpty env st) = None).
  { apply noActiveLocal_lockedLocal. by rewrite reloadIfEmpty_db. }
  assert (Hne : candidates env req st <> []).
  { intros Hnil. rewrite Hnil in Hcand. by subst C. }
  destruct (getNextToken_roundRobin env req st Hlock Hne) as (chosen & Hrr & ->).
  destruct (finish_result env (reloadIfEmpty env st) (S (currentIndex st)) chosen)
    as (Hid & Hidx & _).
  split; [|done]. rewrite Hid. unfold roundRobin in Hrr.
  rewrite <- Hcand, list_lookup_fmap, length_fmap, Hrr. done.
Qed.

Lemma runCalls_lookup (C : list string) calls st k :
  C <> [] ->
  Forall (stableFor C) (runCalls calls st) ->
  (k < length calls)%nat ->
  exists env req s r,
    runCalls calls st !! k = Some (env, req, s, r) /\
    currentIndex s = (currentIndex st + k)%nat /\
    r = (getNextToken env req s).1 /\
    SelectedAccount.id <$> r = C !! ((currentIndex st + k) mod length C)%nat /\
    currentIndex (getNextToken env req s).2 = S (currentIndex s).
Proof.
  intros HC. revert st k.
  induction calls as [|[env req] calls IH]; intros st k Hst Hk; simpl in *; [lia|].
  apply Forall_cons in Hst as [[Hno Hcand] Hrest]. simpl in Hno, Hcand.
  destruct (stable_call C env req st HC Hno Hcand) as [Hid Hidx].
  destruct k as [|k].
  - exists env, req, st, (getNextToken env req st).1.
    rewrite Nat.add_0_r. done.
  - destruct (IH _ k Hrest ltac:(lia)) as (env' & req' & s & r & Hl & Hs & Hr & Hsel & Hnext).
    exists env', req', s, r. rewrite Hidx in Hs, Hsel.
    replace (currentIndex st + S k)%nat with (S (currentIndex st) + k)%nat by lia.
    done.
Qed.

Lemma mod_reaches (n idx pos : nat) :
  (pos < n)%nat -> exists k, (k < n)%nat /\ ((idx + k) mod n = pos)%nat.
Proof.
  intros Hp. exists ((pos + n - idx mod n) mod n)%nat.
  assert (idx mod n < n)%nat by (apply Nat.mod_upper_bound; lia).
  split; [apply Nat.mod_upper_bound; lia|].
  rewrite Nat.Div0.add_mod_idemp_r.
  rewrite <- Nat.Div0.add_mod_idemp_l.
  replace (idx mod n + (pos + n - idx mod n))%nat with (pos + 1 * n)%nat by lia.
  rewrite Nat.Div0.mod_add. by apply Nat.mod_small.
Qed.

Lemma size_two_keys {V} (m : gmap string V) i j x y :
  i <> j -> m !! i = Some x -> m !! j = Some y -> (2 <= size m)%nat.
Proof.
  intros Hne Hi Hj.
  pose proof (map_size_delete_Some i m (mk_is_Some _ _ Hi)) as Hd.
  assert (Hj' : is_Some (delete i m !! j)) by (rewrite lookup_delete_ne by done; eauto).
  apply map_size_ne_0_lookup_2 in Hj'. lia.
Qed.

(** Under the active-singleton invariant [find(a => a.is_active)] returns
    the active row, whatever the order of [getAccounts]. *)
Lemma activeAccount_unique tbl a :
  (CloudAccountRepo.activeCount tbl <= 1)%nat ->
  tbl !! CloudAccount.id a = Some a ->
  CloudAccount.is_active a = true ->
  activeAccount tbl = Some a.
Proof.
  intros Hone Ha Hact. destruct (activeAccount tbl) as [b|] eqn:Hf.
  - apply activeAccount_Some in Hf as [Hb [j Hj]].
    destruct (decide (CloudAccount.id a = j)) as [<-|Hne]; [congruence|].
    exfalso. unfold CloudAccountRepo.activeCount, CloudAccountRepo.activeRows in Hone.
    pose proof (size_two_keys
      (filter (fun kv => CloudAccount.is_active kv.2 = true) tbl)
      (CloudAccount.id a) j a b Hne) as H2.
    rewrite !map_lookup_filter_Some in H2. specialize (H2 ltac:(done) ltac:(done)).
    lia.
  - unfold activeAccount in Hf.
    pose proof (List.find_none _ _ Hf a) as Hn.
    rewrite Hn in Hact; [done|]. apply list_elem_of_In.
    apply CloudAccountRepo.elem_of_getAccounts. eauto.
Qed.

Lemma reloadIfEmpty_nonempty env st k v :
  mapGet k (tokens st) = Some v -> reloadIfEmpty env st = st.
Proof. unfold reloadIfEmpty. by destruct (tokens st). Qed.

(** With a non-empty candidate list, a locked local account is what the
    call returns, and the round-robin counter stays put. *)
Lemma getNextToken_locked env req st chosen :
  lockedLocal st = Some chosen ->
  tokens st <> [] ->
  candidates env req st <> [] ->
  getNextToken env req st = finish env st (currentIndex st) chosen.
Proof.
  intros Hlock Htk Hne. unfold candidates in Hne. unfold getNextToken.
  assert (Hst : reloadIfEmpty env st = st).
  { unfold reloadIfEmpty. by destruct (tokens st). }
  rewrite Hst in *.
  destruct (tokens st) as [|e tks] eqn:Htks; [done|].
  destruct (validTokens _ _ _ _) as [|v vs]; [done|].
  by rewrite Hlock.
Qed.

(** The threshold of the refresh block, in seconds left. *)
Lemma needsRefresh_iff nowSeconds d :
  needsRefresh nowSeconds d = true <->
  TokenData.expiry_timestamp d - nowSeconds <= 300.
Proof. unfold needsRefresh. rewrite Z.leb_le. lia. Qed.

(** A token with more than 300 seconds left goes through the refresh block
    untouched, and so does the store. *)
Lemma refreshStep_fresh env nowSeconds accountId d tbl :
  300 < TokenData.expiry_timestamp d - nowSeconds ->
  refreshStep env nowSeconds accountId d tbl = (d, tbl).
Proof.
  intros Hlt. unfold refreshStep.
  destruct (needsRefresh nowSeconds d) eqn:Hn; [|done].
  apply needsRefresh_iff in Hn. lia.
Qed.

(** A successful exchange inside the threshold. *)
Lemma refreshStep_exchange env nowSeconds accountId d tbl newTokens :
  TokenData.expiry_timestamp d - nowSeconds <= 300 ->
  refreshAccessToken env (TokenData.refresh_token d) = Ok newTokens ->
  refreshStep env nowSeconds accountId d tbl =
    (let d' := TokenData.with_refresh (TokenResponse.access_token newTokens)
                 (TokenResponse.expires_in newTokens)
                 (nowSeconds + TokenResponse.expires_in newTokens) d in
     (d', saveRefreshedToken accountId d' tbl)).
Proof.
  intros Hle Hex. unfold refreshStep.
  apply needsRefresh_iff in Hle. by rewrite Hle, Hex.
Qed.

(** Discovery that finds a project id writes it to the store. *)
Lemma projectStep_found env accountId d tbl realId :
  needsProjectId d = true -> realId <> "" ->
  fetchProjectId env (TokenData.access_token d) = Ok (Some realId) ->
  projectStep env accountId d tbl =
    (TokenData.with_project_id (Some realId) d,
     saveProjectId accountId realId tbl).
Proof.
  intros Hn Hr Hf. unfold projectStep. rewrite Hn, Hf.
  apply String.eqb_neq in Hr. by rewrite Hr.
Qed.

(** Discovery that fails ([null] or a thrown error) sets the fallback on
    the in-memory record only: the store is the one the block started
    with. *)
Lemma projectStep_failed env accountId d tbl :
  needsProjectId d = true ->
  fetchProjectId env (TokenData.access_token d) = Ok None \/
  fetchProjectId env (TokenData.access_token d) = Throw ->
  projectStep env accountId d tbl =
    (TokenData.with_project_id (Some (fallbackProjectId d)) d, tbl).
Proof.
  intros Hn [Hf|Hf]; unfold projectStep; by rewrite Hn, Hf.
Qed.

(** *** Laws of the insertion-ordered map *)

Lemma mapGet_mapSet_eq {V} k (v : V) m : mapGet k (mapSet k v m) = Some v.
Proof.
  induction m as [|[k' v'] m IH]; simpl.
  - by rewrite String.eqb_refl.
  - destruct (String.eqb k' k) eqn:Hk; simpl.
    + by rewrite String.eqb_refl.
    + by rewrite Hk.
Qed.

Lemma mapGet_mapSet_ne {V} k k' (v : V) m :
  k <> k' -> mapGet k' (mapSet k v m) = mapGet k' m.
Proof.
  intros Hne. induction m as [|[k0 v0] m IH]; simpl.
  - apply String.eqb_neq in Hne. by rewrite Hne.
  - destruct (String.eqb k0 k) eqn:Hk; simpl.
    + apply String.eqb_eq in Hk as ->.
      apply String.eqb_neq in Hne. by rewrite Hne.
    + by rewrite IH.
Qed.

Lemma mapGet_elem_of {V} k (v : V) m : mapGet k m = Some v -> (k, v) ∈ m.
Proof.
  induction m as [|[k' v'] m IH]; simpl; [done|].
  destruct (String.eqb k' k) eqn:Hk.
  - apply String.eqb_eq in Hk as ->. intros [= ->]. apply list_elem_of_here.
  - intros Hg. apply list_elem_of_further. by apply IH.
Qed.

Lemma mapGet_None {V} k (m : list (string * V)) :
  mapGet k m = None <-> k ∉ m.*1.
Proof.
  induction m as [|[k' v'] m IH]; simpl.
  - split; [intros _; apply not_elem_of_nil|done].
  - destruct (String.eqb k' k) eqn:Hk.
    + apply String.eqb_eq in Hk as ->. split; [done|].
      intros Hn. exfalso. apply Hn. apply list_elem_of_here.
    + apply String.eqb_neq in Hk. rewrite IH, not_elem_of_cons.
      split; [by intros ?; split|by intros [_ ?]].
Qed.

Lemma elem_of_mapGet {V} k (v : V) m :
  NoDup m.*1 -> (k, v) ∈ m -> mapGet k m = Some v.
Proof.
  induction m as [|[k' v'] m IH]; simpl; intros Hnd Hin.
  - by apply not_elem_of_nil in Hin.
  - apply NoDup_cons in Hnd as [Hk' Hnd].
    apply elem_of_cons in Hin as [[= <- <-]|Hin].
    + by rewrite String.eqb_refl.
    + destruct (String.eqb k' k) eqn:Hk; [|by apply IH].
      apply String.eqb_eq in Hk as ->. exfalso. apply Hk'.
      apply list_elem_of_fmap. by exists (k, v).
Qed.

(** Setting a key that is present keeps the order of the keys. *)
Lemma mapSet_keys_present {V} k (v : V) m :
  k ∈ m.*1 -> (mapSet k v m).*1 = m.*1.
Proof.
  induction m as [|[k' v'] m IH]; simpl; intros Hin.
  - by apply not_elem_of_nil in Hin.
  - destruct (String.eqb k' k) eqn:Hk; simpl.
    + apply String.eqb_eq in Hk as ->. done.
    + apply String.eqb_neq in Hk.
      apply elem_of_cons in Hin as [->|Hin]; [done|]. f_equal. by apply IH.
Qed.

(** Setting a new key appends the entry. *)
Lemma mapSet_fresh {V} k (v : V) m : k ∉ m.*1 -> mapSet k v m = (m ++ [(k, v)])%list.
Proof.
  induction m as [|[k' v'] m IH]; simpl; intros Hn; [done|].
  apply not_elem_of_cons in Hn as [Hne Hn].
  assert (String.eqb k' k = false) as -> by (apply String.eqb_neq; congruence).
  by rewrite IH.
Qed.

(** Setting a key to the value it has changes nothing. *)
Lemma mapSet_same {V} k (v : V) m : mapGet k m = Some v -> mapSet k v m = m.
Proof.
  induction m as [|[k' v'] m IH]; simpl; [done|].
  destruct (String.eqb k' k) eqn:Hk.
  - apply String.eqb_eq in Hk as ->. by intros [= ->].
  - intros Hg. by rewrite IH.
Qed.

Lemma loadAccounts_fold env (l : list CloudAccount.t) acc :
  NoDup (acc.*1 ++ (CloudAccount.id <$> l))%list ->
  foldl (fun tks account =>
           mapSet (CloudAccount.id account)
                  (convertAccountToToken env account) tks) acc l
  = (acc ++ ((fun a => (CloudAccount.id a, convertAccountToToken env a)) <$> l))%list.
Proof.
  revert acc. induction l as [|a l IH]; intros acc Hnd; simpl.
  - by rewrite app_nil_r.
  - assert (Hfresh : CloudAccount.id a ∉ acc.*1).
    { apply NoDup_app in Hnd as (_ & Hdis & _). intros Hin.
      apply (Hdis _ Hin). apply list_elem_of_here. }
    rewrite mapSet_fresh by done. rewrite IH.
    + by rewrite <- app_assoc.
    + rewrite fmap_app. simpl. rewrite <- app_assoc. done.
Qed.

Lemma getAccounts_ids_NoDup tbl :
  CloudAccountRepo.keyedById tbl ->
  NoDup (CloudAccount.id <$> CloudAccountRepo.getAccounts tbl).
Proof.
  intros Hkey. unfold CloudAccountRepo.getAccounts.
  rewrite sortBy_Permutation.
  assert (Heq : CloudAccount.id <$> (map_to_list tbl).*2 = (map_to_list tbl).*1).
  { rewrite <- list_fmap_compose. apply list_fmap_ext.
    intros i [j a] Hl. simpl. apply Hkey.
    apply elem_of_map_to_list. apply list_elem_of_lookup. eauto. }
  rewrite Heq. apply NoDup_fst_map_to_list.
Qed.

(** *** The shape of a call *)

(** A call either finds no candidate and returns [null] from the state left
    by the reload step, or runs the two blocks on an entry of the map, with
    the counter kept (locked local account) or bumped (round robin). *)
Lemma getNextToken_cases env req st :
  (candidates env req st = [] /\
   getNextToken env req st = (None, reloadIfEmpty env st)) \/
  (candidates env req st <> [] /\
   exists chosen idx',
     chosen ∈ tokens (reloadIfEmpty env st) /\
     (idx' = currentIndex st \/ idx' = S (currentIndex st)) /\
     getNextToken env req st = finish env (reloadIfEmpty env st) idx' chosen).
Proof.
  unfold candidates, getNextToken.
  set (st' := reloadIfEmpty env st).
  destruct (tokens st') as [|e tks] eqn:Htk; [by left|].
  rewrite <- Htk.
  destruct (validTokens _ _ _ (tokens st')) as [|v vs] eqn:Hv; [by left|].
  right. split; [done|]. rewrite <- Hv.
  destruct (lockedLocal st') as [[k d]|] eqn:Hlock.
  - exists (k, d), (currentIndex st). split_and!; [|by left|].
    + unfold lockedLocal in Hlock.
      destruct (activeAccount (db st')) as [a|]; [|done].
      destruct (startsWith _ _); [|done].
      destruct (mapGet _ _) as [lt|] eqn:Hget; [|done].
      injection Hlock as <- <-. by apply mapGet_elem_of.
    + subst st'. by rewrite reloadIfEmpty_currentIndex.
  - destruct (roundRobin_is_Some (validTokens env req (cooldowns st') (tokens st'))
                (currentIndex st')) as [chosen Hch]; [by rewrite Hv|].
    rewrite Hch. exists chosen, (S (currentIndex st)). split_and!; [|by right|].
    + unfold roundRobin in Hch. apply list_elem_of_lookup_2 in Hch.
      by apply elem_of_validTokens in Hch as [? _].
    + subst st'. by rewrite reloadIfEmpty_currentIndex.
Qed.

(** *** What the two blocks write *)

(** [tbl'] differs from [tbl] at most in the token of row [k], and there
    only in fields other than [refresh_token] and [session_id]. *)
Definition tokenWrite (k : string) (tbl tbl' : gmap string CloudAccount.t) : Prop :=
  (forall j, j <> k -> tbl' !! j = tbl !! j) /\
  match tbl !! k with
  | Some a =>
      exists tk, tbl' !! k = Some (CloudAccount.with_token tk a) /\
                 Token.refresh_token tk = Token.refresh_token (CloudAccount.token a) /\
                 Token.session_id tk = Token.session_id (CloudAccount.token a)
  | None => tbl' !! k = None
  end.

Lemma with_token_same a : CloudAccount.with_token (CloudAccount.token a) a = a.
Proof. by destruct a. Qed.

Lemma tokenWrite_refl k tbl : tokenWrite k tbl tbl.
Proof.
  split; [done|]. destruct (tbl !! k) as [a|] eqn:Hk; [|done].
  exists (CloudAccount.token a). by rewrite with_token_same.
Qed.

Lemma tokenWrite_trans k t1 t2 t3 :
  tokenWrite k t1 t2 -> tokenWrite k t2 t3 -> tokenWrite k t1 t3.
Proof.
  intros [H1 H1k] [H2 H2k]. split.
  - intros j Hj. by rewrite H2, H1.
  - destruct (t1 !! k) as [a|] eqn:Hk.
    + destruct H1k as (tk & Htk & Hr & Hs). rewrite Htk in H2k.
      destruct H2k as (tk' & Htk' & Hr' & Hs'). exists tk'.
      destruct a. simpl in *. split_and!; [done|congruence|congruence].
    + by rewrite H1k in H2k.
Qed.

Lemma tokenWrite_updateToken k tk tbl :
  (forall a, tbl !! k = Some a ->
     Token.refresh_token tk = Token.refresh_token (CloudAccount.token a) /\
     Token.session_id tk = Token.session_id (CloudAccount.token a)) ->
  tokenWrite k tbl (CloudAccountRepo.updateToken k tk tbl).
Proof.
  intros Hk. unfold CloudAccountRepo.updateToken. split.
  - intros j Hj. by rewrite lookup_alter_ne.
  - rewrite lookup_alter_eq. destruct (tbl !! k) as [a|] eqn:Ha; [|done].
    exists tk. split; [done|]. by apply Hk.
Qed.

Lemma saveRefreshedToken_tokenWrite k d tbl :
  tokenWrite k tbl (saveRefreshedToken k d tbl).
Proof.
  unfold saveRefreshedToken, CloudAccountRepo.getAccount.
  destruct (tbl !! k) as [acc|] eqn:Hk; [|apply tokenWrite_refl].
  apply tokenWrite_updateToken. intros a Ha. by simplify_eq.
Qed.

Lemma saveProjectId_tokenWrite k p tbl :
  tokenWrite k tbl (saveProjectId k p tbl).
Proof.
  unfold saveProjectId, CloudAccountRepo.getAccount.
  destruct (tbl !! k) as [acc|] eqn:Hk; [|apply tokenWrite_refl].
  apply tokenWrite_updateToken. intros a Ha. by simplify_eq.
Qed.

(** The entry keeps its identity through both blocks. *)
Definition sameIdentity (d d' : TokenData.t) : Prop :=
  TokenData.email d' = TokenData.email d /\
  TokenData.account_id d' = TokenData.account_id d /\
  TokenData.provider d' = TokenData.provider d /\
  TokenData.refresh_token d' = TokenData.refresh_token d /\
  TokenData.session_id d' = TokenData.session_id d /\
  TokenData.selected_models d' = TokenData.selected_models d.

Lemma refreshStep_shape env nowSeconds k d tbl :
  sameIdentity d (refreshStep env nowSeconds k d tbl).1 /\
  TokenData.project_id (refreshStep env nowSeconds k d tbl).1
    = TokenData.project_id d /\
  tokenWrite k tbl (refreshStep env nowSeconds k d tbl).2.
Proof.
  unfold refreshStep.
  destruct (needsRefresh nowSeconds d); [|by split_and!; [|done|apply tokenWrite_refl]].
  destruct (refreshAccessToken env _); simpl.
  - split_and!; [done|done|apply saveRefreshedToken_tokenWrite].
  - by split_and!; [|done|apply tokenWrite_refl].
Qed.

Lemma projectStep_shape env k d tbl :
  sameIdentity d (projectStep env k d tbl).1 /\
  TokenData.access_token (projectStep env k d tbl).1 = TokenData.access_token d /\
  TokenData.expires_in (projectStep env k d tbl).1 = TokenData.expires_in d /\
  TokenData.expiry_timestamp (projectStep env k d tbl).1
    = TokenData.expiry_timestamp d /\
  tokenWrite k tbl (projectStep env k d tbl).2.
Proof.
  unfold projectStep.
  destruct (needsProjectId d); [|by split_and!; [| | | |apply tokenWrite_refl]].
  destruct (fetchProjectId env _) as [[realId|]|]; simpl.
  - destruct (negb _); simpl.
    + split_and!; [done..|apply saveProjectId_tokenWrite].
    + by split_and!; [| | | |apply tokenWrite_refl].
  - by split_and!; [| | | |apply tokenWrite_refl].
  - by split_and!; [| | | |apply tokenWrite_refl].
Qed.

(** After the project-id block an entry of provider [google] or
    [anthropic] has a project id. *)
Lemma projectStep_resolved env k d tbl :
  needsProjectId (projectStep env k d tbl).1 = false.
Proof.
  unfold projectStep. destruct (needsProjectId d) eqn:Hn; [|done].
  assert (Hprov : String.eqb (TokenData.provider d) "google"
                  || String.eqb (TokenData.provider d) "anthropic" = true).
  { unfold needsProjectId in Hn. by apply andb_true_iff in Hn as [_ ?]. }
  destruct (fetchProjectId env _) as [[realId|]|]; simpl;
    [destruct (negb (String.eqb realId "")) eqn:Hr; simpl|..];
    unfold needsProjectId; simpl; try by rewrite ?Hr.
Qed.

Lemma finish_unfold env st idx' k d0 :
  finish env st idx' (k, d0) =
    (let r1 := refreshStep env (now env / 1000) k d0 (db st) in
     let r2 := projectStep env k r1.1 r1.2 in
     (Some (toAccount k r2.1),
      mkState idx' (mapSet k r2.1 (tokens st)) (cooldowns st) r2.2)).
Proof.
  unfold finish. destruct (refreshStep _ _ _ _ _) as [d1 tbl1]; simpl.
  by destruct (projectStep _ _ _ _) as [d2 tbl2].
Qed.

End TokenManagerService.

(** C2. Round-robin selection. Along a run of [|C|] consecutive calls in
    which the store has no active local-provider account and every call's
    filtered candidate list has the keys [C] (non-empty), each call returns
    the candidate at position [currentIndex mod |C|], bumps [currentIndex]
    by exactly one, the counter seen by the [k]-th call is the initial one
    plus [k], and every account of [C] is returned by one of the calls. *)
Theorem round_robin_covers_candidates :
  forall (C : list string) (calls : list (TokenManagerService.Env * option string))
         (st : TokenManagerService.State),
    C <> [] ->
    length calls = length C ->
    Forall (TokenManagerService.stableFor C)
           (TokenManagerService.runCalls calls st) ->
    (forall k env req s r,
        TokenManagerService.runCalls calls st !! k = Some (env, req, s, r) ->
        TokenManagerService.currentIndex s
          = (TokenManagerService.currentIndex st + k)%nat /\
        SelectedAccount.id <$> r
          = C !! (TokenManagerService.currentIndex s mod length C)%nat /\
        TokenManagerService.currentIndex
            (TokenManagerService.getNextToken env req s).2
          = S (TokenManagerService.currentIndex s)) /\
    (forall c, c ∈ C ->
       exists k env req s acc,
         (k < length C)%nat /\
         TokenManagerService.runCalls calls st !! k = Some (env, req, s, Some acc) /\
         SelectedAccount.id acc = c).
Proof.
  intros C calls st HC Hlen Hst. split.
  - intros k env req s r Hk.
    assert (Hlt : (k < length calls)%nat).
    { rewrite <- (TokenManagerService.runCalls_length calls st).
      by eapply lookup_lt_Some. }
    destruct (TokenManagerService.runCalls_lookup C calls st k HC Hst Hlt)
      as (env' & req' & s' & r' & Hl & Hs & Hr & Hsel & Hnext).
    rewrite Hk in Hl. injection Hl as <- <- <- <-.
    rewrite Hs at 2. done.
  - intros c Hc. apply list_elem_of_lookup in Hc as [pos Hpos].
    assert (Hp : (pos < length C)%nat) by by eapply lookup_lt_Some.
    destruct (TokenManagerService.mod_reaches (length C)
                (TokenManagerService.currentIndex st) pos Hp) as (k & Hk & Hmod).
    destruct (TokenManagerService.runCalls_lookup C calls st k HC Hst ltac:(lia))
      as (env & req & s & r & Hl & Hs & Hr & Hsel & Hnext).
    rewrite Hmod, Hpos in Hsel.
    destruct r as [acc|]; simplify_eq/=.
    exists k, env, req, s, acc. done.
Qed.

(** Scenario S1 of the specification: three cloud accounts A, B, C, none
    active, none in cooldown, none with a model selection. *)
Definition cloudAccount (i : string) (lastUsed expiry : Z)
    (projectId : option string) (sel : option (list string)) : CloudAccount.t :=
  CloudAccount.mk i "google" (i ++ "@example.com")
    (Token.mk ("access-" ++ i) ("refresh-" ++ i) 3600 expiry projectId
              (Some "-1000000000000000000"))
    None 1700000000 lastUsed status_active false sel.

(** An environment in which the token endpoint fails and project discovery
    finds nothing. The concrete environments fold case by [Js.toLowerCase],
    which is what the runtime does on the ASCII identifiers they are used
    with. *)
Definition quietEnv (now_ms : Z) : TokenManagerService.Env :=
  TokenManagerService.mkEnv now_ms (fun _ => Js.Throw) (fun _ => Js.Ok None)
    (fun _ => "-1000000000000000000") Js.toLowerCase.

Definition s1_store : gmap string CloudAccount.t :=
  CloudAccountRepo.addAccount (cloudAccount "C" 1 1700009999 (Some "p-c") None)
    (CloudAccountRepo.addAccount (cloudAccount "B" 2 1700009999 (Some "p-b") None)
       (CloudAccountRepo.addAccount (cloudAccount "A" 3 1700009999 (Some "p-a") None) ∅)).

Definition s1_state : TokenManagerService.State :=
  TokenManagerService.mkState 0 [] ∅ s1_store.

Definition s1_calls : list (TokenManagerService.Env * option string) :=
  [(quietEnv 1700000000000, Some "gpt-4");
   (quietEnv 1700000001000, Some "gpt-4");
   (quietEnv 1700000002000, Some "gpt-4")].

Example s1_selection_order :
  List.map (fun e => option_map SelectedAccount.id (snd e))
    (TokenManagerService.runCalls
       (s1_calls ++ [(quietEnv 1700000003000, Some "gpt-4")]) s1_state)
  = [Some "A"; Some "B"; Some "C"; Some "A"].
Proof. vm_compute. reflexivity. Qed.

Lemma round_robin_covers_candidates_witness :
  (["A"; "B"; "C"] <> [] /\
   length s1_calls = length ["A"; "B"; "C"] /\
   Forall (TokenManagerService.stableFor ["A"; "B"; "C"])
          (TokenManagerService.runCalls s1_calls s1_state)) /\
  forall c, c ∈ ["A"; "B"; "C"] ->
    exists k env req s acc,
      (k < length ["A"; "B"; "C"])%nat /\
      TokenManagerService.runCalls s1_calls s1_state !! k
        = Some (env, req, s, Some acc) /\
      SelectedAccount.id acc = c.
Proof.
  assert (H1 : ["A"; "B"; "C"] <> []) by discriminate.
  assert (H2 : length s1_calls = length ["A"; "B"; "C"]) by reflexivity.
  assert (H3 : Forall (TokenManagerService.stableFor ["A"; "B"; "C"])
                 (TokenManagerService.runCalls s1_calls s1_state)).
  { apply (bool_decide_unpack _). vm_compute. exact I. }
  split; [done|].
  apply (round_robin_covers_candidates ["A"; "B"; "C"] s1_calls s1_state H1 H2 H3).
Defined.

(** C3 (as amended). Model filter. For an entry of the map that is not in
    cooldown, being a candidate is decided by the model filter alone, and
    the filter lets the entry through exactly when the request carries no
    model or the empty string, or the account's [selected_models] is absent
    or empty, or some element of it and the requested model have the same
    normal form: each with one leading [models/] dropped, if it has one,
    and then lower-cased by the runtime's [toLowerCase], whatever that
    function does to the characters. *)
Theorem model_filter_candidates :
  forall (env : TokenManagerService.Env) (req : option string)
         (cds : gmap string Z)
         (tks : list (string * TokenData.t)) (e : string * TokenData.t),
    e ∈ tks ->
    TokenManagerService.isNotCooldown cds (TokenManagerService.now env)
      (TokenData.email e.2) = true ->
    (e ∈ TokenManagerService.validTokens env req cds tks <->
     req = None \/ req = Some "" \/
     TokenData.selected_models e.2 = None \/
     TokenData.selected_models e.2 = Some [] \/
     exists r sms sm n,
       req = Some r /\ TokenData.selected_models e.2 = Some sms /\
       sm ∈ sms /\
       TokenManagerService.normalisedTo env sm n /\
       TokenManagerService.normalisedTo env r n).
Proof.
  intros env req cds tks e Hin Hcd.
  rewrite TokenManagerService.elem_of_validTokens.
  destruct req as [r|]; [|by intuition].
  destruct (decide (r = "")) as [->|Hr].
  { split; [by intuition|]. intros _. split_and!; [done..|].
    unfold TokenManagerService.isModelAllowed.
    by destruct (TokenData.selected_models e.2). }
  pose proof (TokenManagerService.isModelAllowed_given env r
                (TokenData.selected_models e.2) Hr) as Hspec.
  destruct (TokenData.selected_models e.2) as [[|sm0 sms]|] eqn:Hsel.
  - split; [by intuition|]. intros _. split_and!; [done..|]. by apply Hspec.
  - split.
    + intros (_ & _ & Hal). apply Hspec in Hal as (sm & Hsm & Heq).
      do 4 right.
      exists r, (sm0 :: sms), sm, (TokenManagerService.cleanModel env r).
      split_and!; [done|done|done| |].
      * by apply TokenManagerService.normalisedTo_cleanModel.
      * by apply TokenManagerService.normalisedTo_cleanModel.
    + intros [?|[?|[?|[?|(r' & sms' & sm & n & ? & ? & Hsm & Hn1 & Hn2)]]]];
        simplify_eq.
      split_and!; [done..|]. apply Hspec. exists sm. split; [done|].
      apply TokenManagerService.normalisedTo_cleanModel in Hn1, Hn2.
      congruence.
  - split; [by intuition|]. intros _. split_and!; [done..|]. by apply Hspec.
Qed.

Definition fooOnlyEntry : string * TokenData.t :=
  ("A", TokenData.mk "a@example.com" "A" "google" "access-A" "refresh-A"
          3600 1700009999 (Some "p-a") (Some "-1") (Some ["foo"])).

(** The account restricted to [foo] serves a request for [models/FOO] (the
    prefix is dropped and the case folded on the request) and does not
    serve a request for [models/food]. *)
Lemma model_filter_candidates_witness :
  (fooOnlyEntry ∈ [fooOnlyEntry] /\
   TokenManagerService.isNotCooldown ∅
     (TokenManagerService.now (quietEnv 1700000000000))
     (TokenData.email fooOnlyEntry.2) = true) /\
  fooOnlyEntry ∈ TokenManagerService.validTokens (quietEnv 1700000000000)
                   (Some "models/FOO") ∅ [fooOnlyEntry] /\
  fooOnlyEntry ∉ TokenManagerService.validTokens (quietEnv 1700000000000)
                   (Some "models/food") ∅ [fooOnlyEntry].
Proof.
  assert (H1 : fooOnlyEntry ∈ [fooOnlyEntry]) by apply list_elem_of_here.
  assert (H2 : TokenManagerService.isNotCooldown ∅
                 (TokenManagerService.now (quietEnv 1700000000000))
                 (TokenData.email fooOnlyEntry.2) = true) by reflexivity.
  split; [done|]. split.
  - apply (model_filter_candidates (quietEnv 1700000000000) (Some "models/FOO") ∅
             [fooOnlyEntry] fooOnlyEntry H1 H2).
    do 4 right. exists "models/FOO", ["foo"], "foo", "foo".
    split_and!; [done|done|apply list_elem_of_here| |].
    + exists "foo". split; [|done]. right. split; [done|]. by intros t [=].
    + exists "FOO". split; [by left|done].
  - intros Hin.
    apply (model_filter_candidates (quietEnv 1700000000000) (Some "models/food") ∅
             [fooOnlyEntry] fooOnlyEntry H1 H2) in Hin.
    destruct Hin as [?|[?|[?|[?|(r & sms & sm & n & Hr & Hs & Hsm & Hn1 & Hn2)]]]];
      try discriminate.
    injection Hr as <-. injection Hs as <-.
    apply list_elem_of_singleton in Hsm as ->.
    destruct Hn1 as (rest1 & [Hp1|[<- _]] & ->); [discriminate Hp1|].
    destruct Hn2 as (rest2 & [Hp2|[_ Hno]] & Hn2).
    + change ("models/" ++ rest2)
        with (String "m" (String "o" (String "d" (String "e" (String "l"
               (String "s" (String "/" rest2))))))) in Hp2.
      injection Hp2 as <-. discriminate Hn2.
    + by destruct (Hno "food").
Defined.

(** C3, the claim as stated fails for a request whose model is the empty
    string: the account restricted to ["foo"] is a candidate, although no
    element of its list equals the requested model. *)
Lemma model_filter_empty_request_counterexample :
  fooOnlyEntry ∈ TokenManagerService.validTokens (quietEnv 1700000000000)
                   (Some "") ∅ [fooOnlyEntry] /\
  ~ (exists sm, sm ∈ ["foo"] /\
       TokenManagerService.cleanModel (quietEnv 1700000000000) sm
       = TokenManagerService.cleanModel (quietEnv 1700000000000) "").
Proof.
  split.
  - vm_compute. apply list_elem_of_here.
  - intros (sm & Hsm & Heq). apply list_elem_of_singleton in Hsm as ->.
    vm_compute in Heq. discriminate.
Qed.

(** C10 (as amended). Local lock. When the store (with at most one active
    row) holds an active account of a [local-] provider that the in-memory
    map knows, and the filtered candidate list of the call is not empty,
    the call returns that account whether or not the account itself passed
    the cooldown and model filters, and leaves the round-robin counter as it
    was. *)
Theorem active_local_account_is_returned :
  forall (env : TokenManagerService.Env) (req : option string)
         (st : TokenManagerService.State) (a : CloudAccount.t)
         (localToken : TokenData.t),
    (CloudAccountRepo.activeCount (TokenManagerService.db st) <= 1)%nat ->
    TokenManagerService.db st !! CloudAccount.id a = Some a ->
    CloudAccount.is_active a = true ->
    Js.startsWith "local-" (CloudAccount.provider a) = true ->
    TokenManagerService.mapGet (CloudAccount.id a) (TokenManagerService.tokens st)
      = Some localToken ->
    TokenManagerService.candidates env req st <> [] ->
    exists acc,
      (TokenManagerService.getNextToken env req st).1 = Some acc /\
      SelectedAccount.id acc = CloudAccount.id a /\
      SelectedAccount.email acc = TokenData.email localToken /\
      TokenManagerService.currentIndex
        (TokenManagerService.getNextToken env req st).2
        = TokenManagerService.currentIndex st.
Proof.
  intros env req st a localToken Hone Ha Hact Hloc Hget Hne.
  assert (Hlock : TokenManagerService.lockedLocal st
                  = Some (CloudAccount.id a, localToken)).
  { unfold TokenManagerService.lockedLocal.
    rewrite (TokenManagerService.activeAccount_unique _ a Hone Ha Hact).
    by rewrite Hloc, Hget. }
  assert (Htk : TokenManagerService.tokens st <> []).
  { intros Hnil. by rewrite Hnil in Hget. }
  rewrite (TokenManagerService.getNextToken_locked env req st _ Hlock Htk Hne).
  unfold TokenManagerService.finish.
  destruct (TokenManagerService.refreshStep _ _ _ _ _) as [d1 tbl1] eqn:Hr.
  destruct (TokenManagerService.projectStep _ _ _ _) as [d2 tbl2] eqn:Hp.
  exists (TokenManagerService.toAccount (CloudAccount.id a) d2).
  repeat split; simpl.
  assert (TokenData.email d1 = TokenData.email localToken) as <-.
  { unfold TokenManagerService.refreshStep in Hr.
    destruct (TokenManagerService.needsRefresh _ _); [|by simplify_eq].
    destruct (TokenManagerService.refreshAccessToken _ _); by simplify_eq. }
  unfold TokenManagerService.projectStep in Hp.
  destruct (TokenManagerService.needsProjectId d1); [|by simplify_eq].
  destruct (TokenManagerService.fetchProjectId _ _) as [[realId|]|];
    [destruct (negb _)|..]; by simplify_eq.
Qed.

(** A local model registered by [LocalModelDiscoveryService] and then made
    the active account, with a model selection of its own. *)
Definition localAccount : CloudAccount.t :=
  CloudAccount.mk "local-ollama-llama3" "local-ollama" "llama3@localhost"
    (Token.mk "local-access" "http://localhost:11434/v1" 999999 1700999999
              (Some "llama3") None)
    None 1700000000 5 status_active true (Some ["llama3"]).

Definition lockedStore : gmap string CloudAccount.t :=
  CloudAccountRepo.addAccount localAccount
    (CloudAccountRepo.addAccount
       (cloudAccount "A" 3 1700009999 (Some "p-a") None) ∅).

Definition lockedState : TokenManagerService.State :=
  TokenManagerService.loadAccounts (quietEnv 1700000000000)
    (TokenManagerService.mkState 0 [] ∅ lockedStore).

Definition localOnlyState : TokenManagerService.State :=
  TokenManagerService.loadAccounts (quietEnv 1700000000000)
    (TokenManagerService.mkState 0 [] ∅
       (CloudAccountRepo.addAccount localAccount ∅)).

Lemma active_local_account_is_returned_witness :
  exists acc,
    (TokenManagerService.getNextToken (quietEnv 1700000000000) (Some "gpt-4")
       lockedState).1 = Some acc /\
    SelectedAccount.id acc = "local-ollama-llama3" /\
    (localAccount.(CloudAccount.id), TokenManagerService.convertAccountToToken
        (quietEnv 1700000000000) localAccount)
      ∉ TokenManagerService.candidates (quietEnv 1700000000000) (Some "gpt-4")
          lockedState.
Proof.
  destruct (active_local_account_is_returned (quietEnv 1700000000000)
              (Some "gpt-4") lockedState localAccount
              (TokenManagerService.convertAccountToToken
                 (quietEnv 1700000000000) localAccount))
    as (acc & Hacc & Hid & _).
  - vm_compute. lia.
  - vm_compute. reflexivity.
  - reflexivity.
  - reflexivity.
  - vm_compute. reflexivity.
  - vm_compute. discriminate.
  - exists acc. split; [done|]. split; [done|].
    vm_compute. intros Hin. apply list_elem_of_singleton in Hin. discriminate.
Defined.

(** C10, the claim as stated fails when every entry is filtered out: the
    active local account is in the store and in the map, but the request
    names a model outside its selection and there is no other account, so
    the call returns [null] before the lock is looked at. *)
Lemma active_local_account_counterexample :
  TokenManagerService.db localOnlyState !! "local-ollama-llama3"
    = Some localAccount /\
  CloudAccount.is_active localAccount = true /\
  Js.startsWith "local-" (CloudAccount.provider localAccount) = true /\
  is_Some (TokenManagerService.mapGet "local-ollama-llama3"
             (TokenManagerService.tokens localOnlyState)) /\
  (TokenManagerService.getNextToken (quietEnv 1700000000000) (Some "gpt-4")
     localOnlyState).1 = None.
Proof.
  split_and!; [by vm_compute|done|done| |by vm_compute].
  vm_compute. eauto.
Qed.

(** ** The refresh and project-id blocks at concrete inputs *)

(** Account A whose token expires exactly 300 seconds after the call. *)
Definition expiringStore : gmap string CloudAccount.t :=
  CloudAccountRepo.addAccount
    (cloudAccount "A" 3 1700000300 (Some "p-a") None) ∅.

Definition refreshingEnv : TokenManagerService.Env :=
  TokenManagerService.mkEnv 1700000000000
    (fun _ => Js.Ok (TokenResponse.mk "new" 3600))
    (fun _ => Js.Ok None)
    (fun _ => "-1000000000000000000") Js.toLowerCase.

(** C5, at the boundary. The token of the chosen account has exactly 300
    seconds left (not less), and the call still exchanges the refresh token:
    the returned and the stored token carry the new access token and the
    new expiry. *)
Theorem refresh_at_exactly_300_seconds :
  let st := TokenManagerService.mkState 0 [] ∅ expiringStore in
  let r := TokenManagerService.getNextToken refreshingEnv (Some "gpt-4") st in
  (Token.expiry_timestamp ∘ CloudAccount.token <$> expiringStore !! "A")
    = Some (TokenManagerService.now refreshingEnv / 1000 + 300) /\
  (SelectedAccount.token <$> r.1)
    = Some (Token.mk "new" "refresh-A" 3600 1700003600 (Some "p-a")
              (Some "-1000000000000000000")) /\
  (CloudAccount.token <$> TokenManagerService.db r.2 !! "A")
    = Some (Token.mk "new" "refresh-A" 3600 1700003600 (Some "p-a")
              (Some "-1000000000000000000")).
Proof. vm_compute. done. Qed.

(** Account A of provider [google] without a project id; discovery
    answers [null]. *)
Definition projectlessStore : gmap string CloudAccount.t :=
  CloudAccountRepo.addAccount (cloudAccount "A" 3 1700009999 None None) ∅.

(** C6, on failed discovery. The returned token and the in-memory entry
    carry the fallback [cloud-code-A], but the store is left as it was: the
    row of A still has no project id. *)
Theorem fallback_project_id_not_stored :
  let st := TokenManagerService.mkState 0 [] ∅ projectlessStore in
  let r := TokenManagerService.getNextToken (quietEnv 1700000000000)
             (Some "gpt-4") st in
  (Token.project_id ∘ SelectedAccount.token <$> r.1)
    = Some (Some "cloud-code-A") /\
  (TokenData.project_id
     <$> TokenManagerService.mapGet "A" (TokenManagerService.tokens r.2))
    = Some (Some "cloud-code-A") /\
  TokenManagerService.db r.2 = projectlessStore /\
  (Token.project_id ∘ CloudAccount.token
     <$> TokenManagerService.db r.2 !! "A") = Some None.
Proof. vm_compute. done. Qed.

(** The sibling branch: discovery that succeeds is written to the store. *)
Example discovered_project_id_stored :
  let env := TokenManagerService.mkEnv 1700000000000 (fun _ => Js.Throw)
               (fun _ => Js.Ok (Some "real-project"))
               (fun _ => "-1000000000000000000") Js.toLowerCase in
  let st := TokenManagerService.mkState 0 [] ∅ projectlessStore in
  let r := TokenManagerService.getNextToken env (Some "gpt-4") st in
  (Token.project_id ∘ CloudAccount.token
     <$> TokenManagerService.db r.2 !! "A") = Some (Some "real-project").
Proof. vm_compute. done. Qed.

(** ** Proxy retry loop ([ProxyService.handleAnthropicMessages] and
       [ProxyService.handleChatCompletions]) *)

Module ProxyService.
Import Js.

(** [shouldRetry(msg)] *)
Definition shouldRetry (msg : string) : bool :=
  let l := toLowerCase msg in
  includes "429" l || includes "quota" l || includes "limit" l
  || includes "resource_exhausted" l.

Inductive Handler : Type := Anthropic | OpenAI.

(** A call to a client: the body it returned (already in the caller's
    shape) or the message of the error it threw. *)
Inductive Reply : Type :=
| Replied (body : string)
| Failed (message : string).

(** What iteration [i] of the loop observes outside the process. *)
Record Attempt : Type := mkAttempt {
  (** environment of [tokenManager.getNextToken] *)
  tokenEnv : TokenManagerService.Env;
  (** [localAIClient.streamChat] / [generateChat] *)
  localReply : Reply;
  (** [SemanticCacheManager.findResponse] *)
  cacheReply : option string;
  (** the [try] block: request mapping and [geminiClient] dispatch *)
  upstreamReply : Reply;
  (** [Date.now()] inside [markAsRateLimited] *)
  markClock : Z
}.

(** What an iteration did. *)
Inductive Step : Type :=
| StepNoAccount
| StepLocal (email : string) (reply : Reply)
| StepCacheHit (email : string) (cached : string)
| StepDispatched (email : string) (reply : Reply).

Record Iteration : Type := mkIteration {
  (** [calculateRetryDelay]/[sleep] ran before the attempt (Anthropic
      handler, [i > 0]) *)
  it_delayed : bool;
  it_before : TokenManagerService.State;
  it_step : Step;
  it_after : TokenManagerService.State
}.

(** How the handler ends: the value it returns or the error it throws. *)
Inductive Result : Type :=
| Returned (body : string)
| Thrown (message : string).

Definition replyResult (r : Reply) : Result :=
  match r with
  | Replied b => Returned b
  | Failed m => Thrown m
  end.

(** The [for (let i = 0; i < maxRetries; i++)] loop from iteration [i] on,
    with [remaining = maxRetries - i] iterations to go. *)
Fixpoint retryLoop (h : Handler) (model : string) (oracle : nat -> Attempt)
    (remaining i : nat) (lastError : option string)
    (st : TokenManagerService.State)
  : Result * list Iteration :=
  match remaining with
  | O => (Thrown (default "Request failed after retries" lastError), [])
  | S remaining' =>
      let att := oracle i in
      let delayed := match h with Anthropic => (0 <? i)%nat | OpenAI => false end in
      let sel := TokenManagerService.getNextToken (tokenEnv att) (Some model) st in
      let st1 := sel.2 in
      match sel.1 with
      | None =>
          (Thrown ("No available accounts satisfy model: " ++ model),
           [mkIteration delayed st StepNoAccount st1])
      | Some token =>
          let email := SelectedAccount.email token in
          if startsWith "local-" (SelectedAccount.provider token) then
            (replyResult (localReply att),
             [mkIteration delayed st (StepLocal email (localReply att)) st1])
          else if truthy (cacheReply att) then
            (Returned (default "" (cacheReply att)),
             [mkIteration delayed st
                (StepCacheHit email (default "" (cacheReply att))) st1])
          else
            match upstreamReply att with
            | Replied body =>
                (Returned body,
                 [mkIteration delayed st (StepDispatched email (Replied body)) st1])
            | Failed message =>
                let st2 := if shouldRetry message
                           then TokenManagerService.markAsRateLimited
                                  (markClock att) email st1
                           else st1 in
                let rest := retryLoop h model oracle remaining' (S i)
                              (Some message) st2 in
                (rest.1,
                 mkIteration delayed st (StepDispatched email (Failed message)) st2
                 :: rest.2)
            end
      end
  end.

Definition maxRetries : nat := 3.

Definition handleAnthropicMessages (model : string) (oracle : nat -> Attempt)
    (st : TokenManagerService.State) : Result * list Iteration :=
  retryLoop Anthropic model oracle maxRetries 0 None st.

Definition handleChatCompletions (model : string) (oracle : nat -> Attempt)
    (st : TokenManagerService.State) : Result * list Iteration :=
  retryLoop OpenAI model oracle maxRetries 0 None st.

Definition handle (h : Handler) : string -> (nat -> Attempt) ->
    TokenManagerService.State -> Result * list Iteration :=
  match h with
  | Anthropic => handleAnthropicMessages
  | OpenAI => handleChatCompletions
  end.

Definition isDispatch (it : Iteration) : bool :=
  match it_step it with
  | StepDispatched _ _ => true
  | _ => false
  end.

(** Number of upstream dispatches of a run. *)
Definition dispatchCount (log : list Iteration) : nat :=
  length (List.filter isDispatch log).

Lemma handle_retryLoop h model oracle st :
  handle h model oracle st = retryLoop h model oracle maxRetries 0 None st.
Proof. by destruct h. Qed.

Lemma getNextToken_cooldowns env req st :
  TokenManagerService.cooldowns (TokenManagerService.getNextToken env req st).2
  = TokenManagerService.cooldowns st.
Proof.
  unfold TokenManagerService.getNextToken.
  pose proof (TokenManagerService.reloadIfEmpty_cooldowns env st) as Hc.
  destruct (TokenManagerService.tokens _); [done|].
  destruct (TokenManagerService.validTokens _ _ _ _); [done|].
  destruct (TokenManagerService.lockedLocal _) as [chosen|].
  - destruct (TokenManagerService.finish_result env
                (TokenManagerService.reloadIfEmpty env st)
                (TokenManagerService.currentIndex
                   (TokenManagerService.reloadIfEmpty env st)) chosen)
      as (_ & _ & ->). done.
  - destruct (TokenManagerService.roundRobin _ _) as [chosen|]; [|done].
    destruct (TokenManagerService.finish_result env
                (TokenManagerService.reloadIfEmpty env st)
                (S (TokenManagerService.currentIndex
                      (TokenManagerService.reloadIfEmpty env st))) chosen)
      as (_ & _ & ->). done.
Qed.

Lemma retryLoop_length h model oracle remaining i lastError st :
  (length (retryLoop h model oracle remaining i lastError st).2 <= remaining)%nat.
Proof.
  revert i lastError st.
  induction remaining as [|remaining IH]; intros i lastError st; simpl; [done|].
  destruct (TokenManagerService.getNextToken _ _ _).1 as [token|]; simpl; [|lia].
  destruct (startsWith _ _); simpl; [lia|].
  destruct (truthy _); simpl; [lia|].
  destruct (upstreamReply _); simpl; [lia|].
  specialize (IH (S i) (Some message)
    (if shouldRetry message
     then TokenManagerService.markAsRateLimited (markClock (oracle i))
            (SelectedAccount.email token)
            (TokenManagerService.getNextToken (tokenEnv (oracle i))
               (Some model) st).2
     else (TokenManagerService.getNextToken (tokenEnv (oracle i))
             (Some model) st).2)).
  lia.
Qed.

(** An iteration is logged whenever there is one left to run, and it starts
    from the state the loop is in. *)
Lemma retryLoop_head h model oracle remaining i lastError st :
  exists it,
    (retryLoop h model oracle (S remaining) i lastError st).2 !! 0%nat = Some it /\
    it_before it = st.
Proof.
  simpl.
  destruct (TokenManagerService.getNextToken _ _ _).1 as [token|]; simpl; [|eauto].
  destruct (startsWith _ _); simpl; [eauto|].
  destruct (truthy _); simpl; [eauto|].
  destruct (upstreamReply _); simpl; eauto.
Qed.

(** What follows a failed dispatch, at any position of the loop. *)
Lemma retryLoop_failed_dispatch h model oracle remaining i lastError st k it
    email message :
  (retryLoop h model oracle remaining i lastError st).2 !! k = Some it ->
  it_step it = StepDispatched email (Failed message) ->
  TokenManagerService.cooldowns (it_after it)
    = (if shouldRetry message
       then <[email := markClock (oracle (i + k)%nat) + 5 * 60 * 1000]>
              (TokenManagerService.cooldowns (it_before it))
       else TokenManagerService.cooldowns (it_before it)) /\
  ((S k < remaining)%nat ->
     exists next,
       (retryLoop h model oracle remaining i lastError st).2 !! S k = Some next /\
       it_before next = it_after it) /\
  (S k = remaining ->
     (retryLoop h model oracle remaining i lastError st).1 = Thrown message).
Proof.
  revert i lastError st k.
  induction remaining as [|remaining IH]; intros i lastError st k Hk Hstep;
    simpl in Hk; [done|].
  simpl.
  pose proof (getNextToken_cooldowns (tokenEnv (oracle i)) (Some model) st) as Hcd.
  destruct (TokenManagerService.getNextToken _ _ _) as [[token|] st1];
    simpl in *.
  2:{ destruct k; simplify_eq/=. }
  destruct (startsWith _ _); simpl in *.
  { destruct k; simplify_eq/=. }
  destruct (truthy _); simpl in *.
  { destruct k; simplify_eq/=. }
  destruct (upstreamReply (oracle i)) as [body|msg0] eqn:Hup; simpl in *.
  { destruct k; simplify_eq/=. }
  destruct k as [|k]; simpl in *.
  - injection Hk as <-. simpl in Hstep. injection Hstep as <- <-.
    simpl. rewrite Nat.add_0_r. split_and!.
    + destruct (shouldRetry msg0); simpl; by rewrite Hcd.
    + intros Hlt. destruct remaining as [|remaining]; [lia|].
      apply retryLoop_head.
    + intros Heq. assert (remaining = 0%nat) as -> by lia. done.
  - destruct (IH _ _ _ _ Hk Hstep) as (Hc & Hnext & Hlast).
    replace (i + S k)%nat with (S i + k)%nat by lia.
    split_and!; [done| |].
    + intros Hlt. apply Hnext. lia.
    + intros Heq. apply Hlast. lia.
Qed.

(** *** Substring tests *)

Lemma prefix_app_iff (p s : string) :
  String.prefix p s = true <-> exists q, s = p ++ q.
Proof.
  revert s. induction p as [|c p IH]; intros s; simpl.
  - destruct s; split; eauto.
  - destruct s as [|c' s]; [split; [done|by intros [q [=]]]|].
    simpl. destruct (Ascii.ascii_dec c c') as [->|Hne].
    + rewrite IH. split; intros [q Hq]; exists q.
      * by rewrite Hq.
      * simpl in Hq. by injection Hq.
    + split; [done|]. intros [q Hq]. simpl in Hq. by injection Hq.
Qed.

Lemma includes_iff (needle s : string) :
  includes needle s = true <-> exists p q, s = p ++ needle ++ q.
Proof.
  induction s as [|c s IH]; cbn [includes].
  - rewrite orb_false_r, prefix_app_iff. split.
    + intros [q Hq]. by exists "", q.
    + intros (p & q & Hq). destruct p; [by exists q|done].
  - rewrite orb_true_iff, prefix_app_iff, IH. split.
    + intros [[q Hq]|(p & q & ->)]; [by exists "", q|].
      by exists (String c p), q.
    + intros (p & q & Hq). destruct p as [|c' p]; [left; by exists q|].
      right. exists p, q. simpl in Hq. by injection Hq.
Qed.

Lemma lowerAscii_idemp c : lowerAscii (lowerAscii c) = lowerAscii c.
Proof. by destruct c as [[] [] [] [] [] [] [] []]. Qed.

Lemma toLowerCase_idemp s : toLowerCase (toLowerCase s) = toLowerCase s.
Proof. induction s as [|c s IH]; simpl; [done|]. by rewrite lowerAscii_idemp, IH. Qed.

Lemma toLowerCase_app a b : toLowerCase (a ++ b) = toLowerCase a ++ toLowerCase b.
Proof. induction a as [|c a IH]; simpl; [done|]. by rewrite IH. Qed.

(** *** Case-insensitive search ([shouldRetry]) *)

(** [v] spells the lower-case keyword [kw] in some mix of upper and lower
    case: character by character, [v] has the keyword's character or, where
    that is a letter [a]-[z], its capital (32 code points below). Written
    without [toLowerCase]. *)
Fixpoint spells (kw v : string) : Prop :=
  match kw, v with
  | EmptyString, EmptyString => True
  | String a kw', String b v' =>
      (b = a \/
       ((97 <= nat_of_ascii a)%nat /\ (nat_of_ascii a <= 122)%nat /\
        (nat_of_ascii b + 32)%nat = nat_of_ascii a)) /\
      spells kw' v'
  | _, _ => False
  end.

Lemma lowerAscii_eq a b :
  lowerAscii a = a ->
  lowerAscii b = a <->
  b = a \/ ((97 <= nat_of_ascii a)%nat /\ (nat_of_ascii a <= 122)%nat /\
            (nat_of_ascii b + 32)%nat = nat_of_ascii a).
Proof.
  intros Ha. unfold lowerAscii in *. cbv zeta in *.
  destruct ((65 <=? nat_of_ascii b)%nat && (nat_of_ascii b <=? 90)%nat) eqn:Hb.
  - apply andb_true_iff in Hb as [H1 H2].
    apply Nat.leb_le in H1, H2. split.
    + intros <-. right. rewrite nat_ascii_embedding by lia. lia.
    + intros [->|(_ & _ & Heq)].
      * assert ((65 <=? nat_of_ascii a)%nat && (nat_of_ascii a <=? 90)%nat = true)
          as Hup by (apply andb_true_iff; split; by apply Nat.leb_le).
        rewrite Hup in Ha. exact Ha.
      * rewrite Heq. apply ascii_nat_embedding.
  - split; [by left|]. intros [->|(H1 & H2 & Heq)]; [done|].
    apply andb_false_iff in Hb as [Hb|Hb]; apply Nat.leb_gt in Hb; lia.
Qed.

Lemma toLowerCase_spells kw : forall v,
  toLowerCase kw = kw -> toLowerCase v = kw <-> spells kw v.
Proof.
  induction kw as [|a kw IH]; intros v Hkw.
  - destruct v; simpl; split; done.
  - simpl in Hkw. injection Hkw as Ha Hkw.
    destruct v as [|b v]; simpl; [split; done|].
    rewrite <- (IH v Hkw), <- (lowerAscii_eq a b Ha). split.
    + by intros [= -> ->].
    + by intros [-> ->].
Qed.

Lemma toLowerCase_split a : forall s b,
  toLowerCase s = a ++ b ->
  exists s1 s2, s = s1 ++ s2 /\ toLowerCase s1 = a /\ toLowerCase s2 = b.
Proof.
  induction a as [|c a IH]; intros s b Hs.
  - by exists "", s.
  - destruct s as [|c' s]; simpl in Hs; [done|].
    injection Hs as Hc Hs. destruct (IH _ _ Hs) as (s1 & s2 & -> & H1 & H2).
    exists (String c' s1), s2. simpl. by rewrite Hc, H1.
Qed.

Definition retryKeywords : list string :=
  ["429"; "quota"; "limit"; "resource_exhausted"].

Lemma shouldRetry_includes msg :
  shouldRetry msg = true <->
  exists kw p q, kw ∈ retryKeywords /\ toLowerCase msg = p ++ kw ++ q.
Proof.
  unfold shouldRetry, retryKeywords. cbv zeta.
  rewrite !orb_true_iff, !includes_iff. split.
  - intros [[[(p & q & H)|(p & q & H)]|(p & q & H)]|(p & q & H)];
      eexists _, p, q; (split; [|exact H]); set_solver.
  - intros (kw & p & q & Hkw & H).
    repeat (apply elem_of_cons in Hkw as [->|Hkw]); eauto 10.
    by apply not_elem_of_nil in Hkw.
Qed.

Lemma retryKeywords_lower kw : kw ∈ retryKeywords -> toLowerCase kw = kw.
Proof.
  unfold retryKeywords. intros Hkw.
  repeat (apply elem_of_cons in Hkw as [->|Hkw]); try reflexivity.
  by apply not_elem_of_nil in Hkw.
Qed.

(** *** Last user message ([extractLastUserMessage]) *)

(** A part of an array content: its [type] and its [text]. *)
Record ContentPart : Type := mkPart {
  part_type : string;
  part_text : string
}.

(** [content] of a chat message: a string or an array of parts. *)
Inductive Content : Type :=
| ContentString (text : string)
| ContentParts (parts : list ContentPart).

Record Message : Type := mkMessage {
  role : string;
  content : Content
}.

(** [xs.join(sep)] *)
Fixpoint join (sep : string) (xs : list string) : string :=
  match xs with
  | [] => ""
  | [x] => x
  | x :: xs' => x ++ sep ++ join sep xs'
  end.

(** The text taken from a message: the string itself, or the texts of the
    parts of type [text] joined by a line feed. *)
Definition contentText (c : Content) : string :=
  match c with
  | ContentString text => text
  | ContentParts parts =>
      join (String (ascii_of_nat 10) "")
           (List.map part_text
              (List.filter (fun c => String.eqb (part_type c) "text") parts))
  end.

Definition isUser (m : Message) : bool := String.eqb (role m) "user".

(** [extractLastUserMessage(messages)]: scan from the last message down *)
Definition extractLastUserMessage (messages : list Message) : string :=
  match List.find isUser (rev messages) with
  | Some m => contentText (content m)
  | None => ""
  end.

(** *** Line buffering of the stream processors
    ([processAnthropicInternalStream], [processOpenAIStream]) *)

(** [s.split('\n')] *)
Fixpoint splitLines (s : string) : list string :=
  match s with
  | EmptyString => [""]
  | String c s' =>
      if Ascii.eqb c (ascii_of_nat 10) then "" :: splitLines s'
      else match splitLines s' with
           | h :: t => String c h :: t
           | [] => [String c ""]
           end
  end.

(** The payload a line hands to [JSON.parse], if any: the line is trimmed,
    must start with [data: ], and [[DONE]] is skipped. *)
Definition linePayload (line : string) : option string :=
  let trimmed := trim line in
  if startsWith "data: " trimmed then
    let dataStr := String.substring 6 (String.length trimmed - 6) trimmed in
    if String.eqb dataStr "[DONE]" then None else Some dataStr
  else None.

(** One ['data'] event: [buffer += chunk; lines = buffer.split('\n');
    buffer = lines.pop() || ''], then the loop over [lines]. Returns the
    payloads parsed, in order, and the new buffer. *)
Definition onData (buffer chunk : string) : list string * string :=
  let lines := splitLines (buffer ++ chunk) in
  (omap linePayload (removelast lines), List.last lines "").

(** A whole stream of chunks. *)
Fixpoint onDataAll (buffer : string) (chunks : list string)
  : list string * string :=
  match chunks with
  | [] => ([], buffer)
  | chunk :: chunks' =>
      let r := onData buffer chunk in
      let rest := onDataAll r.2 chunks' in
      ((r.1 ++ rest.1)%list, rest.2)
  end.

Lemma splitLines_nonempty s : splitLines s <> [].
Proof.
  destruct s as [|c s]; simpl; [done|].
  destruct (Ascii.eqb c _); [done|]. by destruct (splitLines s).
Qed.

(** Splitting a concatenation: the last, unfinished line of the first part
    is continued by the second part. *)
Lemma splitLines_app a b :
  splitLines (a ++ b)
  = (removelast (splitLines a)
       ++ splitLines (List.last (splitLines a) "" ++ b))%list.
Proof.
  induction a as [|c a IH]; simpl; [done|].
  destruct (Ascii.eqb c (ascii_of_nat 10)) eqn:Hc.
  - pose proof (splitLines_nonempty a) as Hne.
    destruct (splitLines a) as [|h t] eqn:Ha; [done|].
    rewrite IH. simpl. done.
  - pose proof (splitLines_nonempty a) as Hne.
    destruct (splitLines a) as [|h t] eqn:Ha; [done|].
    rewrite IH. destruct t as [|h' t]; simpl.
    + rewrite Hc. by destruct (splitLines (h ++ b)) eqn:Hb.
    + done.
Qed.

(** The unfinished line kept in the buffer holds no line feed. *)
Lemma splitLines_last s :
  splitLines (List.last (splitLines s) "") = [List.last (splitLines s) ""].
Proof.
  induction s as [|c s IH]; simpl; [done|].
  pose proof (splitLines_nonempty s) as Hne.
  destruct (Ascii.eqb c (ascii_of_nat 10)) eqn:Hc.
  - destruct (splitLines s) as [|h t] eqn:Hs; [done|]. exact IH.
  - destruct (splitLines s) as [|h t] eqn:Hs; [done|].
    destruct t as [|h' t]; simpl in *.
    + rewrite Hc. by rewrite IH.
    + exact IH.
Qed.

Lemma last_app_nonempty {A} (l1 l2 : list A) d :
  l2 <> [] -> List.last (l1 ++ l2) d = List.last l2 d.
Proof.
  intros Hne. induction l1 as [|x l1 IH]; simpl; [done|].
  rewrite IH. destruct (l1 ++ l2)%list eqn:Happ; [|done].
  apply app_eq_nil in Happ as [_ ?]. done.
Qed.

Lemma append_empty_r (a : string) : a ++ "" = a.
Proof.
  induction a as [|c a IH]; [done|].
  change (String c (a ++ "") = String c a). by rewrite IH.
Qed.

Lemma append_assoc (a b c : string) : a ++ b ++ c = (a ++ b) ++ c.
Proof.
  induction a as [|x a IH]; [done|].
  change (String x (a ++ b ++ c) = String x ((a ++ b) ++ c)). by rewrite IH.
Qed.

Lemma onDataAll_from buffer chunks :
  splitLines buffer = [buffer] ->
  onDataAll buffer chunks
  = (omap linePayload
       (removelast (splitLines (buffer ++ foldr String.append "" chunks))),
     List.last (splitLines (buffer ++ foldr String.append "" chunks)) "").
Proof.
  revert buffer. induction chunks as [|chunk chunks IH]; intros buffer Hb.
  - simpl. by rewrite append_empty_r, Hb.
  - cbn [onDataAll foldr]. unfold onData. cbn [fst snd].
    rewrite (IH _ (splitLines_last (buffer ++ chunk))). cbn [fst snd].
    rewrite append_assoc, (splitLines_app (buffer ++ chunk)).
    rewrite removelast_app by apply splitLines_nonempty.
    rewrite last_app_nonempty by apply splitLines_nonempty.
    by rewrite omap_app.
Qed.

Lemma find_app_none {A} (f : A -> bool) (l1 l2 : list A) :
  forallb (fun x => negb (f x)) l1 = true ->
  List.find f (l1 ++ l2) = List.find f l2.
Proof.
  induction l1 as [|x l1 IH]; simpl; [done|].
  intros [Hx Hl]%andb_true_iff. apply negb_true_iff in Hx. rewrite Hx. auto.
Qed.

Lemma extractLastUserMessage_app pre m post :
  isUser m = true ->
  forallb (fun x => negb (isUser x)) post = true ->
  extractLastUserMessage (pre ++ m :: post) = contentText (content m).
Proof.
  intros Hm Hpost. unfold extractLastUserMessage.
  rewrite rev_app_distr. simpl. rewrite <- app_assoc. simpl.
  rewrite find_app_none.
  - simpl. by rewrite Hm.
  - rewrite forallb_forall in *. intros x Hx. apply Hpost.
    by apply in_rev.
Qed.

(** What the handler ends with after a step that is not a failed
    dispatch. *)
Definition stepResult (model : string) (step : Step) : Result :=
  match step with
  | StepNoAccount => Thrown ("No available accounts satisfy model: " ++ model)
  | StepLocal _ reply => replyResult reply
  | StepCacheHit _ cached => Returned cached
  | StepDispatched _ reply => replyResult reply
  end.

Definition isFailedDispatch (step : Step) : bool :=
  match step with
  | StepDispatched _ (Failed _) => true
  | _ => false
  end.

Lemma retryLoop_final_step h model oracle remaining i lastError st k it :
  (retryLoop h model oracle remaining i lastError st).2 !! k = Some it ->
  isFailedDispatch (it_step it) = false ->
  (retryLoop h model oracle remaining i lastError st).2 !! S k = None /\
  TokenManagerService.cooldowns (it_after it)
    = TokenManagerService.cooldowns (it_before it) /\
  (retryLoop h model oracle remaining i lastError st).1
    = stepResult model (it_step it).
Proof.
  revert i lastError st k.
  induction remaining as [|remaining IH]; intros i lastError st k Hk Hstep;
    simpl in Hk; [done|].
  simpl.
  pose proof (getNextToken_cooldowns (tokenEnv (oracle i)) (Some model) st) as Hcd.
  destruct (TokenManagerService.getNextToken _ _ _) as [[token|] st1];
    simpl in *.
  2:{ destruct k; simplify_eq/=. done. }
  destruct (startsWith _ _); simpl in *.
  { destruct k; simplify_eq/=. done. }
  destruct (truthy _); simpl in *.
  { destruct k; simplify_eq/=. done. }
  destruct (upstreamReply (oracle i)) as [body|msg0] eqn:Hup; simpl in *.
  { destruct k; simplify_eq/=. done. }
  destruct k as [|k]; simpl in *.
  - injection Hk as <-. simpl in Hstep. done.
  - by apply IH.
Qed.

End ProxyService.

(** C4 (as amended). Retry loop of both chat handlers. A request dispatches
    upstream at most three times. After a dispatch that fails with message
    [m], whether or not [m] matches the rate-limit pattern: the account's
    email is put in cooldown for five minutes exactly when [shouldRetry m]
    holds (the cooldown map is otherwise left alone); if fewer than three
    attempts were made the loop goes on to the next attempt from that state;
    and after the third attempt [m] is the error the handler throws. *)
Theorem retry_loop_three_attempts :
  forall (h : ProxyService.Handler) (model : string)
         (oracle : nat -> ProxyService.Attempt)
         (st : TokenManagerService.State),
    (ProxyService.dispatchCount (ProxyService.handle h model oracle st).2 <= 3)%nat /\
    forall (k : nat) (it : ProxyService.Iteration) (email message : string),
      (ProxyService.handle h model oracle st).2 !! k = Some it ->
      ProxyService.it_step it
        = ProxyService.StepDispatched email (ProxyService.Failed message) ->
      TokenManagerService.cooldowns (ProxyService.it_after it)
        = (if ProxyService.shouldRetry message
           then <[email := ProxyService.markClock (oracle k) + 5 * 60 * 1000]>
                  (TokenManagerService.cooldowns (ProxyService.it_before it))
           else TokenManagerService.cooldowns (ProxyService.it_before it)) /\
      ((k < 2)%nat ->
         exists next,
           (ProxyService.handle h model oracle st).2 !! S k = Some next /\
           ProxyService.it_before next = ProxyService.it_after it) /\
      (k = 2%nat ->
         (ProxyService.handle h model oracle st).1 = ProxyService.Thrown message).
Proof.
  intros h model oracle st. rewrite ProxyService.handle_retryLoop. split.
  - unfold ProxyService.dispatchCount.
    pose proof (ProxyService.retryLoop_length h model oracle
                  ProxyService.maxRetries 0 None st) as Hlen.
    pose proof (List.filter_length_le ProxyService.isDispatch
                  (ProxyService.retryLoop h model oracle
                     ProxyService.maxRetries 0 None st).2) as Hf.
    unfold ProxyService.maxRetries in *. lia.
  - intros k it email message Hk Hstep.
    destruct (ProxyService.retryLoop_failed_dispatch h model oracle
                ProxyService.maxRetries 0 None st k it email message Hk Hstep)
      as (Hc & Hnext & Hlast).
    split_and!; [done| |].
    + intros Hlt. apply Hnext. unfold ProxyService.maxRetries. lia.
    + intros ->. by apply Hlast.
Qed.

(** One cloud account; every attempt is a cache miss and the upstream
    answers as the function [reply] says. *)
Definition singleAccountState : TokenManagerService.State :=
  TokenManagerService.mkState 0 [] ∅
    (CloudAccountRepo.addAccount
       (cloudAccount "A" 3 1700009999 (Some "p-a") None) ∅).

Definition upstreamOracle (reply : nat -> ProxyService.Reply) (i : nat)
  : ProxyService.Attempt :=
  ProxyService.mkAttempt (quietEnv (1700000000000 + Z.of_nat i * 1000))
    (ProxyService.Failed "unused") None (reply i)
    (1700000000000 + Z.of_nat i * 1000 + 500).

Lemma retry_loop_three_attempts_witness :
  exists it,
    ((ProxyService.handle ProxyService.Anthropic "claude-sonnet-4"
        (upstreamOracle (fun _ => ProxyService.Failed "HTTP 429 Too Many Requests"))
        singleAccountState).2 !! 0%nat = Some it /\
     ProxyService.it_step it
       = ProxyService.StepDispatched "A@example.com"
           (ProxyService.Failed "HTTP 429 Too Many Requests")) /\
    TokenManagerService.cooldowns (ProxyService.it_after it) !! "A@example.com"
      = Some 1700000300500.
Proof.
  destruct (retry_loop_three_attempts ProxyService.Anthropic "claude-sonnet-4"
              (upstreamOracle (fun _ => ProxyService.Failed "HTTP 429 Too Many Requests"))
              singleAccountState) as [_ Hstep].
  assert (Hhead : exists it,
    (ProxyService.handle ProxyService.Anthropic "claude-sonnet-4"
       (upstreamOracle (fun _ => ProxyService.Failed "HTTP 429 Too Many Requests"))
       singleAccountState).2 !! 0%nat = Some it /\
    ProxyService.it_step it
      = ProxyService.StepDispatched "A@example.com"
          (ProxyService.Failed "HTTP 429 Too Many Requests")).
  { vm_compute. eexists. split; reflexivity. }
  destruct Hhead as (it & Hk & Hit). exists it. split; [done|].
  destruct (Hstep 0%nat it _ _ Hk Hit) as (Hc & _ & _).
  rewrite Hc. vm_compute ProxyService.shouldRetry. cbv iota.
  rewrite lookup_insert_eq. reflexivity.
Defined.

(** Scenario S3 of the specification: the only account answers 429, is put
    in cooldown, and the second attempt finds no account. *)
Example s3_rate_limited_single_account :
  (ProxyService.handle ProxyService.OpenAI "gpt-4"
     (upstreamOracle (fun _ => ProxyService.Failed "HTTP 429 Too Many Requests"))
     singleAccountState).1
  = ProxyService.Thrown "No available accounts satisfy model: gpt-4".
Proof. vm_compute. reflexivity. Qed.

(** C4, the claim as stated fails for an error outside the pattern: the
    first dispatch fails with a message that [shouldRetry] rejects, and the
    loop still makes a second attempt, whose reply the handler returns; the
    error is neither final nor surfaced. *)
Lemma non_matching_error_is_retried_counterexample :
  ProxyService.shouldRetry "socket hang up" = false /\
  let run := ProxyService.handle ProxyService.OpenAI "gpt-4"
               (upstreamOracle (fun i => match i with
                                         | O => ProxyService.Failed "socket hang up"
                                         | _ => ProxyService.Replied "hello"
                                         end))
               singleAccountState in
  run.1 = ProxyService.Returned "hello" /\
  ProxyService.dispatchCount run.2 = 2%nat.
Proof. vm_compute. done. Qed.

(** ** Auto-switcher ([AutoSwitchService]) *)

(** The head of a stably sorted list is not strictly preceded by any
    element, when [before] is a strict weak order. *)
Section SortHead.
Context {A : Type} (before : A -> A -> bool).
Hypothesis before_irrefl : forall x, before x x = false.
Hypothesis before_asym : forall x y, before x y = true -> before y x = false.
Hypothesis before_negtrans :
  forall x y z, before x y = false -> before y z = false -> before x z = false.

Lemma head_insertSorted x l h :
  head (insertSorted before x l) = Some h ->
  (h = x /\ forall y, head l = Some y -> before y x = false) \/
  (head l = Some h /\ before h x = true).
Proof.
  destruct l as [|y l]; simpl.
  - intros [= <-]. left. split; [done|]. intros y [=].
  - destruct (before y x) eqn:Hyx; simpl; intros [= <-].
    + by right.
    + left. split; [done|]. by intros ? [= <-].
Qed.

Lemma head_sortBy l h :
  head (sortBy before l) = Some h ->
  h ∈ l /\ forall y, y ∈ l -> before y h = false.
Proof.
  revert h. induction l as [|x l IH]; intros h; simpl; [done|].
  intros Hh. apply head_insertSorted in Hh as [[-> Hx]|[Hh Hhx]].
  - split; [apply list_elem_of_here|].
    intros y Hy. apply elem_of_cons in Hy as [->|Hy]; [done|].
    destruct (head (sortBy before l)) as [h'|] eqn:Hh'.
    + destruct (IH h' eq_refl) as [_ Hmax].
      eapply before_negtrans; [by apply Hmax|by apply Hx].
    + apply head_None in Hh'.
      apply (elem_of_sortBy before) in Hy. rewrite Hh' in Hy.
      by apply not_elem_of_nil in Hy.
  - destruct (IH h Hh) as [Hin Hmax]. split; [by apply list_elem_of_further|].
    intros y Hy. apply elem_of_cons in Hy as [->|Hy]; [|by apply Hmax].
    by apply before_asym.
Qed.
End SortHead.

Module AutoSwitchService.

Local Open Scope Q_scope.

Definition HYSTERESIS_THRESHOLD : Q := 5.

(** [a < b] on scores, as a boolean *)
Definition Qlt_bool (a b : Q) : bool := negb (Qle_bool b a).

(** [models.reduce((acc, m) => acc + m.percentage, 0)] *)
Definition sumPercentage (models : list (string * ModelQuota.t)) : Z :=
  foldl (fun acc m => (acc + ModelQuota.percentage m.2)%Z) 0%Z models.

Definition isFailed (s : AccountStatus) : bool :=
  match s with
  | status_rate_limited | status_error => true
  | _ => false
  end.

(** [calculateHealthScore]; numbers are exact rationals. *)
Definition calculateHealthScore (account : CloudAccount.t) : Q :=
  match CloudAccount.quota account with
  | None => 0
  | Some models =>
      if isFailed (CloudAccount.status account) then 0
      else
        match models with
        | [] => 0
        | _ =>
            let avgQuota :=
              inject_Z (sumPercentage models) / inject_Z (Z.of_nat (length models)) in
            let score := (avgQuota / 100) * 60 in
            let score :=
              if AccountStatus_eqb (CloudAccount.status account) status_active
              then score + 40 else score in
            let score :=
              if AccountStatus_eqb (CloudAccount.status account) status_refreshing
              then score + 20 else score in
            Qmin 100 (Qmax 0 score)
        end
  end.

(** [findBestAccount(currentAccountId, currentScore)] *)
Definition findBestAccount (currentAccountId : string) (currentScore : Q)
    (tbl : gmap string CloudAccount.t) : option CloudAccount.t :=
  let accounts := CloudAccountRepo.getAccounts tbl in
  let eligible :=
    List.filter
      (fun acc => negb (String.eqb (CloudAccount.id acc) currentAccountId)
                  && AccountStatus_eqb (CloudAccount.status acc) status_active)
      accounts in
  let scored := List.map (fun acc => (acc, calculateHealthScore acc)) eligible in
  let above :=
    List.filter (fun c => Qlt_bool (currentScore + HYSTERESIS_THRESHOLD) c.2)
                scored in
  let candidates := sortBy (fun a b => Qlt_bool b.2 a.2) above in
  match candidates with
  | c :: _ => Some c.1
  | [] => None
  end.

(** [currentScore < 10 || status === 'rate_limited' || status === 'error'] *)
Definition isCritical (account : CloudAccount.t) : bool :=
  Qlt_bool (calculateHealthScore account) 10
  || isFailed (CloudAccount.status account).

(** Modelled from the spec: [switchCloudAccount] of [src/ipc/cloud/handler.ts]
    is not among the sources; the specification has the auto-switcher call
    [setActive(candidate)] on the store. *)
Definition switchCloudAccount (accountId : string)
    (tbl : gmap string CloudAccount.t) : gmap string CloudAccount.t :=
  CloudAccountRepo.setActive accountId tbl.

(** The account [checkAndSwitchIfNeeded] decides to switch to, if any. *)
Definition nextAccount (settings : gmap string bool)
    (tbl : gmap string CloudAccount.t) : option CloudAccount.t :=
  if CloudAccountRepo.getSetting "auto_switch_enabled" false settings then
    match List.find CloudAccount.is_active (CloudAccountRepo.getAccounts tbl) with
    | None => None
    | Some currentAccount =>
        if isCritical currentAccount then
          findBestAccount (CloudAccount.id currentAccount)
                          (calculateHealthScore currentAccount) tbl
        else None
    end
  else None.

(** [checkAndSwitchIfNeeded]: the boolean it returns and the store after. *)
Definition checkAndSwitchIfNeeded (settings : gmap string bool)
    (tbl : gmap string CloudAccount.t) : bool * gmap string CloudAccount.t :=
  match nextAccount settings tbl with
  | Some next => (true, switchCloudAccount (CloudAccount.id next) tbl)
  | None => (false, tbl)
  end.

Lemma Qlt_bool_iff a b : Qlt_bool a b = true <-> a < b.
Proof.
  unfold Qlt_bool. rewrite negb_true_iff. split.
  - intros Hle. apply Qnot_le_lt. intros Hba.
    apply Qle_bool_iff in Hba. congruence.
  - intros Hlt. destruct (Qle_bool b a) eqn:Hba; [|done].
    apply Qle_bool_iff in Hba. exfalso. by apply (Qlt_not_le a b).
Qed.

Lemma Qlt_bool_false_iff a b : Qlt_bool a b = false <-> b <= a.
Proof.
  unfold Qlt_bool. rewrite negb_false_iff. apply Qle_bool_iff.
Qed.

(** What [findBestAccount] returns is an eligible account above the
    hysteresis threshold with the highest score among the eligible ones. *)
Lemma findBestAccount_Some cur score tbl next :
  findBestAccount cur score tbl = Some next ->
  next ∈ CloudAccountRepo.getAccounts tbl /\
  CloudAccount.id next <> cur /\
  CloudAccount.status next = status_active /\
  score + HYSTERESIS_THRESHOLD < calculateHealthScore next /\
  forall other,
    other ∈ CloudAccountRepo.getAccounts tbl ->
    CloudAccount.id other <> cur ->
    CloudAccount.status other = status_active ->
    calculateHealthScore other <= calculateHealthScore next.
Proof.
  unfold findBestAccount.
  set (eligible := List.filter _ (CloudAccountRepo.getAccounts tbl)).
  set (above := List.filter _ (List.map _ eligible)).
  destruct (sortBy _ above) as [|c cs] eqn:Hs; [done|]. intros [= <-].
  assert (Hhead : head (sortBy (fun a b : CloudAccount.t * Q => Qlt_bool b.2 a.2) above)
                  = Some c) by by rewrite Hs.
  apply head_sortBy in Hhead as [Hin Hmax].
  2:{ intros x. apply Qlt_bool_false_iff. apply Qle_refl. }
  2:{ intros x y Hxy. apply Qlt_bool_iff in Hxy. apply Qlt_bool_false_iff.
      by apply Qlt_le_weak. }
  2:{ intros x y z Hxy Hyz. apply Qlt_bool_false_iff in Hxy, Hyz.
      apply Qlt_bool_false_iff. by eapply Qle_trans. }
  assert (Habove : forall p, p ∈ above <->
            (p.1 ∈ CloudAccountRepo.getAccounts tbl /\
             CloudAccount.id p.1 <> cur /\
             CloudAccount.status p.1 = status_active /\
             p.2 = calculateHealthScore p.1 /\
             score + HYSTERESIS_THRESHOLD < p.2)).
  { intros p. unfold above, eligible.
    rewrite !list_elem_of_In, List.filter_In, List.in_map_iff, Qlt_bool_iff.
    split.
    - intros [(acc & <- & Hacc) Hlt]. apply List.filter_In in Hacc as [Hacc Hf].
      apply andb_true_iff in Hf as [Hid Hst]. simpl in *.
      apply negb_true_iff, String.eqb_neq in Hid.
      split_and!; [done|done| |done|done].
      by destruct (CloudAccount.status acc).
    - intros (Hacc & Hid & Hst & Hsc & Hlt). split; [|done].
      exists p.1. split; [destruct p; simpl in *; congruence|].
      apply List.filter_In. split; [done|].
      apply andb_true_iff. split.
      + by apply negb_true_iff, String.eqb_neq.
      + by rewrite Hst. }
  apply Habove in Hin as (Hacc & Hid & Hst & Hsc & Hlt).
  split_and!; [done|done|done|by rewrite <- Hsc|].
  intros other Ho Hoid Host.
  destruct (Qlt_le_dec (score + HYSTERESIS_THRESHOLD) (calculateHealthScore other))
    as [Hgt|Hle].
  - specialize (Hmax (other, calculateHealthScore other)).
    rewrite Habove in Hmax. specialize (Hmax ltac:(done)).
    apply Qlt_bool_false_iff in Hmax. simpl in Hmax. by rewrite <- Hsc.
  - rewrite <- Hsc. apply Qlt_le_weak. by eapply Qle_lt_trans.
Qed.

(** With at most one active row, every account other than the one
    [find(a => a.is_active)] returns is inactive. *)
Lemma other_account_inactive tbl cur other :
  (CloudAccountRepo.activeCount tbl <= 1)%nat ->
  List.find CloudAccount.is_active (CloudAccountRepo.getAccounts tbl) = Some cur ->
  other ∈ CloudAccountRepo.getAccounts tbl ->
  CloudAccount.id other <> CloudAccount.id cur ->
  CloudAccount.is_active other = false.
Proof.
  intros Hone Hcur Hother Hid.
  apply TokenManagerService.activeAccount_Some in Hcur as [Hact [i Hi]].
  apply CloudAccountRepo.elem_of_getAccounts in Hother as [j Hj].
  destruct (CloudAccount.is_active other) eqn:Ho; [|done]. exfalso.
  assert (Hne : i <> j) by (intros ->; congruence).
  unfold CloudAccountRepo.activeCount, CloudAccountRepo.activeRows in Hone.
  pose proof (TokenManagerService.size_two_keys
    (filter (fun kv => CloudAccount.is_active kv.2 = true) tbl) i j cur other Hne)
    as H2.
  rewrite !map_lookup_filter_Some in H2. specialize (H2 ltac:(done) ltac:(done)).
  lia.
Qed.

Lemma sumPercentage_from (lo acc : Z) (models : list (string * ModelQuota.t)) :
  Forall (fun m => (lo <= ModelQuota.percentage m.2)%Z) models ->
  (acc + lo * Z.of_nat (length models)
   <= foldl (fun acc m => (acc + ModelQuota.percentage m.2)%Z) acc models)%Z.
Proof.
  revert acc. induction models as [|m models IH]; intros acc Hall; simpl.
  - lia.
  - apply Forall_cons in Hall as [Hm Hall].
    specialize (IH (acc + ModelQuota.percentage m.2)%Z Hall). lia.
Qed.

(** The mean of percentages that are all at least [lo] is at least [lo]. *)
Lemma mean_lower_bound (lo : Z) (models : list (string * ModelQuota.t)) :
  models <> [] ->
  Forall (fun m => (lo <= ModelQuota.percentage m.2)%Z) models ->
  inject_Z lo
  <= inject_Z (sumPercentage models) / inject_Z (Z.of_nat (length models)).
Proof.
  intros Hne Hall.
  assert (Hlen : (0 < Z.of_nat (length models))%Z) by (destruct models; simpl; [done|lia]).
  apply Qle_shift_div_l.
  - replace 0 with (inject_Z 0) by done. by rewrite <- Zlt_Qlt.
  - rewrite <- inject_Z_mult. rewrite <- Zle_Qle.
    pose proof (sumPercentage_from lo 0 models Hall). unfold sumPercentage. lia.
Qed.

(** The score of an account of status [active] whose quota has entries,
    none below [lo >= 0] percent. *)
Lemma active_score_lower_bound (lo : Z) account models :
  CloudAccount.quota account = Some models ->
  models <> [] ->
  (0 <= lo)%Z ->
  Forall (fun m => (lo <= ModelQuota.percentage m.2)%Z) models ->
  CloudAccount.status account = status_active ->
  40 <= calculateHealthScore account.
Proof.
  intros Hq Hne Hlo Hall Hst. unfold calculateHealthScore. rewrite Hq, Hst. simpl.
  destruct models as [|m models]; [done|].
  pose proof (mean_lower_bound lo (m :: models) Hne Hall) as Hmean.
  set (avg := inject_Z (sumPercentage (m :: models))
              / inject_Z (Z.of_nat (length (m :: models)))) in *.
  assert (Havg : 0 <= avg).
  { eapply Qle_trans; [|exact Hmean].
    replace 0 with (inject_Z 0) by done. by rewrite <- Zle_Qle. }
  apply Q.min_glb; [done|].
  eapply Qle_trans; [|apply Q.le_max_r].
  rewrite <- (Qplus_0_l 40) at 1. apply Qplus_le_l.
  apply Qmult_le_0_compat; [|done].
  apply Qle_shift_div_l; [done|]. by rewrite Qmult_0_l.
Qed.

Lemma active_with_quota_not_critical account models :
  CloudAccount.quota account = Some models ->
  models <> [] ->
  Forall (fun m => (0 <= ModelQuota.percentage m.2)%Z) models ->
  CloudAccount.status account = status_active ->
  40 <= calculateHealthScore account /\ isCritical account = false.
Proof.
  intros Hq Hne Hall Hst.
  pose proof (active_score_lower_bound 0 account models
                Hq Hne ltac:(done) Hall Hst) as H40.
  split; [done|]. unfold isCritical. rewrite Hst. simpl.
  rewrite orb_false_r. apply Qlt_bool_false_iff.
  eapply Qle_trans; [|exact H40]. done.
Qed.

Lemma score_nonneg account : 0 <= calculateHealthScore account.
Proof.
  unfold calculateHealthScore.
  destruct (CloudAccount.quota account) as [[|m models]|]; [| |done].
  - by destruct (isFailed _).
  - destruct (isFailed _); [done|].
    apply Q.min_glb; [done|apply Q.le_max_l].
Qed.

(** A positive score needs a quota with entries. *)
Lemma positive_score_has_quota account :
  0 < calculateHealthScore account ->
  exists m models, CloudAccount.quota account = Some (m :: models).
Proof.
  unfold calculateHealthScore.
  destruct (CloudAccount.quota account) as [[|m models]|]; [| |done].
  - by destruct (isFailed _).
  - eauto.
Qed.

End AutoSwitchService.

(** C7. Hysteresis-guarded switching. When [checkAndSwitchIfNeeded] reports
    no switch the store is untouched. When it switches, the setting
    [auto_switch_enabled] is on, the active account is critical (score
    below 10, or status [rate_limited] or [error]), and the account switched
    to is another account (not active, the store having at most one active
    row) of status [active] whose score is strictly above
    the active account's score plus 5 and is the highest among such
    accounts. Hence no switch happens when every other [active]-status
    account scores at most the active score plus 5. *)
Theorem auto_switch_guarded :
  forall (settings : gmap string bool) (tbl : gmap string CloudAccount.t),
    ((AutoSwitchService.checkAndSwitchIfNeeded settings tbl).1 = false ->
     (AutoSwitchService.checkAndSwitchIfNeeded settings tbl).2 = tbl) /\
    ((AutoSwitchService.checkAndSwitchIfNeeded settings tbl).1 = true ->
     CloudAccountRepo.getSetting "auto_switch_enabled" false settings = true /\
     exists cur next,
       List.find CloudAccount.is_active (CloudAccountRepo.getAccounts tbl)
         = Some cur /\
       (AutoSwitchService.calculateHealthScore cur < 10 \/
        CloudAccount.status cur = status_rate_limited \/
        CloudAccount.status cur = status_error)%Q /\
       next ∈ CloudAccountRepo.getAccounts tbl /\
       CloudAccount.id next <> CloudAccount.id cur /\
       ((CloudAccountRepo.activeCount tbl <= 1)%nat ->
        CloudAccount.is_active next = false) /\
       CloudAccount.status next = status_active /\
       (AutoSwitchService.calculateHealthScore cur + 5
          < AutoSwitchService.calculateHealthScore next)%Q /\
       (forall other,
          other ∈ CloudAccountRepo.getAccounts tbl ->
          CloudAccount.id other <> CloudAccount.id cur ->
          CloudAccount.status other = status_active ->
          (AutoSwitchService.calculateHealthScore other
             <= AutoSwitchService.calculateHealthScore next)%Q) /\
       (AutoSwitchService.checkAndSwitchIfNeeded settings tbl).2
         = AutoSwitchService.switchCloudAccount (CloudAccount.id next) tbl) /\
    (forall cur,
       List.find CloudAccount.is_active (CloudAccountRepo.getAccounts tbl)
         = Some cur ->
       (forall candidate,
          candidate ∈ CloudAccountRepo.getAccounts tbl ->
          CloudAccount.id candidate <> CloudAccount.id cur ->
          CloudAccount.status candidate = status_active ->
          (AutoSwitchService.calculateHealthScore candidate
             <= AutoSwitchService.calculateHealthScore cur + 5)%Q) ->
       (AutoSwitchService.checkAndSwitchIfNeeded settings tbl).1 = false).
Proof.
  intros settings tbl.
  assert (Hsw : (AutoSwitchService.checkAndSwitchIfNeeded settings tbl).1 = true ->
    CloudAccountRepo.getSetting "auto_switch_enabled" false settings = true /\
    exists cur next,
      List.find CloudAccount.is_active (CloudAccountRepo.getAccounts tbl) = Some cur /\
      AutoSwitchService.isCritical cur = true /\
      AutoSwitchService.findBestAccount (CloudAccount.id cur)
        (AutoSwitchService.calculateHealthScore cur) tbl = Some next /\
      (AutoSwitchService.checkAndSwitchIfNeeded settings tbl).2
        = AutoSwitchService.switchCloudAccount (CloudAccount.id next) tbl).
  { unfold AutoSwitchService.checkAndSwitchIfNeeded, AutoSwitchService.nextAccount.
    destruct (CloudAccountRepo.getSetting _ _ _); [|done].
    destruct (List.find _ _) as [cur|]; [|done].
    destruct (AutoSwitchService.isCritical cur) eqn:Hcrit; [|done].
    destruct (AutoSwitchService.findBestAccount _ _ _) as [next|] eqn:Hbest; [|done].
    intros _. split; [done|]. by exists cur, next. }
  split_and!.
  - unfold AutoSwitchService.checkAndSwitchIfNeeded.
    by destruct (AutoSwitchService.nextAccount settings tbl).
  - intros Ht. destruct (Hsw Ht) as (Hen & cur & next & Hcur & Hcrit & Hbest & Hdb).
    split; [done|]. exists cur, next.
    apply AutoSwitchService.findBestAccount_Some in Hbest
      as (Hin & Hid & Hst & Hlt & Hmax).
    split_and!; try done.
    2:{ intros Hone.
        by apply (AutoSwitchService.other_account_inactive tbl cur next). }
    unfold AutoSwitchService.isCritical in Hcrit.
    apply orb_true_iff in Hcrit as [Hc|Hc].
    + left. by apply AutoSwitchService.Qlt_bool_iff.
    + right. destruct (CloudAccount.status cur); simpl in Hc; auto; done.
  - intros cur Hcur Hall.
    destruct (AutoSwitchService.checkAndSwitchIfNeeded settings tbl).1 eqn:Ht; [|done].
    destruct (Hsw eq_refl) as (_ & cur' & next & Hcur' & _ & Hbest & _).
    rewrite Hcur in Hcur'. injection Hcur' as <-.
    apply AutoSwitchService.findBestAccount_Some in Hbest
      as (Hin & Hid & Hst & Hlt & _).
    specialize (Hall next Hin Hid Hst).
    exfalso. apply (Qlt_not_le _ _ Hlt). exact Hall.
Qed.

Definition monitored (i : string) (st : AccountStatus) (act : bool)
    (q : option (list (string * ModelQuota.t))) : CloudAccount.t :=
  CloudAccount.mk i "google" (i ++ "@example.com")
    (Token.mk ("access-" ++ i) ("refresh-" ++ i) 3600 1700009999 (Some "p") None)
    q 1700000000 1700000000 st act None.

(** The active account A is rate limited; B is healthy. *)
Definition switchStore : gmap string CloudAccount.t :=
  CloudAccountRepo.addAccount
    (monitored "B" status_active false
       (Some [("gemini-2.5-pro", ModelQuota.mk 100 "");
              ("gemini-2.5-flash", ModelQuota.mk 50 "")]))
    (CloudAccountRepo.addAccount
       (monitored "A" status_rate_limited true
          (Some [("gemini-2.5-pro", ModelQuota.mk 80 "")])) ∅).

Lemma auto_switch_guarded_witness :
  (AutoSwitchService.checkAndSwitchIfNeeded {["auto_switch_enabled" := true]}
     switchStore).1 = true /\
  (CloudAccountRepo.getSetting "auto_switch_enabled" false
     {["auto_switch_enabled" := true]} = true /\
   exists cur next,
     List.find CloudAccount.is_active (CloudAccountRepo.getAccounts switchStore)
       = Some cur /\
     (AutoSwitchService.calculateHealthScore cur < 10 \/
      CloudAccount.status cur = status_rate_limited \/
      CloudAccount.status cur = status_error)%Q /\
     next ∈ CloudAccountRepo.getAccounts switchStore /\
     CloudAccount.id next <> CloudAccount.id cur /\
     ((CloudAccountRepo.activeCount switchStore <= 1)%nat ->
      CloudAccount.is_active next = false) /\
     CloudAccount.status next = status_active /\
     (AutoSwitchService.calculateHealthScore cur + 5
        < AutoSwitchService.calculateHealthScore next)%Q /\
     (forall other,
        other ∈ CloudAccountRepo.getAccounts switchStore ->
        CloudAccount.id other <> CloudAccount.id cur ->
        CloudAccount.status other = status_active ->
        (AutoSwitchService.calculateHealthScore other
           <= AutoSwitchService.calculateHealthScore next)%Q) /\
     (AutoSwitchService.checkAndSwitchIfNeeded {["auto_switch_enabled" := true]}
        switchStore).2
       = AutoSwitchService.switchCloudAccount (CloudAccount.id next) switchStore).
Proof.
  assert (Ht : (AutoSwitchService.checkAndSwitchIfNeeded
                  {["auto_switch_enabled" := true]} switchStore).1 = true)
    by (vm_compute; reflexivity).
  split; [exact Ht|].
  exact (proj1 (proj2 (auto_switch_guarded {["auto_switch_enabled" := true]}
                         switchStore)) Ht).
Defined.

(** Scenario S6 of the specification, second half: the monitor switches
    from the rate-limited A to B, and B alone is active afterwards. *)
Example s6_switch_to_healthy_account :
  let r := AutoSwitchService.checkAndSwitchIfNeeded
             {["auto_switch_enabled" := true]} switchStore in
  r.1 = true /\
  (CloudAccount.is_active <$> r.2 !! "A") = Some false /\
  (CloudAccount.is_active <$> r.2 !! "B") = Some true /\
  AutoSwitchService.checkAndSwitchIfNeeded ∅ switchStore = (false, switchStore).
Proof. vm_compute. done. Qed.

(** Health score following the words of the specification: 0 without
    quota or with status [rate_limited]/[error]; otherwise 0.6 times the
    mean percentage, plus the status bonus, clamped to [0,100]. *)
Definition meanPercentage (models : list (string * ModelQuota.t)) : Q :=
  inject_Z (AutoSwitchService.sumPercentage models)
  / inject_Z (Z.of_nat (length models)).

Definition statusBonus (s : AccountStatus) : Q :=
  match s with
  | status_active => 40
  | status_refreshing => 20
  | _ => 0
  end.

Definition clampScore (x : Q) : Q := Qmin 100 (Qmax 0 x).

Definition specHealthScore (account : CloudAccount.t) : Q :=
  match CloudAccount.quota account with
  | None => 0
  | Some models =>
      if AutoSwitchService.isFailed (CloudAccount.status account) then 0
      else clampScore ((meanPercentage models / 100) * 60
                       + statusBonus (CloudAccount.status account))
  end.

(** C8 (as amended). The health score is 0 when the quota is absent, when
    it has no model entry, or when the status is [rate_limited] or [error];
    otherwise it is (mean percentage / 100) * 60, plus 40 for status
    [active] and 20 for [refreshing], clamped to [0,100]. *)
Theorem health_score_formula :
  forall account : CloudAccount.t,
    (AutoSwitchService.calculateHealthScore account ==
     match CloudAccount.quota account with
     | None => 0
     | Some [] => 0
     | Some (_ :: _) => specHealthScore account
     end)%Q /\
    (0 <= AutoSwitchService.calculateHealthScore account <= 100)%Q.
Proof.
  intros account.
  assert (Hclamp : forall x, (0 <= Qmin 100 (Qmax 0 x) <= 100)%Q).
  { intros x. split; [|apply Q.le_min_l].
    apply Q.min_glb; [done|apply Q.le_max_l]. }
  unfold AutoSwitchService.calculateHealthScore, specHealthScore.
  destruct (CloudAccount.quota account) as [[|m models]|]; [| |done].
  - by destruct (AutoSwitchService.isFailed _).
  - destruct (CloudAccount.status account); simpl; split;
      try done; try apply Hclamp; unfold clampScore, meanPercentage, statusBonus.
Qed.

(** C8, the claim as stated fails for a quota without model entries: the
    code answers 0 for an [active]-status account, whereas the stated
    formula gives at least 40 whatever non-negative value is taken for the
    mean of no entries. *)
Lemma empty_quota_score_counterexample :
  (AutoSwitchService.calculateHealthScore
     (monitored "A" status_active true (Some [])) == 0)%Q /\
  (specHealthScore (monitored "A" status_active true (Some [])) == 40)%Q /\
  forall avg : Q, (0 <= avg)%Q ->
    ~ (clampScore ((avg / 100) * 60 + statusBonus status_active) == 0)%Q.
Proof.
  split_and!; [done|by vm_compute|].
  intros avg Havg Heq. unfold clampScore, statusBonus in Heq.
  assert (H40 : (40 <= (avg / 100) * 60 + 40)%Q).
  { rewrite <- (Qplus_0_l 40) at 1. apply Qplus_le_l.
    apply Qmult_le_0_compat; [|done].
    apply Qle_shift_div_l; [done|]. by rewrite Qmult_0_l. }
  assert (Hmax : (40 <= Qmax 0 ((avg / 100) * 60 + 40))%Q).
  { eapply Qle_trans; [exact H40|apply Q.le_max_r]. }
  assert (Hmin : (40 <= Qmin 100 (Qmax 0 ((avg / 100) * 60 + 40)))%Q).
  { apply Q.min_glb; [done|exact Hmax]. }
  rewrite Heq in Hmin. by apply Qle_not_lt in Hmin.
Qed.

(** ** Semantic cache ([SemanticCacheRepo], [SemanticCacheManager]) *)

Module SemanticCache.
Import Js.

(** The arithmetic of the similarity test is a parameter: the results below
    hold for the double-precision operations of the runtime as well as for
    exact numbers. [sha256] is [crypto.createHash('sha256')...digest('hex')]. *)
Section Cache.
Context {num : Type}.
Variable zero : num.
Variables add mul : num -> num -> num.
(** [a >= b] *)
Variable geb : num -> num -> bool.
(** the default [threshold = 0.97] of [findSemantic] *)
Variable defaultThreshold : num.
Variable sha256 : string -> string.

(** A row of table [semantic_cache]. *)
Record Row : Type := mkRow {
  id : string;
  prompt_hash : string;
  prompt_text : string;
  embedding : list num;
  response_text : string;
  model : string;
  created_at : Z
}.

(** [generateHash(text)] *)
Definition generateHash (text : string) : string := sha256 (trim text).

(** [save(entry)]: a fresh [id] makes [INSERT OR REPLACE] add a row. *)
Definition save (freshId : string) (createdAt : Z) (prompt : string)
    (vector : list num) (response mdl : string) (rows : list Row) : list Row :=
  rows ++ [mkRow freshId (generateHash prompt) prompt vector response mdl createdAt].

(** [findExact(prompt)]: the first row with the prompt's hash *)
Definition findExact (prompt : string) (rows : list Row) : option string :=
  response_text <$>
    List.find (fun row => String.eqb (prompt_hash row) (generateHash prompt)) rows.

(** The loop of [cosineSimilarity] over vectors of one length *)
Definition dotProduct (a b : list num) : num :=
  foldl (fun acc xy => add acc (mul xy.1 xy.2)) zero (zip a b).

(** [cosineSimilarity(a, b)] *)
Definition cosineSimilarity (a b : list num) : num :=
  if (length a =? length b)%nat then dotProduct a b else zero.

(** [similarity >= threshold] for a stored row *)
Definition similar (queryEmbedding : list num) (threshold : num) (row : Row)
  : Prop :=
  geb (cosineSimilarity queryEmbedding (embedding row)) threshold = true.

#[local] Instance similar_dec q t row : Decision (similar q t row).
Proof. unfold similar. apply _. Defined.

(** [findSemantic(queryEmbedding, threshold)]: scan in table order, return
    at the first row that is similar enough *)
Definition findSemantic (queryEmbedding : list num) (threshold : num)
    (rows : list Row) : option string :=
  (fun hit => response_text hit.2) <$> list_find (similar queryEmbedding threshold) rows.

(** [SemanticCacheManager.findResponse(prompt, accessToken)]; [fetched] is
    the outcome of [GoogleAPIService.fetchEmbedding]. The two [if]s test the
    truthiness of the string found. *)
Definition findResponse (prompt : string) (fetched : Outcome (list num))
    (rows : list Row) : option string :=
  if truthy (findExact prompt rows) then findExact prompt rows
  else
    match fetched with
    | Ok embedding =>
        if truthy (findSemantic embedding defaultThreshold rows)
        then findSemantic embedding defaultThreshold rows
        else None
    | Throw => None
    end.

Lemma cosineSimilarity_dotProduct a b :
  length a = length b -> cosineSimilarity a b = dotProduct a b.
Proof. intros Hl. unfold cosineSimilarity. by rewrite Hl, Nat.eqb_refl. Qed.

Lemma truthy_Some s : truthy (Some s) = true <-> s <> "".
Proof.
  simpl. rewrite negb_true_iff. split.
  - by intros ?%String.eqb_neq.
  - by intros ?%String.eqb_neq.
Qed.

(** C9 (as amended). Cache lookup. An exact hit whose stored response is
    not empty is returned whatever the embedding step would do. Without
    such a hit and with the query vector [q] fetched: the lookup returns the
    response of the first row, in table order, whose similarity with [q]
    (the dot product, for vectors of equal length) reaches the default
    threshold, provided that response is not empty, and [null] when it is
    empty or when no row reaches the threshold. Without such a hit and with
    a failed embedding fetch the lookup returns [null]. *)
Theorem cache_lookup_order :
  forall (prompt : string) (fetched : Outcome (list num)) (rows : list Row),
    (forall r, findExact prompt rows = Some r -> r <> "" ->
               findResponse prompt fetched rows = Some r) /\
    (truthy (findExact prompt rows) = false ->
     forall q, fetched = Ok q ->
       (forall i row,
          rows !! i = Some row ->
          similar q defaultThreshold row ->
          (forall j row', rows !! j = Some row' -> (j < i)%nat ->
                          ~ similar q defaultThreshold row') ->
          (length (embedding row) = length q ->
           geb (dotProduct q (embedding row)) defaultThreshold = true) /\
          findResponse prompt fetched rows
            = (if String.eqb (response_text row) "" then None
               else Some (response_text row))) /\
       ((forall row, row ∈ rows -> ~ similar q defaultThreshold row) ->
        findResponse prompt fetched rows = None)) /\
    (truthy (findExact prompt rows) = false -> fetched = Throw ->
     findResponse prompt fetched rows = None).
Proof.
  intros prompt fetched rows. unfold findResponse. split_and!.
  - intros r Hr Hne. rewrite Hr. apply truthy_Some in Hne. by rewrite Hne.
  - intros Hex q ->. rewrite Hex. split.
    + intros i row Hi Hsim Hfirst. split.
      { intros Hlen. unfold similar in Hsim.
        by rewrite cosineSimilarity_dotProduct in Hsim. }
      assert (Hfind : list_find (similar q defaultThreshold) rows = Some (i, row)).
      { apply list_find_Some. split_and!; [done|done|]. intros j y Hj Hlt.
        by eapply Hfirst. }
      unfold findSemantic. rewrite Hfind. simpl.
      by destruct (String.eqb (response_text row) "").
    + intros Hnone.
      assert (Hfind : list_find (similar q defaultThreshold) rows = None).
      { apply list_find_None, Forall_forall. intros row Hrow. by apply Hnone. }
      unfold findSemantic. by rewrite Hfind.
  - intros Hex ->. by rewrite Hex.
Qed.

End Cache.
End SemanticCache.

(** The cache over exact rationals, with the hash function left as the
    identity (the results above do not depend on it). *)
Definition Qgeb (a b : Q) : bool := Qle_bool b a.

Definition qFindExact : string -> list (SemanticCache.Row (num := Q)) -> option string :=
  SemanticCache.findExact (fun s => s).

Definition qFindResponse : string -> Js.Outcome (list Q) ->
    list (SemanticCache.Row (num := Q)) -> option string :=
  SemanticCache.findResponse 0%Q Qplus Qmult Qgeb (97 # 100)%Q (fun s => s).

Definition qSave : string -> Z -> string -> list Q -> string -> string ->
    list (SemanticCache.Row (num := Q)) -> list (SemanticCache.Row (num := Q)) :=
  SemanticCache.save (fun s => s).

(** Two prompts with the same unit vector; the second was answered with an
    empty text (a reply made of tool calls only). *)
Definition cachedRows : list (SemanticCache.Row (num := Q)) :=
  qSave "id-2" 1700000001 "list the files" [1; 0]%Q "" "gemini-3-pro-preview"
    (qSave "id-1" 1700000000 "show the files" [1; 0]%Q "README.md, src/"
       "gemini-3-pro-preview" []).

Lemma cache_lookup_order_witness :
  (qFindExact " show the files " cachedRows = Some "README.md, src/" /\
   "README.md, src/" <> "") /\
  qFindResponse " show the files " Js.Throw cachedRows = Some "README.md, src/".
Proof.
  assert (H1 : qFindExact " show the files " cachedRows = Some "README.md, src/")
    by (vm_compute; reflexivity).
  assert (H2 : "README.md, src/" <> "") by discriminate.
  split; [done|].
  exact (proj1 (SemanticCache.cache_lookup_order 0%Q Qplus Qmult Qgeb
                  (97 # 100)%Q (fun s => s) " show the files " Js.Throw
                  cachedRows) _ H1 H2).
Defined.

(** C9, the claim as stated fails for an exact hit whose stored response is
    empty: the hash of the prompt is in the index, yet the lookup goes on
    to the vector scan and returns the response of another row. *)
Lemma empty_exact_hit_counterexample :
  qFindExact "list the files" cachedRows = Some "" /\
  qFindResponse "list the files" (Js.Ok [1; 0]%Q) cachedRows
    = Some "README.md, src/".
Proof. vm_compute. done. Qed.

(** * Further properties of the modelled code *)

(** ** Credential store *)

(** Insertion keeps a list sorted when [before] is asymmetric: neighbours
    [x, y] of the result never have [y] strictly before [x]. *)
Section SortSorted.
Context {A : Type} (before : A -> A -> bool).
Hypothesis before_asym : forall x y, before x y = true -> before y x = false.

Lemma insertSorted_Sorted x l :
  Sorted (fun a b => before b a = false) l ->
  Sorted (fun a b => before b a = false) (insertSorted before x l).
Proof.
  induction l as [|y l IH]; intros Hs; simpl.
  - by repeat constructor.
  - destruct (before y x) eqn:Hyx.
    + apply Sorted_inv in Hs as [Hs Hhd]. constructor; [by apply IH|].
      destruct l as [|z l]; simpl.
      * constructor. by apply before_asym.
      * destruct (before z x); constructor.
        -- by inversion Hhd.
        -- by apply before_asym.
    + constructor; [done|]. by constructor.
Qed.

Lemma sortBy_Sorted l : Sorted (fun a b => before b a = false) (sortBy before l).
Proof.
  induction l as [|x l IH]; simpl; [constructor|].
  by apply insertSorted_Sorted.
Qed.
End SortSorted.

Lemma Sorted_weaken {A} (R S : A -> A -> Prop) (l : list A) :
  (forall a b, R a b -> S a b) -> Sorted R l -> Sorted S l.
Proof.
  intros HRS. induction 1 as [|x l Hl IH Hhd]; constructor; [done|].
  destruct Hhd; constructor; auto.
Qed.

(** X1. [setActive(id)] on a stored id leaves exactly that row active and
    every other row inactive with its other columns as they were; on an id
    that is not stored it leaves no row active at all. *)
Theorem setActive_selects_exactly_one :
  forall (id : string) (db : gmap string CloudAccount.t),
    (db !! id = None ->
     CloudAccountRepo.activeCount (CloudAccountRepo.setActive id db) = 0%nat) /\
    (forall a, db !! id = Some a ->
       CloudAccountRepo.setActive id db !! id
         = Some (CloudAccount.with_is_active true a) /\
       CloudAccountRepo.activeCount (CloudAccountRepo.setActive id db) = 1%nat) /\
    (forall j, j <> id ->
       CloudAccountRepo.setActive id db !! j
         = CloudAccount.with_is_active false <$> db !! j).
Proof.
  intros id db. unfold CloudAccountRepo.setActive. split_and!.
  - intros Hnone. rewrite alter_id'.
    + apply CloudAccountRepo.activeCount_deactivateAll.
    + unfold CloudAccountRepo.deactivateAll. by rewrite lookup_fmap, Hnone.
  - intros a Ha.
    assert (Hd : CloudAccountRepo.deactivateAll db !! id
                 = Some (CloudAccount.with_is_active false a)).
    { unfold CloudAccountRepo.deactivateAll. by rewrite lookup_fmap, Ha. }
    split; [by rewrite lookup_alter_eq, Hd|].
    rewrite (CloudAccountRepo.alter_lookup_Some _ _ _ _ Hd).
    unfold CloudAccountRepo.activeCount, CloudAccountRepo.activeRows.
    rewrite map_filter_insert_True by done.
    fold (CloudAccountRepo.activeRows (CloudAccountRepo.deactivateAll db)).
    rewrite CloudAccountRepo.activeRows_deactivateAll.
    by rewrite insert_empty, map_size_singleton.
  - intros j Hj. rewrite lookup_alter_ne by done.
    unfold CloudAccountRepo.deactivateAll. by rewrite lookup_fmap.
Qed.

Lemma setActive_selects_exactly_one_witness :
  s1_store !! "B" = Some (cloudAccount "B" 2 1700009999 (Some "p-b") None) /\
  CloudAccountRepo.setActive "B" s1_store !! "B"
    = Some (CloudAccount.with_is_active true
              (cloudAccount "B" 2 1700009999 (Some "p-b") None)) /\
  CloudAccountRepo.activeCount (CloudAccountRepo.setActive "B" s1_store) = 1%nat.
Proof.
  assert (H : s1_store !! "B" = Some (cloudAccount "B" 2 1700009999 (Some "p-b") None))
    by (vm_compute; reflexivity).
  split; [exact H|].
  exact (proj1 (proj2 (setActive_selects_exactly_one "B" s1_store)) _ H).
Defined.

(** [addAccount(account)] stores the account under its id, replacing a
    row of that id; a row of another id keeps all its columns, except that
    its active flag is cleared when the new account is active. *)
Theorem addAccount_replaces_one_row :
  forall (account : CloudAccount.t) (db : gmap string CloudAccount.t),
    CloudAccountRepo.getAccount (CloudAccount.id account)
      (CloudAccountRepo.addAccount account db) = Some account /\
    (forall j, j <> CloudAccount.id account ->
       CloudAccountRepo.getAccount j (CloudAccountRepo.addAccount account db)
         = (if CloudAccount.is_active account
            then CloudAccount.with_is_active false <$> db !! j
            else db !! j)) /\
    dom (CloudAccountRepo.addAccount account db)
      = {[CloudAccount.id account]} ∪ dom db.
Proof.
  intros account db.
  unfold CloudAccountRepo.getAccount, CloudAccountRepo.addAccount.
  split_and!.
  - by rewrite lookup_insert_eq.
  - intros j Hj. rewrite lookup_insert_ne by done.
    destruct (CloudAccount.is_active account); [|done].
    unfold CloudAccountRepo.deactivateAll. by rewrite lookup_fmap.
  - rewrite dom_insert_L.
    destruct (CloudAccount.is_active account); [|done].
    unfold CloudAccountRepo.deactivateAll. by rewrite dom_fmap_L.
Qed.

(** X2. Removing an account that was just added under a new id, and that
    was not active, gives back the store as it was. *)
Theorem removeAccount_undoes_addAccount :
  forall (account : CloudAccount.t) (db : gmap string CloudAccount.t),
    db !! CloudAccount.id account = None ->
    CloudAccount.is_active account = false ->
    CloudAccountRepo.removeAccount (CloudAccount.id account)
      (CloudAccountRepo.addAccount account db) = db.
Proof.
  intros account db Hnew Hinactive.
  unfold CloudAccountRepo.removeAccount, CloudAccountRepo.addAccount.
  rewrite Hinactive. rewrite delete_insert_eq. by apply delete_id.
Qed.

Lemma removeAccount_undoes_addAccount_witness :
  CloudAccountRepo.removeAccount "D"
    (CloudAccountRepo.addAccount
       (cloudAccount "D" 9 1700009999 None None) s1_store) = s1_store.
Proof.
  apply (removeAccount_undoes_addAccount
           (cloudAccount "D" 9 1700009999 None None) s1_store).
  - vm_compute. reflexivity.
  - reflexivity.
Defined.

(** X3. Every sequence of repository operations (add, setActive, remove,
    updateToken, updateQuota, updateSelectedModels, updateLastUsed) keeps a
    store with at most one active row, each row stored under its own id, in
    that shape. *)
Theorem repository_operations_keep_shape :
  forall (ops : list CloudAccountRepo.AnyOp) (db : gmap string CloudAccount.t),
    (CloudAccountRepo.activeCount db <= 1)%nat ->
    CloudAccountRepo.keyedById db ->
    (CloudAccountRepo.activeCount
       (foldl (fun s op => CloudAccountRepo.apply op s) db ops) <= 1)%nat /\
    CloudAccountRepo.keyedById
      (foldl (fun s op => CloudAccountRepo.apply op s) db ops).
Proof.
  induction ops as [|op ops IH]; intros db Hone Hkey; simpl; [done|].
  apply IH.
  - by apply CloudAccountRepo.apply_activeCount.
  - by apply CloudAccountRepo.apply_keyedById.
Qed.

Lemma repository_operations_keep_shape_witness :
  (CloudAccountRepo.activeCount
     (foldl (fun s op => CloudAccountRepo.apply op s) s1_store
        [CloudAccountRepo.DoSetActive "A";
         CloudAccountRepo.DoUpdateLastUsed 1700000005000 "B";
         CloudAccountRepo.DoRemove "A";
         CloudAccountRepo.DoSetActive "zz"]) <= 1)%nat /\
  CloudAccountRepo.keyedById
    (foldl (fun s op => CloudAccountRepo.apply op s) s1_store
       [CloudAccountRepo.DoSetActive "A";
        CloudAccountRepo.DoUpdateLastUsed 1700000005000 "B";
        CloudAccountRepo.DoRemove "A";
        CloudAccountRepo.DoSetActive "zz"]).
Proof.
  apply (repository_operations_keep_shape _ s1_store).
  - vm_compute. lia.
  - apply (bool_decide_unpack _). vm_compute. exact I.
Defined.

(** X4. [getAccounts] lists every stored row exactly once, most recently
    used first. *)
Theorem getAccounts_sorted_by_last_used :
  forall db : gmap string CloudAccount.t,
    Sorted (fun a b => CloudAccount.last_used b <= CloudAccount.last_used a)
           (CloudAccountRepo.getAccounts db) /\
    CloudAccountRepo.getAccounts db ≡ₚ (map_to_list db).*2 /\
    length (CloudAccountRepo.getAccounts db) = size db.
Proof.
  intros db. unfold CloudAccountRepo.getAccounts. split_and!.
  - eapply Sorted_weaken; [|apply sortBy_Sorted].
    + intros a b Hab. simpl in Hab. by apply Z.ltb_ge in Hab.
    + intros x y Hxy. apply Z.ltb_lt in Hxy. apply Z.ltb_ge. lia.
  - apply sortBy_Permutation.
  - rewrite CloudAccountRepo.sortBy_length, length_fmap.
    apply length_map_to_list.
Qed.

(** ** Token manager *)

(** X5. [loadAccounts] into an empty map, from a store whose rows sit under
    their own ids, creates one entry per stored account, in the order of
    [getAccounts], keyed by the account id and holding the converted
    token; so [getAccountCount] is the number of stored accounts. *)
Theorem loadAccounts_one_entry_per_account :
  forall (env : TokenManagerService.Env) (st : TokenManagerService.State),
    TokenManagerService.tokens st = [] ->
    CloudAccountRepo.keyedById (TokenManagerService.db st) ->
    TokenManagerService.tokens (TokenManagerService.loadAccounts env st)
      = (fun a => (CloudAccount.id a,
                   TokenManagerService.convertAccountToToken env a))
          <$> CloudAccountRepo.getAccounts (TokenManagerService.db st) /\
    NoDup (TokenManagerService.tokens
             (TokenManagerService.loadAccounts env st)).*1 /\
    length (TokenManagerService.tokens (TokenManagerService.loadAccounts env st))
      = size (TokenManagerService.db st).
Proof.
  intros env st Hempty Hkey.
  pose proof (TokenManagerService.getAccounts_ids_NoDup _ Hkey) as Hnd.
  assert (Hload : TokenManagerService.tokens (TokenManagerService.loadAccounts env st)
    = (fun a => (CloudAccount.id a,
                 TokenManagerService.convertAccountToToken env a))
        <$> CloudAccountRepo.getAccounts (TokenManagerService.db st)).
  { unfold TokenManagerService.loadAccounts. simpl. rewrite Hempty.
    by rewrite TokenManagerService.loadAccounts_fold. }
  rewrite Hload. split_and!; [done| |].
  - by rewrite <- list_fmap_compose.
  - rewrite length_fmap. unfold CloudAccountRepo.getAccounts.
    rewrite CloudAccountRepo.sortBy_length, length_fmap.
    apply length_map_to_list.
Qed.

Lemma loadAccounts_one_entry_per_account_witness :
  (TokenManagerService.tokens
     (TokenManagerService.loadAccounts (quietEnv 1700000000000) s1_state)).*1
  = ["A"; "B"; "C"].
Proof.
  destruct (loadAccounts_one_entry_per_account (quietEnv 1700000000000) s1_state)
    as (Hload & _ & _).
  - reflexivity.
  - apply (bool_decide_unpack _). vm_compute. exact I.
  - rewrite Hload. vm_compute. reflexivity.
Defined.

(** X6. Cooldown window. After [markAsRateLimited(email)] at clock [t >= 0]
    the email is filtered out at every time before [t + 300000] ms and is
    eligible again from exactly that instant on; other emails are judged as
    before; [resetCooldown(email)] makes the email eligible at once. *)
Theorem cooldown_lasts_five_minutes :
  forall (t now_ms : Z) (email : string) (st : TokenManagerService.State),
    0 <= t ->
    (TokenManagerService.isNotCooldown
       (TokenManagerService.cooldowns
          (TokenManagerService.markAsRateLimited t email st)) now_ms email = true
     <-> t + 300000 <= now_ms) /\
    (forall other, other <> email ->
       TokenManagerService.isNotCooldown
         (TokenManagerService.cooldowns
            (TokenManagerService.markAsRateLimited t email st)) now_ms other
       = TokenManagerService.isNotCooldown
           (TokenManagerService.cooldowns st) now_ms other) /\
    TokenManagerService.isNotCooldown
      (TokenManagerService.cooldowns
         (TokenManagerService.resetCooldown email
            (TokenManagerService.markAsRateLimited t email st))) now_ms email
    = true.
Proof.
  intros t now_ms email st Ht.
  unfold TokenManagerService.isNotCooldown, TokenManagerService.markAsRateLimited,
    TokenManagerService.resetCooldown. simpl. split_and!.
  - rewrite lookup_insert_eq.
    assert ((t + 5 * 60 * 1000 =? 0) = false) as -> by (apply Z.eqb_neq; lia).
    simpl. rewrite Z.leb_le. lia.
  - intros other Hne. by rewrite lookup_insert_ne.
  - by rewrite lookup_delete_eq.
Qed.

Lemma cooldown_lasts_five_minutes_witness :
  TokenManagerService.isNotCooldown
    (TokenManagerService.cooldowns
       (TokenManagerService.markAsRateLimited 1700000000000 "A@example.com"
          s1_state)) 1700000300000 "A@example.com" = true
  <-> 1700000000000 + 300000 <= 1700000300000.
Proof.
  apply (cooldown_lasts_five_minutes 1700000000000 1700000300000
           "A@example.com" s1_state).
  lia.
Defined.

(** X7. [getNextToken] returns [null] exactly when, after the reload step,
    no entry passes the cooldown and model filters; it then leaves the
    counter, the cooldowns and the store as they were. *)
Theorem getNextToken_null_iff_no_candidate :
  forall (env : TokenManagerService.Env) (req : option string)
         (st : TokenManagerService.State),
    ((TokenManagerService.getNextToken env req st).1 = None
     <-> TokenManagerService.candidates env req st = []) /\
    ((TokenManagerService.getNextToken env req st).1 = None ->
     (TokenManagerService.getNextToken env req st).2
       = TokenManagerService.reloadIfEmpty env st /\
     TokenManagerService.currentIndex (TokenManagerService.getNextToken env req st).2
       = TokenManagerService.currentIndex st /\
     TokenManagerService.db (TokenManagerService.getNextToken env req st).2
       = TokenManagerService.db st).
Proof.
  intros env req st.
  destruct (TokenManagerService.getNextToken_cases env req st)
    as [[Hc Hr]|(Hc & chosen & idx' & _ & _ & Hr)]; rewrite Hr.
  - simpl. split; [done|]. intros _.
    by rewrite TokenManagerService.reloadIfEmpty_currentIndex,
               TokenManagerService.reloadIfEmpty_db.
  - destruct (TokenManagerService.finish_result env
                (TokenManagerService.reloadIfEmpty env st) idx' chosen)
      as (Hid & _ & _).
    destruct (TokenManagerService.finish _ _ _ _).1 eqn:Hf; [|done].
    split; [done|]. done.
Qed.

(** X8. What a call writes to the store. Rows other than the returned
    account's are untouched; the returned account's row changes at most in
    its token, whose [refresh_token] and [session_id] stay; no row is added
    or removed and the number of active rows stays. *)
Theorem getNextToken_store_writes :
  forall (env : TokenManagerService.Env) (req : option string)
         (st : TokenManagerService.State),
    (forall j,
       SelectedAccount.id <$> (TokenManagerService.getNextToken env req st).1
         <> Some j ->
       TokenManagerService.db (TokenManagerService.getNextToken env req st).2 !! j
       = TokenManagerService.db st !! j) /\
    (forall j a,
       TokenManagerService.db st !! j = Some a ->
       exists tk,
         TokenManagerService.db (TokenManagerService.getNextToken env req st).2 !! j
           = Some (CloudAccount.with_token tk a) /\
         Token.refresh_token tk = Token.refresh_token (CloudAccount.token a) /\
         Token.session_id tk = Token.session_id (CloudAccount.token a)) /\
    dom (TokenManagerService.db (TokenManagerService.getNextToken env req st).2)
      = dom (TokenManagerService.db st) /\
    CloudAccountRepo.activeCount
      (TokenManagerService.db (TokenManagerService.getNextToken env req st).2)
    = CloudAccountRepo.activeCount (TokenManagerService.db st).
Proof.
  intros env req st.
  assert (Hw : exists k,
    (SelectedAccount.id <$> (TokenManagerService.getNextToken env req st).1 = Some k
     \/ TokenManagerService.db (TokenManagerService.getNextToken env req st).2
        = TokenManagerService.db st) /\
    TokenManagerService.tokenWrite k (TokenManagerService.db st)
      (TokenManagerService.db (TokenManagerService.getNextToken env req st).2)).
  { destruct (TokenManagerService.getNextToken_cases env req st)
      as [[_ Hr]|(_ & [k d0] & idx' & _ & _ & Hr)]; rewrite Hr.
    - exists "". simpl. rewrite TokenManagerService.reloadIfEmpty_db.
      split; [by right|apply TokenManagerService.tokenWrite_refl].
    - exists k. rewrite TokenManagerService.finish_unfold. simpl.
      split; [by left|]. rewrite TokenManagerService.reloadIfEmpty_db.
      eapply TokenManagerService.tokenWrite_trans.
      + apply TokenManagerService.refreshStep_shape.
      + apply TokenManagerService.projectStep_shape. }
  destruct Hw as (k & Hk & [Hother Hrow]).
  assert (Hrows : forall j a,
    TokenManagerService.db st !! j = Some a ->
    exists tk,
      TokenManagerService.db (TokenManagerService.getNextToken env req st).2 !! j
        = Some (CloudAccount.with_token tk a) /\
      Token.refresh_token tk = Token.refresh_token (CloudAccount.token a) /\
      Token.session_id tk = Token.session_id (CloudAccount.token a)).
  { intros j a Ha. destruct (decide (j = k)) as [->|Hne].
    - by rewrite Ha in Hrow.
    - exists (CloudAccount.token a).
      by rewrite Hother, TokenManagerService.with_token_same. }
  assert (Hnone : forall j,
    TokenManagerService.db st !! j = None ->
    TokenManagerService.db (TokenManagerService.getNextToken env req st).2 !! j = None).
  { intros j Hj. destruct (decide (j = k)) as [->|Hne].
    - by rewrite Hj in Hrow.
    - by rewrite Hother. }
  split_and!.
  - intros j Hj. destruct Hk as [Hk|Hk]; [|by rewrite Hk].
    apply Hother. intros ->. by rewrite Hk in Hj.
  - done.
  - apply set_eq. intros j. rewrite !elem_of_dom. split.
    + intros [a' Ha'].
      destruct (TokenManagerService.db st !! j) as [a|] eqn:Ha; [eauto|].
      by rewrite (Hnone j Ha) in Ha'.
    + intros [a Ha]. destruct (Hrows j a Ha) as (tk & -> & _). eauto.
  - unfold CloudAccountRepo.activeCount, CloudAccountRepo.activeRows.
    rewrite <- !size_dom. f_equal. apply set_eq. intros j.
    rewrite !elem_of_dom. unfold is_Some.
    setoid_rewrite map_lookup_filter_Some. simpl. split.
    + intros (a' & Ha' & Hact).
      destruct (TokenManagerService.db st !! j) as [a|] eqn:Ha.
      * destruct (Hrows j a Ha) as (tk & Htk & _). rewrite Htk in Ha'.
        injection Ha' as <-. exists a. by destruct a.
      * by rewrite (Hnone j Ha) in Ha'.
    + intros (a & Ha & Hact). destruct (Hrows j a Ha) as (tk & Htk & _).
      exists (CloudAccount.with_token tk a). by destruct a.
Qed.

(** X9. An account of provider [google] or [anthropic] is never returned
    without a project id: the call has discovered one or set the
    [cloud-code-] fallback. *)
Theorem cloud_account_has_project_id :
  forall (env : TokenManagerService.Env) (req : option string)
         (st : TokenManagerService.State) (acc : SelectedAccount.t),
    (TokenManagerService.getNextToken env req st).1 = Some acc ->
    SelectedAccount.provider acc = "google" \/
    SelectedAccount.provider acc = "anthropic" ->
    Js.truthy (Token.project_id (SelectedAccount.token acc)) = true.
Proof.
  intros env req st acc Hacc Hprov.
  destruct (TokenManagerService.getNextToken_cases env req st)
    as [[_ Hr]|(_ & [k d0] & idx' & _ & _ & Hr)]; rewrite Hr in Hacc; [done|].
  rewrite TokenManagerService.finish_unfold in Hacc. simpl in Hacc.
  injection Hacc as <-. simpl in *.
  pose proof (TokenManagerService.projectStep_resolved env k
    (TokenManagerService.refreshStep env (TokenManagerService.now env / 1000) k d0
       (TokenManagerService.db (TokenManagerService.reloadIfEmpty env st))).1
    (TokenManagerService.refreshStep env (TokenManagerService.now env / 1000) k d0
       (TokenManagerService.db (TokenManagerService.reloadIfEmpty env st))).2)
    as Hres.
  unfold TokenManagerService.needsProjectId in Hres.
  destruct Hprov as [Hp|Hp]; rewrite Hp in Hres; simpl in Hres.
  - rewrite andb_true_r in Hres. by apply negb_false_iff in Hres.
  - rewrite andb_true_r in Hres. by apply negb_false_iff in Hres.
Qed.

Lemma cloud_account_has_project_id_witness :
  exists acc,
    (TokenManagerService.getNextToken (quietEnv 1700000000000) (Some "gpt-4")
       (TokenManagerService.mkState 0 [] ∅ projectlessStore)).1 = Some acc /\
    Js.truthy (Token.project_id (SelectedAccount.token acc)) = true.
Proof.
  destruct (TokenManagerService.getNextToken (quietEnv 1700000000000) (Some "gpt-4")
              (TokenManagerService.mkState 0 [] ∅ projectlessStore)).1
    as [acc|] eqn:Hacc; [|by vm_compute in Hacc].
  exists acc. split; [done|].
  apply (cloud_account_has_project_id (quietEnv 1700000000000) (Some "gpt-4")
           (TokenManagerService.mkState 0 [] ∅ projectlessStore) acc Hacc).
  left. vm_compute in Hacc. by injection Hacc as <-.
Defined.

(** X10. A call is read-only on tokens that need nothing: when no entry of
    the (non-empty, duplicate-free) map is within 300 seconds of expiry or
    lacks a project id it should have, the call leaves the store and the
    map exactly as they were. *)
Theorem getNextToken_read_only_when_fresh :
  forall (env : TokenManagerService.Env) (req : option string)
         (st : TokenManagerService.State),
    TokenManagerService.tokens st <> [] ->
    NoDup (TokenManagerService.tokens st).*1 ->
    Forall (fun e =>
              TokenManagerService.needsRefresh
                (TokenManagerService.now env / 1000) e.2 = false /\
              TokenManagerService.needsProjectId e.2 = false)
           (TokenManagerService.tokens st) ->
    TokenManagerService.db (TokenManagerService.getNextToken env req st).2
      = TokenManagerService.db st /\
    TokenManagerService.tokens (TokenManagerService.getNextToken env req st).2
      = TokenManagerService.tokens st.
Proof.
  intros env req st Hne Hnd Hall.
  assert (Hst : TokenManagerService.reloadIfEmpty env st = st).
  { unfold TokenManagerService.reloadIfEmpty.
    by destruct (TokenManagerService.tokens st). }
  destruct (TokenManagerService.getNextToken_cases env req st)
    as [[_ Hr]|(_ & [k d0] & idx' & Hin & _ & Hr)]; rewrite Hr, Hst in *; [done|].
  rewrite TokenManagerService.finish_unfold. simpl.
  pose proof (proj1 (Forall_forall _ _) Hall _ Hin) as [Hfresh Hproj].
  simpl in Hfresh, Hproj.
  unfold TokenManagerService.refreshStep. rewrite Hfresh. simpl.
  unfold TokenManagerService.projectStep. rewrite Hproj. simpl.
  split; [done|]. apply TokenManagerService.mapSet_same.
  by apply TokenManagerService.elem_of_mapGet.
Qed.

Lemma getNextToken_read_only_when_fresh_witness :
  TokenManagerService.db
    (TokenManagerService.getNextToken (quietEnv 1700000000000) (Some "gpt-4")
       lockedState).2 = TokenManagerService.db lockedState /\
  TokenManagerService.tokens
    (TokenManagerService.getNextToken (quietEnv 1700000000000) (Some "gpt-4")
       lockedState).2 = TokenManagerService.tokens lockedState.
Proof.
  apply (getNextToken_read_only_when_fresh (quietEnv 1700000000000)
           (Some "gpt-4") lockedState).
  - vm_compute. discriminate.
  - apply (bool_decide_unpack _). vm_compute. exact I.
  - apply (bool_decide_unpack _). vm_compute. exact I.
Defined.

(** X11. A refresh only moves the expiry forward: when the token endpoint
    grants lifetimes of at least 300 seconds, the expiry of the returned
    token is not earlier than the one the map held for that account, and
    the refresh token is the same. *)
Theorem refresh_moves_expiry_forward :
  forall (env : TokenManagerService.Env) (req : option string)
         (st : TokenManagerService.State) (acc : SelectedAccount.t)
         (held : TokenData.t),
    (forall rt nt, TokenManagerService.refreshAccessToken env rt = Js.Ok nt ->
                   300 <= TokenResponse.expires_in nt) ->
    NoDup (TokenManagerService.tokens (TokenManagerService.reloadIfEmpty env st)).*1 ->
    (TokenManagerService.getNextToken env req st).1 = Some acc ->
    TokenManagerService.mapGet (SelectedAccount.id acc)
      (TokenManagerService.tokens (TokenManagerService.reloadIfEmpty env st))
      = Some held ->
    TokenData.expiry_timestamp held
      <= Token.expiry_timestamp (SelectedAccount.token acc) /\
    Token.refresh_token (SelectedAccount.token acc) = TokenData.refresh_token held.
Proof.
  intros env req st acc held Hgrant Hnd Hacc Hheld.
  destruct (TokenManagerService.getNextToken_cases env req st)
    as [[_ Hr]|(_ & [k d0] & idx' & Hin & _ & Hr)]; rewrite Hr in Hacc; [done|].
  rewrite TokenManagerService.finish_unfold in Hacc. simpl in Hacc.
  injection Hacc as <-. simpl in *.
  rewrite (TokenManagerService.elem_of_mapGet _ _ _ Hnd Hin) in Hheld.
  injection Hheld as <-.
  set (tbl := TokenManagerService.db (TokenManagerService.reloadIfEmpty env st)).
  set (nowS := TokenManagerService.now env / 1000).
  destruct (TokenManagerService.projectStep_shape env k
              (TokenManagerService.refreshStep env nowS k d0 tbl).1
              (TokenManagerService.refreshStep env nowS k d0 tbl).2)
    as ((_ & _ & _ & Hrt & _) & _ & _ & Hexp & _).
  rewrite Hexp, Hrt.
  destruct (TokenManagerService.refreshStep_shape env nowS k d0 tbl)
    as ((_ & _ & _ & Hrt1 & _) & _ & _).
  split; [|done].
  unfold TokenManagerService.refreshStep.
  destruct (TokenManagerService.needsRefresh nowS d0) eqn:Hn; simpl; [|lia].
  destruct (TokenManagerService.refreshAccessToken env _) as [nt|] eqn:Hex;
    simpl; [|lia].
  apply TokenManagerService.needsRefresh_iff in Hn.
  specialize (Hgrant _ _ Hex). lia.
Qed.

Lemma refresh_moves_expiry_forward_witness :
  exists acc held,
    (TokenManagerService.getNextToken refreshingEnv (Some "gpt-4")
       (TokenManagerService.mkState 0 [] ∅ expiringStore)).1 = Some acc /\
    TokenData.expiry_timestamp held = 1700000300 /\
    TokenData.expiry_timestamp held
      <= Token.expiry_timestamp (SelectedAccount.token acc).
Proof.
  set (st := TokenManagerService.mkState 0 [] ∅ expiringStore).
  destruct (TokenManagerService.getNextToken refreshingEnv (Some "gpt-4") st).1
    as [acc|] eqn:Hacc; [|by vm_compute in Hacc].
  assert (Hid : SelectedAccount.id acc = "A")
    by (vm_compute in Hacc; by injection Hacc as <-).
  destruct (TokenManagerService.mapGet "A"
              (TokenManagerService.tokens
                 (TokenManagerService.reloadIfEmpty refreshingEnv st)))
    as [held|] eqn:Hheld; [|by vm_compute in Hheld].
  exists acc, held. split; [done|].
  split; [vm_compute in Hheld; by injection Hheld as <-|].
  refine (proj1 (refresh_moves_expiry_forward refreshingEnv (Some "gpt-4") st
                   acc held _ _ Hacc _)).
  - intros rt nt [= <-]. simpl. lia.
  - apply (bool_decide_unpack _). vm_compute. exact I.
  - by rewrite Hid.
Defined.

(** X12. Once the map holds entries a call neither adds nor drops nor
    reorders any: accounts added to the store later are not seen by
    [getNextToken], and [getAccountCount] stays what it was. *)
Theorem getNextToken_keeps_loaded_accounts :
  forall (env : TokenManagerService.Env) (req : option string)
         (st : TokenManagerService.State),
    TokenManagerService.tokens st <> [] ->
    (TokenManagerService.tokens (TokenManagerService.getNextToken env req st).2).*1
      = (TokenManagerService.tokens st).*1.
Proof.
  intros env req st Hne.
  assert (Hst : TokenManagerService.reloadIfEmpty env st = st).
  { unfold TokenManagerService.reloadIfEmpty.
    by destruct (TokenManagerService.tokens st). }
  destruct (TokenManagerService.getNextToken_cases env req st)
    as [[_ Hr]|(_ & [k d0] & idx' & Hin & _ & Hr)]; rewrite Hr, Hst in *; [done|].
  rewrite TokenManagerService.finish_unfold. simpl.
  apply TokenManagerService.mapSet_keys_present.
  apply list_elem_of_fmap. by exists (k, d0).
Qed.

Lemma getNextToken_keeps_loaded_accounts_witness :
  (TokenManagerService.tokens
     (TokenManagerService.getNextToken (quietEnv 1700000000000) (Some "gpt-4")
        (TokenManagerService.mkState
           0 (TokenManagerService.tokens lockedState) ∅
           (CloudAccountRepo.addAccount
              (cloudAccount "Z" 9 1700009999 (Some "p-z") None) lockedStore))).2).*1
  = (TokenManagerService.tokens lockedState).*1.
Proof.
  apply (getNextToken_keeps_loaded_accounts (quietEnv 1700000000000)
           (Some "gpt-4")
           (TokenManagerService.mkState
              0 (TokenManagerService.tokens lockedState) ∅
              (CloudAccountRepo.addAccount
                 (cloudAccount "Z" 9 1700009999 (Some "p-z") None) lockedStore))).
  vm_compute. discriminate.
Defined.

(** ** Proxy *)

(** X13. [shouldRetry] is a case-insensitive search: it holds exactly for
    the messages that contain [429], [quota], [limit] or
    [resource_exhausted] spelled in any mix of upper and lower case, as the
    pattern [/429|quota|limit|resource_exhausted/i] does on ASCII text. The
    spelling relation [spells] compares character by character and does
    not use [toLowerCase]. *)
Theorem shouldRetry_ignores_case :
  forall msg : string,
    ProxyService.shouldRetry msg = true <->
    exists kw pre v post,
      kw ∈ ["429"; "quota"; "limit"; "resource_exhausted"] /\
      ProxyService.spells kw v /\
      msg = pre ++ v ++ post.
Proof.
  intros msg. rewrite ProxyService.shouldRetry_includes. split.
  - intros (kw & p & q & Hkw & Hl).
    apply ProxyService.toLowerCase_split in Hl as (pre & rest & -> & _ & Hrest).
    apply ProxyService.toLowerCase_split in Hrest as (v & post & -> & Hv & _).
    exists kw, pre, v, post. split_and!; [done| |done].
    by apply ProxyService.toLowerCase_spells; [apply ProxyService.retryKeywords_lower|].
  - intros (kw & pre & v & post & Hkw & Hv & ->).
    exists kw, (Js.toLowerCase pre), (Js.toLowerCase post). split; [done|].
    rewrite !ProxyService.toLowerCase_app. do 2 f_equal.
    by apply ProxyService.toLowerCase_spells; [apply ProxyService.retryKeywords_lower|].
Qed.

(** X14. The prompt taken for the cache is the content of the last message
    of role [user] alone: with no such message it is the empty string, and
    neither the messages before it nor the non-user messages after it
    matter. *)
Theorem last_user_message_alone_counts :
  forall (m : ProxyService.Message) (pre pre' post post' : list ProxyService.Message),
    ProxyService.isUser m = true ->
    forallb (fun x => negb (ProxyService.isUser x)) post = true ->
    forallb (fun x => negb (ProxyService.isUser x)) post' = true ->
    ProxyService.extractLastUserMessage (pre ++ m :: post)
      = ProxyService.contentText (ProxyService.content m) /\
    ProxyService.extractLastUserMessage (pre ++ m :: post)
      = ProxyService.extractLastUserMessage (pre' ++ m :: post') /\
    ProxyService.extractLastUserMessage post = "".
Proof.
  intros m pre pre' post post' Hm Hpost Hpost'.
  rewrite !ProxyService.extractLastUserMessage_app by done.
  split_and!; [done|done|].
  unfold ProxyService.extractLastUserMessage.
  destruct (List.find ProxyService.isUser (rev post)) as [x|] eqn:Hf; [|done].
  apply List.find_some in Hf as [Hin Hx].
  rewrite forallb_forall in Hpost. apply in_rev in Hin.
  apply Hpost in Hin. by rewrite Hx in Hin.
Qed.

Definition userAsks : ProxyService.Message :=
  ProxyService.mkMessage "user"
    (ProxyService.ContentParts
       [ProxyService.mkPart "text" "list the files";
        ProxyService.mkPart "image" "";
        ProxyService.mkPart "text" "in src"]).

Lemma last_user_message_alone_counts_witness :
  ProxyService.extractLastUserMessage
    ([ProxyService.mkMessage "system" (ProxyService.ContentString "be brief");
      ProxyService.mkMessage "user" (ProxyService.ContentString "hello")]
     ++ userAsks
     :: [ProxyService.mkMessage "assistant" (ProxyService.ContentString "ok")])
  = ProxyService.contentText (ProxyService.content userAsks).
Proof.
  refine (proj1 (last_user_message_alone_counts userAsks _ [] _ [] _ _ _));
    reflexivity.
Defined.

(** X15. Line buffering of the stream processors. However the upstream
    bytes are cut into chunks, the payloads handed to the JSON parser are,
    in order, those of the complete lines of the whole text received, and
    the buffer is left holding the unfinished last line. *)
Theorem stream_payloads_independent_of_chunking :
  forall chunks : list string,
    ProxyService.onDataAll "" chunks
    = (omap ProxyService.linePayload
         (removelast (ProxyService.splitLines (foldr String.append "" chunks))),
       List.last (ProxyService.splitLines (foldr String.append "" chunks)) "").
Proof.
  intros chunks. by rewrite ProxyService.onDataAll_from.
Qed.

(** X16. Only a failed upstream dispatch is followed by another attempt.
    An iteration that finds no account, goes to a local provider, hits the
    cache or gets an upstream reply is the last one: it decides the outcome
    of the request and leaves the cooldowns alone. In particular a local
    provider's error is thrown at once, without retry or cooldown. *)
Theorem only_failed_dispatch_is_retried :
  forall (h : ProxyService.Handler) (model : string)
         (oracle : nat -> ProxyService.Attempt)
         (st : TokenManagerService.State) (k : nat) (it : ProxyService.Iteration),
    (ProxyService.handle h model oracle st).2 !! k = Some it ->
    ProxyService.isFailedDispatch (ProxyService.it_step it) = false ->
    (ProxyService.handle h model oracle st).2 !! S k = None /\
    TokenManagerService.cooldowns (ProxyService.it_after it)
      = TokenManagerService.cooldowns (ProxyService.it_before it) /\
    (ProxyService.handle h model oracle st).1
      = ProxyService.stepResult model (ProxyService.it_step it).
Proof.
  intros h model oracle st k it. rewrite ProxyService.handle_retryLoop.
  apply ProxyService.retryLoop_final_step.
Qed.

Lemma only_failed_dispatch_is_retried_witness :
  exists it,
    (ProxyService.handle ProxyService.Anthropic "llama3"
       (fun _ => ProxyService.mkAttempt (quietEnv 1700000000000)
                   (ProxyService.Failed "connect ECONNREFUSED") None
                   (ProxyService.Replied "unused") 1700000000500)
       lockedState).2 !! 0%nat = Some it /\
    ProxyService.it_step it
      = ProxyService.StepLocal "llama3@localhost"
          (ProxyService.Failed "connect ECONNREFUSED") /\
    (ProxyService.handle ProxyService.Anthropic "llama3"
       (fun _ => ProxyService.mkAttempt (quietEnv 1700000000000)
                   (ProxyService.Failed "connect ECONNREFUSED") None
                   (ProxyService.Replied "unused") 1700000000500)
       lockedState).1 = ProxyService.Thrown "connect ECONNREFUSED".
Proof.
  set (oracle := fun _ : nat =>
    ProxyService.mkAttempt (quietEnv 1700000000000)
      (ProxyService.Failed "connect ECONNREFUSED") None
      (ProxyService.Replied "unused") 1700000000500).
  destruct ((ProxyService.handle ProxyService.Anthropic "llama3" oracle
               lockedState).2 !! 0%nat) as [it|] eqn:Hit;
    [|by vm_compute in Hit].
  assert (Hstep : ProxyService.it_step it
                  = ProxyService.StepLocal "llama3@localhost"
                      (ProxyService.Failed "connect ECONNREFUSED"))
    by (vm_compute in Hit; by injection Hit as <-).
  exists it. split_and!; [done|done|].
  destruct (only_failed_dispatch_is_retried ProxyService.Anthropic "llama3"
              oracle lockedState 0 it Hit) as (_ & _ & ->).
  - by rewrite Hstep.
  - by rewrite Hstep.
Defined.

(** ** Semantic cache *)

(** X17. Exact lookup after [save]. A prompt saved when no row had its hash
    is found again under every prompt with the same trimmed text; but when a
    row with that hash is already stored, saving a new response does not
    change what the exact lookup returns: the oldest row keeps answering. *)
Theorem cache_first_saved_response_wins :
  forall {num : Type} (sha256 : string -> string)
         (freshId : string) (createdAt : Z) (prompt prompt' : string)
         (vector : list num) (response mdl : string)
         (rows : list (SemanticCache.Row (num := num))),
    Js.trim prompt' = Js.trim prompt ->
    (SemanticCache.findExact sha256 prompt' rows = None ->
     SemanticCache.findExact sha256 prompt'
       (SemanticCache.save sha256 freshId createdAt prompt vector response mdl rows)
     = Some response) /\
    (forall r, SemanticCache.findExact sha256 prompt' rows = Some r ->
     SemanticCache.findExact sha256 prompt'
       (SemanticCache.save sha256 freshId createdAt prompt vector response mdl rows)
     = Some r).
Proof.
  intros num sha256 freshId createdAt prompt prompt' vector response mdl rows Htrim.
  unfold SemanticCache.findExact, SemanticCache.save, SemanticCache.generateHash.
  rewrite Htrim.
  induction rows as [|row rows IH]; simpl.
  - rewrite String.eqb_refl. simpl. split; [done|]. intros r [=].
  - destruct (String.eqb (SemanticCache.prompt_hash row) (sha256 (Js.trim prompt)));
      simpl; [|exact IH].
    split; [done|]. done.
Qed.

Lemma cache_first_saved_response_wins_witness :
  SemanticCache.findExact (fun s => s) "  show the files"
    (SemanticCache.save (fun s => s) "id-3" 1700000002 "show the files "
       [0; 1]%Q "a newer answer" "gemini-3-pro-preview" cachedRows)
  = Some "README.md, src/".
Proof.
  refine (proj2 (cache_first_saved_response_wins (fun s => s) "id-3" 1700000002
                   "show the files " "  show the files" [0; 1]%Q "a newer answer"
                   "gemini-3-pro-preview" cachedRows _) _ _).
  - reflexivity.
  - vm_compute. reflexivity.
Defined.

(** ** Auto-switcher *)

(** Every stored quota percentage is non-negative. *)
Definition percentagesNonNegative (tbl : gmap string CloudAccount.t) : Prop :=
  map_Forall (fun _ a =>
    match CloudAccount.quota a with
    | Some models => Forall (fun m => 0 <= ModelQuota.percentage m.2) models
    | None => True
    end) tbl.

#[global] Instance percentagesNonNegative_dec tbl :
  Decision (percentagesNonNegative tbl).
Proof.
  unfold percentagesNonNegative. apply map_Forall_dec. intros i a.
  destruct (CloudAccount.quota a); apply _.
Defined.

(** X18. An account of status [active] that has quota entries, none of them
    negative, scores at least 40 and is therefore never judged critical:
    only a missing or empty quota, or the status [rate_limited] or [error],
    makes the active account critical. *)
Theorem active_account_with_quota_is_not_critical :
  forall (account : CloudAccount.t) (models : list (string * ModelQuota.t)),
    CloudAccount.quota account = Some models ->
    models <> [] ->
    Forall (fun m => 0 <= ModelQuota.percentage m.2) models ->
    CloudAccount.status account = status_active ->
    (40 <= AutoSwitchService.calculateHealthScore account)%Q /\
    AutoSwitchService.isCritical account = false.
Proof.
  intros account models Hq Hne Hall Hst.
  by apply (AutoSwitchService.active_with_quota_not_critical account models).
Qed.

Lemma active_account_with_quota_is_not_critical_witness :
  (40 <= AutoSwitchService.calculateHealthScore
           (monitored "B" status_active false
              (Some [("gemini-2.5-pro", ModelQuota.mk 0 "")])))%Q /\
  AutoSwitchService.isCritical
    (monitored "B" status_active false
       (Some [("gemini-2.5-pro", ModelQuota.mk 0 "")])) = false.
Proof.
  apply (active_account_with_quota_is_not_critical
           (monitored "B" status_active false
              (Some [("gemini-2.5-pro", ModelQuota.mk 0 "")]))
           [("gemini-2.5-pro", ModelQuota.mk 0 "")]).
  - reflexivity.
  - discriminate.
  - repeat constructor. simpl. lia.
  - reflexivity.
Defined.

(** X19. The account the auto-switcher decides to switch to is never one
    it would itself judge critical (stored percentages being
    non-negative): it has status [active] and scores at least 40. *)
Theorem switch_target_is_not_critical :
  forall (settings : gmap string bool) (tbl : gmap string CloudAccount.t)
         (next : CloudAccount.t),
    percentagesNonNegative tbl ->
    AutoSwitchService.nextAccount settings tbl = Some next ->
    CloudAccount.status next = status_active /\
    (40 <= AutoSwitchService.calculateHealthScore next)%Q /\
    AutoSwitchService.isCritical next = false.
Proof.
  intros settings tbl next Hpos Hnext.
  unfold AutoSwitchService.nextAccount in Hnext.
  destruct (CloudAccountRepo.getSetting _ _ _); [|done].
  destruct (List.find _ _) as [cur|]; [|done].
  destruct (AutoSwitchService.isCritical cur); [|done].
  apply AutoSwitchService.findBestAccount_Some in Hnext
    as (Hin & _ & Hst & Hlt & _).
  assert (Hposs : (0 < AutoSwitchService.calculateHealthScore next)%Q).
  { eapply Qle_lt_trans; [|exact Hlt].
    pose proof (AutoSwitchService.score_nonneg cur).
    replace 0%Q with (0 + 0)%Q by done. apply Qplus_le_compat; done. }
  apply AutoSwitchService.positive_score_has_quota in Hposs as (m & models & Hq).
  apply CloudAccountRepo.elem_of_getAccounts in Hin as [i Hi].
  pose proof (Hpos i next Hi) as Hall. simpl in Hall. rewrite Hq in Hall.
  split; [done|].
  by apply (AutoSwitchService.active_with_quota_not_critical next (m :: models)).
Qed.

Lemma switch_target_is_not_critical_witness :
  exists next,
    AutoSwitchService.nextAccount {["auto_switch_enabled" := true]} switchStore
      = Some next /\
    AutoSwitchService.isCritical next = false.
Proof.
  destruct (AutoSwitchService.nextAccount {["auto_switch_enabled" := true]}
              switchStore) as [next|] eqn:Hnext; [|by vm_compute in Hnext].
  exists next. split; [done|].
  refine (proj2 (proj2 (switch_target_is_not_critical
                          {["auto_switch_enabled" := true]} switchStore next
                          _ Hnext))).
  apply (bool_decide_unpack _). vm_compute. exact I.
Defined.

(** ** Resilience utilities ([src/utils/resilience.ts]) *)

Module Resilience.

Local Open Scope Q_scope.

(** [RetryOptions]; [maxDelay] and [jitter] are optional. *)
Record RetryOptions : Type := mkOptions {
  maxAttempts : nat;
  baseDelay : Q;
  maxDelay : option Q;
  jitter : option bool
}.

(** The default argument [{ maxAttempts: 3, baseDelay: 1000, jitter: true }] *)
Definition defaultOptions : RetryOptions := mkOptions 3 1000 None (Some true).

(** The delay [exponentialBackoff(attempt, options)] waits, for the value
    [rnd] drawn by [Math.random()]. *)
Definition backoffDelay (attempt : nat) (options : RetryOptions) (rnd : Q) : Q :=
  let maxD := default 30000 (maxDelay options) in
  let delay := inject_Z (2 ^ Z.of_nat attempt) * baseDelay options in
  let delay := if default true (jitter options) then delay + rnd * 1000 else delay in
  Qmin delay maxD.

(** What a run of [withRetry] does, in order. *)
Inductive RetryEvent : Type :=
| Called (attempt : nat)
| BackedOff (attempt : nat).

(** Outcome of the task at one attempt, and of [withRetry]. *)
Inductive TaskResult (V E : Type) : Type :=
| TaskOk (v : V)
| TaskErr (e : E).
Arguments TaskOk {V E} v.
Arguments TaskErr {V E} e.

Inductive RetryResult (V E : Type) : Type :=
| RetryOk (v : V)
(** [throw lastError]; [None] is [undefined] *)
| RetryThrown (lastError : option E).
Arguments RetryOk {V E} v.
Arguments RetryThrown {V E} lastError.

(** The loop of [withRetry] from [attempt] on, [remaining] iterations being
    left; [task i] is what the task does at attempt [i]. *)
Fixpoint withRetryFrom {V E : Type} (task : nat -> TaskResult V E)
    (maxAtt remaining attempt : nat) (lastError : option E)
  : RetryResult V E * list RetryEvent :=
  match remaining with
  | O => (RetryThrown lastError, [])
  | S remaining' =>
      match task attempt with
      | TaskOk v => (RetryOk v, [Called attempt])
      | TaskErr e =>
          let waits := if (S attempt <? maxAtt)%nat then [BackedOff attempt] else [] in
          let rest := withRetryFrom task maxAtt remaining' (S attempt) (Some e) in
          (rest.1, (Called attempt :: waits ++ rest.2)%list)
      end
  end.

(** [withRetry(task, options)] *)
Definition withRetry {V E : Type} (task : nat -> TaskResult V E)
    (options : RetryOptions) : RetryResult V E * list RetryEvent :=
  withRetryFrom task (maxAttempts options) (maxAttempts options) 0 None.

Definition isCalled (e : RetryEvent) : bool :=
  match e with Called _ => true | BackedOff _ => false end.

Definition calls (events : list RetryEvent) : nat :=
  length (List.filter isCalled events).

Definition waits (events : list RetryEvent) : nat :=
  length (List.filter (fun e => negb (isCalled e)) events).

Lemma pow2_mono (a b : nat) :
  (a <= b)%nat -> (2 ^ Z.of_nat a <= 2 ^ Z.of_nat b)%Z.
Proof. intros Hab. apply Z.pow_le_mono_r; lia. Qed.

Lemma withRetryFrom_counts {V E} (task : nat -> TaskResult V E)
    maxAtt remaining attempt lastError :
  (attempt + remaining = maxAtt)%nat ->
  (calls (withRetryFrom task maxAtt remaining attempt lastError).2 <= remaining)%nat /\
  (match (withRetryFrom task maxAtt remaining attempt lastError).1 with
   | RetryOk _ =>
       S (waits (withRetryFrom task maxAtt remaining attempt lastError).2)
       = calls (withRetryFrom task maxAtt remaining attempt lastError).2
   | RetryThrown _ =>
       calls (withRetryFrom task maxAtt remaining attempt lastError).2 = remaining /\
       waits (withRetryFrom task maxAtt remaining attempt lastError).2
       = Nat.pred remaining
   end).
Proof.
  revert attempt lastError.
  induction remaining as [|remaining IH]; intros attempt lastError Hsum.
  - simpl. done.
  - cbn [withRetryFrom]. destruct (task attempt) as [v|e].
    { unfold calls, waits. simpl. split; [lia|done]. }
    destruct (IH (S attempt) (Some e) ltac:(lia)) as [Hc Hw].
    set (rest := withRetryFrom task maxAtt remaining (S attempt) (Some e)) in *.
    cbn [fst snd]. unfold calls, waits in *.
    destruct (S attempt <? maxAtt)%nat eqn:Hlt; simpl.
    + apply Nat.ltb_lt in Hlt. split; [lia|].
      destruct rest.1; [lia|]. destruct Hw as [-> ->]. lia.
    + apply Nat.ltb_ge in Hlt. assert (remaining = 0%nat) as -> by lia.
      subst rest. simpl. done.
Qed.

End Resilience.

(** X20. The backoff delay never exceeds [maxDelay] (30 s by default),
    is at least the smaller of [2^attempt * baseDelay] and [maxDelay], and
    for one and the same random draw does not shrink from an attempt to a
    later one. *)
Theorem backoff_delay_bounds :
  forall (attempt attempt' : nat) (options : Resilience.RetryOptions) (rnd : Q),
    (0 <= rnd)%Q ->
    (0 <= Resilience.baseDelay options)%Q ->
    (attempt <= attempt')%nat ->
    (Resilience.backoffDelay attempt options rnd
       <= default 30000%Q (Resilience.maxDelay options))%Q /\
    (Qmin (inject_Z (2 ^ Z.of_nat attempt) * Resilience.baseDelay options)
          (default 30000%Q (Resilience.maxDelay options))
       <= Resilience.backoffDelay attempt options rnd)%Q /\
    (Resilience.backoffDelay attempt options rnd
       <= Resilience.backoffDelay attempt' options rnd)%Q.
Proof.
  intros attempt attempt' options rnd Hrnd Hbase Hle.
  unfold Resilience.backoffDelay. cbv zeta.
  set (maxD := default 30000%Q (Resilience.maxDelay options)).
  assert (Hpow : (inject_Z (2 ^ Z.of_nat attempt) * Resilience.baseDelay options
                  <= inject_Z (2 ^ Z.of_nat attempt') * Resilience.baseDelay options)%Q).
  { apply Qmult_le_compat_r; [|done].
    rewrite <- Zle_Qle. by apply Resilience.pow2_mono. }
  assert (Hj : (0 <= rnd * 1000)%Q) by (apply Qmult_le_0_compat; done).
  split_and!.
  - apply Q.le_min_r.
  - apply Q.min_le_compat_r.
    destruct (default true (Resilience.jitter options)); [|apply Qle_refl].
    rewrite <- (Qplus_0_r (inject_Z _ * _)) at 1. by apply Qplus_le_r.
  - apply Q.min_le_compat_r.
    destruct (default true (Resilience.jitter options)); [|done].
    by apply Qplus_le_l.
Qed.

Lemma backoff_delay_bounds_witness :
  (Resilience.backoffDelay 1 Resilience.defaultOptions (1 # 2)
     <= default 30000%Q (Resilience.maxDelay Resilience.defaultOptions))%Q /\
  (Qmin (inject_Z (2 ^ Z.of_nat 1)
         * Resilience.baseDelay Resilience.defaultOptions)
        (default 30000%Q (Resilience.maxDelay Resilience.defaultOptions))
     <= Resilience.backoffDelay 1 Resilience.defaultOptions (1 # 2))%Q /\
  (Resilience.backoffDelay 1 Resilience.defaultOptions (1 # 2)
     <= Resilience.backoffDelay 7 Resilience.defaultOptions (1 # 2))%Q.
Proof.
  apply (backoff_delay_bounds 1 7 Resilience.defaultOptions (1 # 2)).
  - done.
  - done.
  - lia.
Defined.

(** X21. [withRetry] runs the task at most [maxAttempts] times and never
    waits after its last attempt: a run that returns has waited exactly
    once before each call but the first, and a run that throws has made all
    [maxAttempts] calls with [maxAttempts - 1] waits in between. *)
Theorem withRetry_calls_and_waits :
  forall {V E : Type} (task : nat -> Resilience.TaskResult V E)
         (options : Resilience.RetryOptions),
    (Resilience.calls (Resilience.withRetry task options).2
       <= Resilience.maxAttempts options)%nat /\
    match (Resilience.withRetry task options).1 with
    | Resilience.RetryOk _ =>
        S (Resilience.waits (Resilience.withRetry task options).2)
        = Resilience.calls (Resilience.withRetry task options).2
    | Resilience.RetryThrown _ =>
        Resilience.calls (Resilience.withRetry task options).2
          = Resilience.maxAttempts options /\
        Resilience.waits (Resilience.withRetry task options).2
          = Nat.pred (Resilience.maxAttempts options)
    end.
Proof.
  intros V E task options. unfold Resilience.withRetry.
  apply Resilience.withRetryFrom_counts. lia.
Qed.

(** *** [CircuitBreaker] *)

Module CircuitBreaker.

Inductive CircuitState : Type := CLOSED | OPEN | HALF_OPEN.

#[global] Instance CircuitState_eq_dec : EqDecision CircuitState.
Proof. solve_decision. Defined.

Record t : Type := mk {
  failureThreshold : nat;
  resetTimeout : Z;
  state : CircuitState;
  failureCount : nat;
  lastFailureTime : option Z;
  nextHalfOpenTime : option Z
}.

(** [new CircuitBreaker(failureThreshold = 5, resetTimeout = 30000)] *)
Definition create (threshold : option nat) (timeout : option Z) : t :=
  mk (default 5%nat threshold) (default 30000 timeout) CLOSED 0 None None.

Definition withState (s : CircuitState) (cb : t) : t :=
  mk (failureThreshold cb) (resetTimeout cb) s (failureCount cb)
     (lastFailureTime cb) (nextHalfOpenTime cb).

(** [updateState()], at clock reading [now_ms] *)
Definition updateState (now_ms : Z) (cb : t) : t :=
  match state cb, nextHalfOpenTime cb with
  | OPEN, Some next =>
      if negb (next =? 0) && (next <? now_ms) then withState HALF_OPEN cb else cb
  | _, _ => cb
  end.

(** [onSuccess()] *)
Definition onSuccess (cb : t) : t :=
  mk (failureThreshold cb) (resetTimeout cb) CLOSED 0
     (lastFailureTime cb) (nextHalfOpenTime cb).

(** [onFailure()]; its two readings of the clock are [t1] and [t2]. *)
Definition onFailure (t1 t2 : Z) (cb : t) : t :=
  let count := S (failureCount cb) in
  if (failureThreshold cb <=? count)%nat then
    mk (failureThreshold cb) (resetTimeout cb) OPEN count (Some t1)
       (Some (t2 + resetTimeout cb))
  else
    mk (failureThreshold cb) (resetTimeout cb) (state cb) count (Some t1)
       (nextHalfOpenTime cb).

(** One call of [execute(task)]: the clock on entry, what the task would
    do, and the clock readings of [onFailure]. *)
Record Call (V E : Type) : Type := mkCall {
  startClock : Z;
  outcome : Resilience.TaskResult V E;
  failClock1 : Z;
  failClock2 : Z
}.
Arguments mkCall {V E}.
Arguments startClock {V E}.
Arguments outcome {V E}.
Arguments failClock1 {V E}.
Arguments failClock2 {V E}.

(** How [execute] ends: rejected without running the task, or with the
    task's own value or error. *)
Inductive Executed (V E : Type) : Type :=
| Rejected
| Done (v : V)
| Failed (e : E).
Arguments Rejected {V E}.
Arguments Done {V E} v.
Arguments Failed {V E} e.

(** [execute(task)] *)
Definition execute {V E : Type} (call : Call V E) (cb : t) : Executed V E * t :=
  let cb1 := updateState (startClock call) cb in
  match state cb1 with
  | OPEN => (Rejected, cb1)
  | _ =>
      match outcome call with
      | Resilience.TaskOk v => (Done v, onSuccess cb1)
      | Resilience.TaskErr e =>
          (Failed e, onFailure (failClock1 call) (failClock2 call) cb1)
      end
  end.

Fixpoint executeAll {V E : Type} (calls : list (Call V E)) (cb : t)
  : list (Executed V E) * t :=
  match calls with
  | [] => ([], cb)
  | call :: calls' =>
      let r := execute call cb in
      let rest := executeAll calls' r.2 in
      (r.1 :: rest.1, rest.2)
  end.

(** The circuit is closed exactly while fewer than [failureThreshold]
    failures are counted; otherwise the time of the next probe is set. *)
Definition consistent (cb : t) : Prop :=
  match state cb with
  | CLOSED => (failureCount cb < failureThreshold cb)%nat
  | _ => (failureThreshold cb <= failureCount cb)%nat
         /\ is_Some (nextHalfOpenTime cb)
  end.

Lemma updateState_consistent now_ms cb :
  consistent cb -> consistent (updateState now_ms cb).
Proof.
  unfold updateState. intros Hc.
  destruct (state cb) eqn:Hs; try done.
  destruct (nextHalfOpenTime cb) as [next|] eqn:Hn; [|done].
  destruct (negb (next =? 0) && (next <? now_ms)); [|done].
  unfold consistent in *. rewrite Hs in Hc. destruct Hc as [Hge Hsome].
  simpl. split; [done|by rewrite Hn].
Qed.

Lemma execute_consistent {V E} (call : Call V E) cb :
  (1 <= failureThreshold cb)%nat ->
  consistent cb ->
  consistent (execute call cb).2 /\
  failureThreshold (execute call cb).2 = failureThreshold cb /\
  resetTimeout (execute call cb).2 = resetTimeout cb.
Proof.
  intros Hth Hc. destruct cb as [th rt s n lf nx].
  unfold execute, updateState, consistent, onSuccess, onFailure, withState in *.
  simpl in *.
  destruct s; simpl in *.
  - destruct (outcome call); simpl; [split; [lia|done]|].
    destruct (th <=? S n)%nat eqn:Hle; simpl.
    + apply Nat.leb_le in Hle. split; [split; [done|eauto]|done].
    + apply Nat.leb_gt in Hle. split; [lia|done].
  - destruct Hc as [Hge [next ->]].
    destruct (negb (next =? 0) && (next <? startClock call)); simpl.
    + destruct (outcome call); simpl; [split; [lia|done]|].
      assert ((th <=? S n)%nat = true) as -> by (apply Nat.leb_le; lia).
      simpl. split; [split; [lia|eauto]|done].
    + split; [split; [done|eauto]|done].
  - destruct Hc as [Hge Hnext].
    destruct (outcome call); simpl; [split; [lia|done]|].
    assert ((th <=? S n)%nat = true) as -> by (apply Nat.leb_le; lia).
    simpl. split; [split; [lia|eauto]|done].
Qed.

End CircuitBreaker.

(** X22. Circuit breaker, one call on an open circuit (in a consistent
    state, threshold at least 1). Up to and including the probe time the
    call is rejected without running the task and nothing changes. After
    the probe time the task is run once: its success closes the circuit and
    clears the failure count, its failure opens the circuit again with a
    probe time one reset timeout after the failure. *)
Theorem open_circuit_rejects_until_probe_time :
  forall {V E : Type} (call : CircuitBreaker.Call V E) (cb : CircuitBreaker.t)
         (next : Z),
    CircuitBreaker.consistent cb ->
    CircuitBreaker.state cb = CircuitBreaker.OPEN ->
    CircuitBreaker.nextHalfOpenTime cb = Some next ->
    next <> 0 ->
    (CircuitBreaker.startClock call <= next ->
     CircuitBreaker.execute call cb = (CircuitBreaker.Rejected, cb)) /\
    (next < CircuitBreaker.startClock call ->
     match CircuitBreaker.outcome call with
     | Resilience.TaskOk v =>
         (CircuitBreaker.execute call cb).1 = CircuitBreaker.Done v /\
         CircuitBreaker.state (CircuitBreaker.execute call cb).2
           = CircuitBreaker.CLOSED /\
         CircuitBreaker.failureCount (CircuitBreaker.execute call cb).2 = 0%nat
     | Resilience.TaskErr e =>
         (CircuitBreaker.execute call cb).1 = CircuitBreaker.Failed e /\
         CircuitBreaker.state (CircuitBreaker.execute call cb).2
           = CircuitBreaker.OPEN /\
         CircuitBreaker.nextHalfOpenTime (CircuitBreaker.execute call cb).2
           = Some (CircuitBreaker.failClock2 call + CircuitBreaker.resetTimeout cb)
     end).
Proof.
  intros V E call cb next Hc Hs Hn Hnz.
  unfold CircuitBreaker.execute, CircuitBreaker.updateState. rewrite Hs, Hn.
  assert (Hz : negb (next =? 0) = true) by (apply negb_true_iff, Z.eqb_neq; done).
  rewrite Hz. simpl. split.
  - intros Hle. assert ((next <? CircuitBreaker.startClock call) = false) as ->
      by (apply Z.ltb_ge; lia).
    by rewrite Hs.
  - intros Hlt. assert ((next <? CircuitBreaker.startClock call) = true) as ->
      by (apply Z.ltb_lt; lia).
    simpl. destruct (CircuitBreaker.outcome call); simpl; [done|].
    unfold CircuitBreaker.consistent in Hc. rewrite Hs in Hc.
    destruct Hc as [Hge _]. unfold CircuitBreaker.onFailure. simpl.
    assert ((CircuitBreaker.failureThreshold cb
               <=? S (CircuitBreaker.failureCount cb))%nat = true) as ->
      by (apply Nat.leb_le; lia).
    done.
Qed.

Definition trippedBreaker : CircuitBreaker.t :=
  (CircuitBreaker.executeAll
     (replicate 5 (CircuitBreaker.mkCall (V := string) (E := string) 1000
                     (Resilience.TaskErr "boom") 1001 1002))
     (CircuitBreaker.create None None)).2.

Lemma open_circuit_rejects_until_probe_time_witness :
  CircuitBreaker.execute
    (CircuitBreaker.mkCall 31002 (Resilience.TaskOk "ok") 0 0) trippedBreaker
  = (CircuitBreaker.Rejected (V := string) (E := string), trippedBreaker).
Proof.
  refine (proj1 (open_circuit_rejects_until_probe_time
                   (CircuitBreaker.mkCall 31002 (Resilience.TaskOk "ok") 0 0)
                   trippedBreaker 31002 _ _ _ _) _).
  - vm_compute. split; [lia|eauto].
  - reflexivity.
  - reflexivity.
  - done.
  - simpl. lia.
Defined.

(** X23. Tripping. From a closed circuit with no failure counted, a run of
    calls that all fail, all made before any could reach a probe time, runs
    the task for the first [failureThreshold] calls only and rejects every
    later call. *)
Theorem breaker_trips_after_threshold_failures :
  forall {V E : Type} (calls : list (CircuitBreaker.Call V E))
         (cb : CircuitBreaker.t) (horizon : Z),
    (1 <= CircuitBreaker.failureThreshold cb)%nat ->
    CircuitBreaker.state cb = CircuitBreaker.CLOSED ->
    CircuitBreaker.failureCount cb = 0%nat ->
    Forall (fun call =>
              (exists e, CircuitBreaker.outcome call = Resilience.TaskErr e) /\
              CircuitBreaker.startClock call <= horizon /\
              horizon <= CircuitBreaker.failClock2 call
                         + CircuitBreaker.resetTimeout cb) calls ->
    length (List.filter
              (fun r => match r with CircuitBreaker.Rejected => false | _ => true end)
              (CircuitBreaker.executeAll calls cb).1)
    = Nat.min (length calls) (CircuitBreaker.failureThreshold cb).
Proof.
  intros V E calls cb horizon Hth Hs Hcount Hall.
  (* closed phase, generalised over the failures counted so far *)
  assert (Hopen : forall calls cb,
    CircuitBreaker.state cb = CircuitBreaker.OPEN ->
    (forall next, CircuitBreaker.nextHalfOpenTime cb = Some next -> horizon <= next) ->
    Forall (fun call : CircuitBreaker.Call V E =>
              CircuitBreaker.startClock call <= horizon) calls ->
    List.filter
      (fun r => match r with CircuitBreaker.Rejected => false | _ => true end)
      (CircuitBreaker.executeAll calls cb).1 = []).
  { clear. intros calls. induction calls as [|call calls IH]; intros cb Hs Hn Hall;
      [done|].
    apply Forall_cons in Hall as [Hc Hall]. cbn [CircuitBreaker.executeAll fst].
    assert (Hrej : CircuitBreaker.execute call cb = (CircuitBreaker.Rejected, cb)).
    { unfold CircuitBreaker.execute, CircuitBreaker.updateState. rewrite Hs.
      destruct (CircuitBreaker.nextHalfOpenTime cb) as [next|] eqn:Hnext;
        [|by rewrite Hs].
      specialize (Hn next eq_refl).
      assert ((next <? CircuitBreaker.startClock call) = false) as ->
        by (apply Z.ltb_ge; lia).
      rewrite andb_false_r. by rewrite Hs. }
    rewrite Hrej. simpl. by apply IH. }
  assert (Hclosed : forall calls cb,
    CircuitBreaker.state cb = CircuitBreaker.CLOSED ->
    (CircuitBreaker.failureCount cb < CircuitBreaker.failureThreshold cb)%nat ->
    Forall (fun call : CircuitBreaker.Call V E =>
              (exists e, CircuitBreaker.outcome call = Resilience.TaskErr e) /\
              CircuitBreaker.startClock call <= horizon /\
              horizon <= CircuitBreaker.failClock2 call
                         + CircuitBreaker.resetTimeout cb) calls ->
    length (List.filter
              (fun r => match r with CircuitBreaker.Rejected => false | _ => true end)
              (CircuitBreaker.executeAll calls cb).1)
    = Nat.min (length calls)
              (CircuitBreaker.failureThreshold cb - CircuitBreaker.failureCount cb)).
  { clear -Hopen. intros calls. induction calls as [|call calls IH];
      intros cb Hs Hlt Hall; [done|].
    apply Forall_cons in Hall as [([e He] & Hstart & Hhor) Hall].
    cbn [CircuitBreaker.executeAll fst length].
    unfold CircuitBreaker.execute at 1 2, CircuitBreaker.updateState.
    rewrite Hs. cbn [CircuitBreaker.state]. rewrite Hs, He. cbn [fst snd].
    cbn [List.filter]. cbn [length].
    unfold CircuitBreaker.onFailure.
    destruct (CircuitBreaker.failureThreshold cb
                <=? S (CircuitBreaker.failureCount cb))%nat eqn:Hle.
    - apply Nat.leb_le in Hle. rewrite Hopen.
      + cbn -[Nat.min Nat.sub]. lia.
      + done.
      + simpl. intros next [= <-]. lia.
      + eapply Forall_impl; [exact Hall|]. by intros c (_ & ? & _).
    - apply Nat.leb_gt in Hle. rewrite IH.
      + cbn -[Nat.min Nat.sub]. lia.
      + done.
      + simpl. lia.
      + done. }
  rewrite (Hclosed calls cb Hs ltac:(lia) Hall). rewrite Hcount. f_equal. lia.
Qed.

Lemma breaker_trips_after_threshold_failures_witness :
  length (List.filter
            (fun r => match r with CircuitBreaker.Rejected => false | _ => true end)
            (CircuitBreaker.executeAll
               (replicate 8 (CircuitBreaker.mkCall (V := string) (E := string) 1000
                               (Resilience.TaskErr "boom") 1001 1002))
               (CircuitBreaker.create None None)).1)
  = Nat.min
      (length (replicate 8 (CircuitBreaker.mkCall (V := string) (E := string) 1000
                              (Resilience.TaskErr "boom") 1001 1002)))
      (CircuitBreaker.failureThreshold (CircuitBreaker.create None None)).
Proof.
  apply (breaker_trips_after_threshold_failures _
           (CircuitBreaker.create None None) 1000).
  - simpl. lia.
  - reflexivity.
  - reflexivity.
  - repeat constructor; simpl; eauto; lia.
Defined.

(** *** [Semaphore] *)

Module Semaphore.

(** The queue holds the [resolve] callbacks of the pending [acquire]
    promises; a callback is named by the caller that waits on it. *)
Record t : Type := mk {
  maxConcurrency : Z;
  activeCount : Z;
  queue : list nat
}.

(** [new Semaphore(maxConcurrency)] *)
Definition create (maxConcurrency : Z) : t := mk maxConcurrency 0 [].

(** [acquire()] called by [who]; [true] when the promise it returns is
    already resolved. *)
Definition acquire (who : nat) (s : t) : bool * t :=
  if activeCount s <? maxConcurrency s then
    (true, mk (maxConcurrency s) (activeCount s + 1) (queue s))
  else
    (false, mk (maxConcurrency s) (activeCount s) (queue s ++ [who])).

(** [release()]; the result is the caller whose [resolve] is called. *)
Definition release (s : t) : option nat * t :=
  let active := activeCount s - 1 in
  match queue s with
  | [] => (None, mk (maxConcurrency s) active [])
  | next :: rest => (Some next, mk (maxConcurrency s) (active + 1) rest)
  end.

(** [run(task)]: a caller enters with [acquire], its task starts once the
    promise is resolved, and when the task settles the [finally] block calls
    [release]. [running] lists the callers between these two points. *)
Record Sys : Type := mkSys {
  sem : t;
  running : list nat
}.

Inductive Event : Type :=
(** [run(task)] is called by [who] *)
| Enter (who : nat)
(** the task of [who] settles *)
| Leave (who : nat).

Fixpoint takeOut (who : nat) (l : list nat) : option (list nat) :=
  match l with
  | [] => None
  | x :: l' => if decide (x = who) then Some l' else (x ::.) <$> takeOut who l'
  end.

(** One event; [None] when the event cannot happen: only a task that was
    started can settle. *)
Definition step (ev : Event) (sys : Sys) : option Sys :=
  match ev with
  | Enter who =>
      let r := acquire who (sem sys) in
      Some (mkSys r.2 (if r.1 then running sys ++ [who] else running sys))
  | Leave who =>
      match takeOut who (running sys) with
      | None => None
      | Some others =>
          let r := release (sem sys) in
          Some (mkSys r.2 (others ++ option_list r.1))
      end
  end.

Fixpoint steps (evs : list Event) (sys : Sys) : option Sys :=
  match evs with
  | [] => Some sys
  | ev :: evs' =>
      match step ev sys with
      | None => None
      | Some sys' => steps evs' sys'
      end
  end.

Definition entered (evs : list Event) : list nat :=
  omap (fun ev => match ev with Enter who => Some who | Leave _ => None end) evs.

Definition left (evs : list Event) : list nat :=
  omap (fun ev => match ev with Leave who => Some who | Enter _ => None end) evs.

Lemma takeOut_Some who l k : takeOut who l = Some k -> l ≡ₚ who :: k.
Proof.
  revert k. induction l as [|x l IH]; intros k; simpl; [done|].
  destruct (decide (x = who)) as [->|Hne].
  - by intros [= ->].
  - destruct (takeOut who l) as [k'|]; simpl; [|done].
    intros [= <-]. rewrite (IH k' eq_refl). apply Permutation_swap.
Qed.

Definition invariant (cap : Z) (come gone : list nat) (sys : Sys) : Prop :=
  maxConcurrency (sem sys) = cap /\
  activeCount (sem sys) = Z.of_nat (length (running sys)) /\
  activeCount (sem sys) <= cap /\
  (queue (sem sys) <> [] -> activeCount (sem sys) = cap) /\
  come ≡ₚ running sys ++ queue (sem sys) ++ gone.

Lemma step_invariant cap come gone ev sys sys' :
  invariant cap come gone sys ->
  step ev sys = Some sys' ->
  invariant cap (come ++ entered [ev]) (gone ++ left [ev]) sys'.
Proof.
  intros (Hcap & Hact & Hle & Hq & Hperm) Hstep.
  destruct sys as [[cap' active q] run]. simpl in *. subst cap'.
  destruct ev as [who|who]; simpl in Hstep.
  - injection Hstep as <-. unfold acquire, invariant. simpl.
    rewrite app_nil_r.
    destruct (active <? cap) eqn:Hlt; simpl.
    + apply Z.ltb_lt in Hlt. split_and!; [done| | | |].
      * rewrite length_app. simpl. lia.
      * lia.
      * intros Hne. specialize (Hq Hne). lia.
      * rewrite Hperm, <- !app_assoc. f_equiv.
        rewrite (app_assoc q gone [who]). apply Permutation_app_comm.
    + apply Z.ltb_ge in Hlt. split_and!; [done|done|done|lia|].
      rewrite Hperm, <- !app_assoc. do 2 f_equiv. apply Permutation_app_comm.
  - destruct (takeOut who run) as [others|] eqn:Hout; [|done].
    injection Hstep as <-. apply takeOut_Some in Hout.
    pose proof (Permutation_length Hout) as Hlen. simpl in Hlen.
    unfold release, invariant. simpl. rewrite app_nil_r.
    destruct q as [|next rest]; simpl.
    + split_and!; [done| | |done|].
      * rewrite app_nil_r. lia.
      * lia.
      * rewrite Hperm, Hout, app_nil_r. simpl.
        rewrite (app_assoc others gone [who]). apply Permutation_cons_append.
    + split_and!; [done| | | |].
      * rewrite length_app. simpl. lia.
      * lia.
      * intros _. rewrite Hq by done. lia.
      * rewrite Hperm, Hout. simpl.
        rewrite (Permutation_cons_append (others ++ next :: rest ++ gone) who).
        rewrite <- !app_assoc. simpl. by rewrite <- !app_assoc.
Qed.

Lemma steps_invariant cap evs : forall come gone sys sys',
  invariant cap come gone sys ->
  steps evs sys = Some sys' ->
  invariant cap (come ++ entered evs) (gone ++ left evs) sys'.
Proof.
  induction evs as [|ev evs IH]; intros come gone sys sys' Hinv Hrun.
  - simpl in *. injection Hrun as <-. by rewrite !app_nil_r.
  - simpl in Hrun. destruct (step ev sys) as [sys1|] eqn:Hstep; [|done].
    pose proof (step_invariant _ _ _ _ _ _ Hinv Hstep) as Hinv1.
    specialize (IH _ _ _ _ Hinv1 Hrun).
    replace (come ++ entered (ev :: evs))%list
      with ((come ++ entered [ev]) ++ entered evs)%list.
    2:{ rewrite <- app_assoc. f_equal. unfold entered. simpl. by destruct ev. }
    replace (gone ++ left (ev :: evs))%list
      with ((gone ++ left [ev]) ++ left evs)%list.
    2:{ rewrite <- app_assoc. f_equal. unfold left. simpl. by destruct ev. }
    done.
Qed.

End Semaphore.

(** X24. Bulkhead. Callers going through [run] on a fresh semaphore of
    capacity [cap >= 0]: at every moment at most [cap] tasks are between
    their [acquire] and their [release], and [activeCount] is their number;
    a caller waits in the queue only while all [cap] permits are taken; and
    every caller that entered is running, queued or done, each exactly
    once. *)
Theorem semaphore_bounds_running_tasks :
  forall (cap : Z) (evs : list Semaphore.Event) (sys : Semaphore.Sys),
    0 <= cap ->
    Semaphore.steps evs (Semaphore.mkSys (Semaphore.create cap) []) = Some sys ->
    Z.of_nat (length (Semaphore.running sys)) <= cap /\
    Semaphore.activeCount (Semaphore.sem sys)
      = Z.of_nat (length (Semaphore.running sys)) /\
    (Semaphore.queue (Semaphore.sem sys) <> [] ->
     Z.of_nat (length (Semaphore.running sys)) = cap) /\
    Semaphore.entered evs
      ≡ₚ Semaphore.running sys ++ Semaphore.queue (Semaphore.sem sys)
         ++ Semaphore.left evs.
Proof.
  intros cap evs sys Hcap Hrun.
  destruct (Semaphore.steps_invariant cap evs [] []
              (Semaphore.mkSys (Semaphore.create cap) []) sys)
    as (_ & Hact & Hle & Hq & Hperm); [|done|].
  - unfold Semaphore.invariant. simpl. split_and!; done.
  - simpl in Hperm. split_and!; [lia|done| |done].
    intros Hne. rewrite <- Hact. by apply Hq.
Qed.

Definition pollOfFive : list Semaphore.Event :=
  [Semaphore.Enter 1; Semaphore.Enter 2; Semaphore.Enter 3; Semaphore.Enter 4;
   Semaphore.Enter 5; Semaphore.Leave 2].

Lemma semaphore_bounds_running_tasks_witness :
  Semaphore.steps pollOfFive (Semaphore.mkSys (Semaphore.create 3) [])
    = Some (Semaphore.mkSys (Semaphore.mk 3 3 [5%nat]) [1; 3; 4]%nat) /\
  Z.of_nat (length [1; 3; 4]%nat) <= 3.
Proof.
  assert (H : Semaphore.steps pollOfFive (Semaphore.mkSys (Semaphore.create 3) [])
              = Some (Semaphore.mkSys (Semaphore.mk 3 3 [5%nat]) [1; 3; 4]%nat))
    by reflexivity.
  split; [exact H|].
  exact (proj1 (semaphore_bounds_running_tasks 3 pollOfFive _ ltac:(lia) H)).
Defined.

(** ** Quota discovery ([src/services/GoogleAPIService.ts]) *)

Module GoogleAPIService.

(** An entry of [QuotaData.models]; the last three fields are optional. *)
Record ModelEntry : Type := mkEntry {
  percentage : Z;
  resetTime : string;
  displayName : option string;
  maxTokenAllowed : option Z;
  maxCompletionTokens : option Z
}.

(** [ModelInfoRaw]; the remaining fraction is an exact rational here. *)
Record QuotaInfo : Type := mkQuotaInfo {
  remainingFraction : option Q;
  quota_resetTime : option string
}.

Record ModelInfoRaw : Type := mkInfo {
  quotaInfo : option QuotaInfo
}.

(** A model of a catalogue listing, with the fields [fetchQuota] reads. *)
Record CatalogueModel : Type := mkModel {
  name : option string;
  inputTokenLimit : option Z;
  outputTokenLimit : option Z;
  model_displayName : option string
}.

(** What a [fetch] with its [response.json()] comes to: the parsed body of
    an [ok] response, a response that is not [ok], or an exception. *)
Inductive Fetched (A : Type) : Type :=
| Body (data : A)
| NotOk
| Threw.
Arguments Body {A} data.
Arguments NotOk {A}.
Arguments Threw {A}.

(** [result.models]: an object with string keys, which keeps the order of
    insertion as the [Map] of the token manager does. *)
Definition Models : Type := list (string * ModelEntry).

(** [x || fallback] for a number [x] that may be [undefined] *)
Definition numberOr (x : option Z) (fallback : Z) : Z :=
  match x with
  | Some n => if n =? 0 then fallback else n
  | None => fallback
  end.

(** [x || fallback] for a string [x] that may be [undefined] *)
Definition stringOr (x : option string) (fallback : string) : string :=
  match x with
  | Some s => if String.eqb s "" then fallback else s
  | None => fallback
  end.

(** The body of the loop over [Object.entries(data.models || {})] *)
Definition telemetryStep (result : Models) (entry : string * ModelInfoRaw)
  : Models :=
  let cleanName := Js.stripModelsPrefix entry.1 in
  match quotaInfo entry.2 with
  | Some info =>
      let fraction := default 0%Q (remainingFraction info) in
      TokenManagerService.mapSet cleanName
        (mkEntry (Qfloor (fraction * 100)) (stringOr (quota_resetTime info) "")
                 None None None)
        result
  | None => result
  end.

(** Bus A, after [fetchProjectId], which only shapes the request. *)
Definition busA (response : Fetched (option (list (string * ModelInfoRaw))))
    (result : Models) : Models :=
  match response with
  | Body models => foldl telemetryStep result (default [] models)
  | NotOk | Threw => result
  end.

Definition contextWindowOf (modelId : string) (m : CatalogueModel) : Z :=
  let contextWindow := numberOr (inputTokenLimit m) 32000 in
  let contextWindow :=
    if Js.includes "gemini-1.5-pro" modelId then 2000000
    else if Js.includes "gemini-1.5-flash" modelId
            || Js.includes "gemini-2.0-flash" modelId then 1000000
    else contextWindow in
  Z.min contextWindow 2000000.

Definition completionTokensOf (m : CatalogueModel) : Z :=
  match outputTokenLimit m with
  | Some n => if n =? 0 then 8192 else Z.min n 128000
  | None => 8192
  end.

(** The callback of [data.models.forEach] *)
Definition catalogueStep (result : Models) (m : CatalogueModel) : Models :=
  match Js.stripModelsPrefix <$> name m with
  | None => result
  | Some modelId =>
      if String.eqb modelId "" then result
      else
        let finalContext := contextWindowOf modelId m in
        let completionTokens := completionTokensOf m in
        let shown := stringOr (model_displayName m) modelId in
        match TokenManagerService.mapGet modelId result with
        | Some known =>
            TokenManagerService.mapSet modelId
              (mkEntry (percentage known) (resetTime known) (Some shown)
                       (Some finalContext) (Some completionTokens))
              result
        | None =>
            TokenManagerService.mapSet modelId
              (mkEntry 100 "" (Some shown) (Some finalContext)
                       (Some completionTokens))
              result
        end
  end.

(** One catalogue (bus B or C) *)
Definition catalogue (response : Fetched (option (list CatalogueModel)))
    (result : Models) : Models :=
  match response with
  | Body models => foldl catalogueStep result (default [] models)
  | NotOk | Threw => result
  end.

(** [fetchQuota(accessToken)]: the telemetry, then the [v1] and the [v1beta]
    catalogue. *)
Definition fetchQuota
    (telemetry : Fetched (option (list (string * ModelInfoRaw))))
    (v1 v1beta : Fetched (option (list CatalogueModel))) : Models :=
  catalogue v1beta (catalogue v1 (busA telemetry [])).

(** What a catalogue may do to an entry. *)
Definition sameTelemetry (a b : ModelEntry) : Prop :=
  percentage b = percentage a /\ resetTime b = resetTime a.

Definition fromCatalogue (e : ModelEntry) : Prop :=
  percentage e = 100 /\ resetTime e = "".

Definition boundedMetadata (e : ModelEntry) : Prop :=
  match displayName e, maxTokenAllowed e, maxCompletionTokens e with
  | None, None, None => True
  | Some shown, Some context, Some completion =>
      shown <> "" /\ context <= 2000000 /\ completion <= 128000
  | _, _, _ => False
  end.

Lemma catalogueStep_lookup result m k :
  match TokenManagerService.mapGet k result with
  | Some a =>
      exists b, TokenManagerService.mapGet k (catalogueStep result m) = Some b /\
                sameTelemetry a b
  | None =>
      forall b, TokenManagerService.mapGet k (catalogueStep result m) = Some b ->
                fromCatalogue b
  end.
Proof.
  unfold catalogueStep.
  destruct (name m) as [n|]; simpl.
  2:{ destruct (TokenManagerService.mapGet k result) eqn:Hk; [|done].
      eexists; split; done. }
  set (modelId := Js.stripModelsPrefix n).
  destruct (String.eqb modelId "").
  { destruct (TokenManagerService.mapGet k result) eqn:Hk; [|done].
    eexists; split; done. }
  destruct (decide (modelId = k)) as [<-|Hne].
  - destruct (TokenManagerService.mapGet modelId result) as [known|] eqn:Hk.
    + rewrite TokenManagerService.mapGet_mapSet_eq. eexists; split; done.
    + intros b. rewrite TokenManagerService.mapGet_mapSet_eq. by intros [= <-].
  - cbv zeta.
    destruct (TokenManagerService.mapGet modelId result) as [known|] eqn:Hm;
      rewrite TokenManagerService.mapGet_mapSet_ne by done;
      (destruct (TokenManagerService.mapGet k result) eqn:Hk; [|done]);
      eexists; split; done.
Qed.

Lemma catalogue_lookup response : forall result k,
  match TokenManagerService.mapGet k result with
  | Some a =>
      exists b, TokenManagerService.mapGet k (catalogue response result) = Some b /\
                sameTelemetry a b
  | None =>
      forall b, TokenManagerService.mapGet k (catalogue response result) = Some b ->
                fromCatalogue b
  end.
Proof.
  assert (Hfold : forall models result k,
    match TokenManagerService.mapGet k result with
    | Some a =>
        exists b, TokenManagerService.mapGet k (foldl catalogueStep result models)
                  = Some b /\ sameTelemetry a b
    | None =>
        forall b, TokenManagerService.mapGet k (foldl catalogueStep result models)
                  = Some b -> fromCatalogue b
    end).
  { induction models as [|m models IH]; intros result k; simpl.
    - destruct (TokenManagerService.mapGet k result) eqn:Hk; [|done].
      eexists; split; done.
    - pose proof (catalogueStep_lookup result m k) as Hstep.
      pose proof (IH (catalogueStep result m) k) as Hrest.
      destruct (TokenManagerService.mapGet k result) as [a|].
      + destruct Hstep as (b & Hb & Hab). rewrite Hb in Hrest.
        destruct Hrest as (c & Hc & Hbc). exists c. split; [done|].
        destruct Hab, Hbc. split; congruence.
      + destruct (TokenManagerService.mapGet k (catalogueStep result m)) as [b|];
          [|done].
        intros c Hc. destruct Hrest as (c' & Hc' & Hbc).
        rewrite Hc in Hc'. injection Hc' as <-.
        destruct (Hstep b eq_refl), Hbc. split; congruence. }
  intros result k. destruct response as [[models|]| |]; simpl; try apply Hfold.
  all: destruct (TokenManagerService.mapGet k result) eqn:Hk; [|done].
  all: eexists; split; done.
Qed.

Lemma mapSet_Forall {V} (P : V -> Prop) k v (m : list (string * V)) :
  Forall (fun e => P e.2) m -> P v ->
  Forall (fun e => P e.2) (TokenManagerService.mapSet k v m).
Proof.
  intros Hm Hv. induction m as [|[k' v'] m IH]; simpl.
  - by repeat constructor.
  - apply Forall_cons in Hm as [Hv' Hm].
    destruct (String.eqb k' k); constructor; auto.
Qed.

Lemma mapGet_Forall {V} (P : V -> Prop) k v (m : list (string * V)) :
  Forall (fun e => P e.2) m -> TokenManagerService.mapGet k m = Some v -> P v.
Proof.
  intros Hm Hk. apply TokenManagerService.mapGet_elem_of in Hk.
  by apply (proj1 (Forall_forall _ _) Hm (k, v)).
Qed.

(** A property of entries that no catalogue step breaks. *)
Lemma catalogue_Forall (P : ModelEntry -> Prop) response :
  (forall known shown context completion,
     P known -> shown <> "" -> context <= 2000000 -> completion <= 128000 ->
     P (mkEntry (percentage known) (resetTime known) (Some shown)
                (Some context) (Some completion))) ->
  (forall shown context completion,
     shown <> "" -> context <= 2000000 -> completion <= 128000 ->
     P (mkEntry 100 "" (Some shown) (Some context) (Some completion))) ->
  forall result,
    Forall (fun e => P e.2) result ->
    Forall (fun e => P e.2) (catalogue response result).
Proof.
  intros Hupd Hnew.
  assert (Hstep : forall result m,
    Forall (fun e => P e.2) result ->
    Forall (fun e => P e.2) (catalogueStep result m)).
  { intros result m Hres. unfold catalogueStep.
    destruct (name m) as [n|]; simpl; [|done].
    set (modelId := Js.stripModelsPrefix n).
    destruct (String.eqb modelId "") eqn:Hid; [done|].
    apply String.eqb_neq in Hid.
    assert (Hshown : stringOr (model_displayName m) modelId <> "").
    { unfold stringOr. destruct (model_displayName m) as [d|]; [|done].
      destruct (String.eqb d "") eqn:Hd; [done|]. by apply String.eqb_neq. }
    assert (Hctx : contextWindowOf modelId m <= 2000000)
      by (unfold contextWindowOf; lia).
    assert (Hcomp : completionTokensOf m <= 128000).
    { unfold completionTokensOf. destruct (outputTokenLimit m) as [n'|]; [|lia].
      destruct (n' =? 0); lia. }
    cbv zeta.
    destruct (TokenManagerService.mapGet modelId result) as [known|] eqn:Hk;
      apply mapSet_Forall; auto.
    apply Hupd; auto. by apply (mapGet_Forall P modelId known result). }
  assert (Hfold : forall models result,
    Forall (fun e => P e.2) result ->
    Forall (fun e => P e.2) (foldl catalogueStep result models)).
  { induction models as [|m models IH]; intros result Hres; simpl; [done|].
    apply IH. by apply Hstep. }
  intros result Hres. destruct response as [[models|]| |]; simpl; auto.
Qed.

Lemma busA_Forall (P : ModelEntry -> Prop) response :
  (forall name info,
     match response with
     | Body (Some models) => (name, mkInfo (Some info)) ∈ models
     | _ => False
     end ->
     P (mkEntry (Qfloor (default 0%Q (remainingFraction info) * 100))
                (stringOr (quota_resetTime info) "") None None None)) ->
  Forall (fun e => P e.2) (busA response []).
Proof.
  intros HP. destruct response as [[models|]| |]; simpl; try constructor.
  assert (Hfold : forall todo result,
    (forall x, x ∈ todo -> x ∈ models) ->
    Forall (fun e => P e.2) result ->
    Forall (fun e => P e.2) (foldl telemetryStep result todo)).
  { induction todo as [|[n [qi]] todo IH]; intros result Hsub Hres; simpl; [done|].
    apply IH; [intros x Hx; apply Hsub; by right|].
    unfold telemetryStep. simpl. destruct qi as [info|]; [|done].
    apply mapSet_Forall; [done|]. apply (HP n). apply Hsub. by left. }
  by apply Hfold.
Qed.

End GoogleAPIService.

(** Every remaining fraction the telemetry reports lies between 0 and 1. *)
Definition fractionsInRange
    (telemetry : GoogleAPIService.Fetched
                   (option (list (string * GoogleAPIService.ModelInfoRaw))))
  : Prop :=
  match telemetry with
  | GoogleAPIService.Body (Some models) =>
      Forall (fun entry =>
                match GoogleAPIService.quotaInfo entry.2 with
                | Some info =>
                    match GoogleAPIService.remainingFraction info with
                    | Some f => (0 <= f)%Q /\ (f <= 1)%Q
                    | None => True
                    end
                | None => True
                end) models
  | _ => True
  end.

(** X25. The catalogues never overwrite what the telemetry measured. A
    model the telemetry reported with quota information keeps that
    percentage and reset time in the result of [fetchQuota], whatever the
    two catalogue listings contain; every other model of the result comes
    from a catalogue and stands at 100 percent with an empty reset time. *)
Theorem catalogues_keep_telemetry :
  forall (telemetry : GoogleAPIService.Fetched
                        (option (list (string * GoogleAPIService.ModelInfoRaw))))
         (v1 v1beta : GoogleAPIService.Fetched
                        (option (list GoogleAPIService.CatalogueModel)))
         (modelId : string),
    match TokenManagerService.mapGet modelId (GoogleAPIService.busA telemetry []) with
    | Some measured =>
        exists e,
          TokenManagerService.mapGet modelId
            (GoogleAPIService.fetchQuota telemetry v1 v1beta) = Some e /\
          GoogleAPIService.percentage e = GoogleAPIService.percentage measured /\
          GoogleAPIService.resetTime e = GoogleAPIService.resetTime measured
    | None =>
        forall e,
          TokenManagerService.mapGet modelId
            (GoogleAPIService.fetchQuota telemetry v1 v1beta) = Some e ->
          GoogleAPIService.percentage e = 100 /\
          GoogleAPIService.resetTime e = ""
    end.
Proof.
  intros telemetry v1 v1beta modelId. unfold GoogleAPIService.fetchQuota.
  set (r0 := GoogleAPIService.busA telemetry []).
  pose proof (GoogleAPIService.catalogue_lookup v1 r0 modelId) as H1.
  pose proof (GoogleAPIService.catalogue_lookup v1beta
                (GoogleAPIService.catalogue v1 r0) modelId) as H2.
  destruct (TokenManagerService.mapGet modelId r0) as [a|].
  - destruct H1 as (b & Hb & Hab). rewrite Hb in H2.
    destruct H2 as (c & Hc & Hbc). exists c. split; [done|].
    destruct Hab, Hbc. split; congruence.
  - destruct (TokenManagerService.mapGet modelId (GoogleAPIService.catalogue v1 r0))
      as [b|].
    + intros c Hc. destruct H2 as (c' & Hc' & Hbc).
      rewrite Hc in Hc'. injection Hc' as <-.
      destruct (H1 b eq_refl), Hbc. split; congruence.
    + exact H2.
Qed.

(** X26. When the remaining fractions reported by the telemetry lie
    between 0 and 1, every percentage [fetchQuota] returns lies between 0
    and 100. *)
Theorem quota_percentages_in_range :
  forall (telemetry : GoogleAPIService.Fetched
                        (option (list (string * GoogleAPIService.ModelInfoRaw))))
         (v1 v1beta : GoogleAPIService.Fetched
                        (option (list GoogleAPIService.CatalogueModel))),
    fractionsInRange telemetry ->
    Forall (fun e => 0 <= GoogleAPIService.percentage e.2 <= 100)
           (GoogleAPIService.fetchQuota telemetry v1 v1beta).
Proof.
  intros telemetry v1 v1beta Hrange. unfold GoogleAPIService.fetchQuota.
  do 2 (apply (GoogleAPIService.catalogue_Forall
                 (fun e => 0 <= GoogleAPIService.percentage e <= 100));
        [by intros | by intros; simpl; lia |]).
  apply (GoogleAPIService.busA_Forall
           (fun e => 0 <= GoogleAPIService.percentage e <= 100)).
  intros n info Hin. cbn [GoogleAPIService.percentage].
  destruct telemetry as [[models|]| |]; try done.
  pose proof (proj1 (Forall_forall _ _) Hrange _ Hin) as Hf.
  cbn [snd GoogleAPIService.quotaInfo] in Hf.
  destruct (GoogleAPIService.remainingFraction info) as [f|].
  - change (default 0%Q (Some f)) with f. destruct Hf as [H0 H1]. split.
    + change 0 with (Qfloor 0). apply Qfloor_resp_le.
      apply Qmult_le_0_compat; done.
    + change 100 with (Qfloor 100). apply Qfloor_resp_le.
      apply Qle_trans with (1 * 100)%Q; [by apply Qmult_le_compat_r|].
      by vm_compute.
  - by vm_compute.
Qed.

Definition measuredQuota
  : GoogleAPIService.Fetched (option (list (string * GoogleAPIService.ModelInfoRaw))) :=
  GoogleAPIService.Body
    (Some [("models/gemini-2.5-pro",
            GoogleAPIService.mkInfo
              (Some (GoogleAPIService.mkQuotaInfo (Some (29 # 100)%Q)
                       (Some "2026-01-01T00:00:00Z"))));
           ("gemini-3-flash", GoogleAPIService.mkInfo None);
           ("gemini-3-pro",
            GoogleAPIService.mkInfo
              (Some (GoogleAPIService.mkQuotaInfo None None)))]).

Definition listedModels
  : GoogleAPIService.Fetched (option (list GoogleAPIService.CatalogueModel)) :=
  GoogleAPIService.Body
    (Some [GoogleAPIService.mkModel (Some "models/gemini-2.5-pro")
             (Some 1048576) (Some 65536) (Some "Gemini 2.5 Pro");
           GoogleAPIService.mkModel (Some "models/gemini-1.5-pro-002")
             (Some 8000000) (Some 0) None;
           GoogleAPIService.mkModel None (Some 1) (Some 1) (Some "nameless")]).

Lemma quota_percentages_in_range_witness :
  Forall (fun e => 0 <= GoogleAPIService.percentage e.2 <= 100)
         (GoogleAPIService.fetchQuota measuredQuota listedModels
            GoogleAPIService.Threw).
Proof.
  apply (quota_percentages_in_range measuredQuota listedModels
           GoogleAPIService.Threw).
  unfold fractionsInRange, measuredQuota. repeat constructor; by vm_compute.
Defined.

(** X27. Metadata of [fetchQuota]. An entry either has none of
    [displayName], [maxTokenAllowed] and [maxCompletionTokens], or all
    three: a non-empty display name, a context window of at most 2,000,000
    tokens and a completion limit of at most 128,000 tokens. *)
Theorem quota_metadata_bounded :
  forall (telemetry : GoogleAPIService.Fetched
                        (option (list (string * GoogleAPIService.ModelInfoRaw))))
         (v1 v1beta : GoogleAPIService.Fetched
                        (option (list GoogleAPIService.CatalogueModel))),
    Forall (fun e => GoogleAPIService.boundedMetadata e.2)
           (GoogleAPIService.fetchQuota telemetry v1 v1beta).
Proof.
  intros telemetry v1 v1beta. unfold GoogleAPIService.fetchQuota.
  do 2 (apply (GoogleAPIService.catalogue_Forall GoogleAPIService.boundedMetadata);
        [by intros | by intros |]).
  by apply (GoogleAPIService.busA_Forall GoogleAPIService.boundedMetadata).
Qed.

(** ** Process detection ([isProcessRunning] and [_waitForProcessExit] of the
    process handler) *)

Module ProcessHandler.

Definition HELPER_PATTERNS : list string :=
  ["helper"; "plugin"; "renderer"; "gpu"; "crashpad"; "utility"; "audio";
   "sandbox"; "language_server"].

(** [isHelperProcess(name, cmd)] *)
Definition isHelperProcess (name cmd : string) : bool :=
  let nameLower := Js.toLowerCase name in
  let cmdLower := Js.toLowerCase cmd in
  if Js.includes "--type=" cmdLower then true
  else if existsb (fun pattern => Js.includes pattern nameLower) HELPER_PATTERNS
  then true
  else if Js.includes "crashpad" cmdLower then true
  else false.

(** A thrown value: whether it is an [Error], its [message] and [code]. *)
Record Thrown : Type := mkThrown {
  instanceofError : bool;
  message : string;
  code : option Z
}.

(** [isPgrepNoMatchError(error)] *)
Definition isPgrepNoMatchError (error : Thrown) : bool :=
  if negb (instanceofError error) then false
  else
    let message := Js.toLowerCase (message error) in
    let hasPgrep := Js.includes "pgrep" message && Js.includes "antigravity" message in
    hasPgrep && match code error with Some c => c =? 1 | None => false end.

(** [ProcessInfo] of [find-process]; [pid] is [None] when it is not a
    number. *)
Record ProcessInfo : Type := mkProc {
  pid : option Z;
  name : option string;
  cmd : option string
}.

Inductive Search : Type :=
| Found (matches : list ProcessInfo)
| Raised (error : Thrown).

(** What a call of [isProcessRunning] sees of the machine. *)
Record Env : Type := mkEnv {
  platform : string;
  currentPid : Z;
  findProcess : string -> Search
}.

(** [processMap]: a [Map] from pid to process. *)
Fixpoint mapSet (k : Z) (v : ProcessInfo) (m : list (Z * ProcessInfo))
  : list (Z * ProcessInfo) :=
  match m with
  | [] => [(k, v)]
  | (k', v') :: m' => if k' =? k then (k, v) :: m' else (k', v') :: mapSet k v m'
  end.

Definition addMatches (matches : list ProcessInfo) (m : list (Z * ProcessInfo))
  : list (Z * ProcessInfo) :=
  foldl (fun m proc =>
           match pid proc with
           | Some p => mapSet p proc m
           | None => m
           end) m matches.

(** The loop over [searchNames]; [None] when an error is thrown on. *)
Fixpoint search (env : Env) (searchNames : list string)
    (processMap : list (Z * ProcessInfo)) (sawNoMatch : bool)
  : option (list (Z * ProcessInfo) * bool) :=
  match searchNames with
  | [] => Some (processMap, sawNoMatch)
  | searchName :: rest =>
      match findProcess env searchName with
      | Found matches => search env rest (addMatches matches processMap) sawNoMatch
      | Raised error =>
          if isPgrepNoMatchError error then search env rest processMap true
          else None
      end
  end.

(** The body of the loop over [processes]: [true] for [return true],
    [false] for going on to the next process. *)
Definition counts (env : Env) (includeHelpers : bool) (proc : ProcessInfo) : bool :=
  if match pid proc with Some p => p =? currentPid env | None => false end
  then false
  else
    let name := match name proc with Some s => Js.toLowerCase s | None => "" end in
    let cmd := match cmd proc with Some s => Js.toLowerCase s | None => "" end in
    if Js.includes "manager" name || Js.includes "manager" cmd
       || Js.includes "antigravity-manager" cmd
    then false
    else if negb includeHelpers && isHelperProcess name cmd then false
    else if String.eqb (platform env) "darwin" then
      if Js.includes "antigravity.app" cmd then true
      else if String.eqb name "antigravity" then
        if negb includeHelpers && isHelperProcess name cmd then false else true
      else false
    else if String.eqb (platform env) "win32" then
      String.eqb name "antigravity.exe" || String.eqb name "antigravity"
    else
      (Js.includes "antigravity" name || Js.includes "/antigravity" cmd)
      && negb (Js.includes "tools" name).

Fixpoint scan (env : Env) (includeHelpers : bool) (processes : list ProcessInfo)
  : bool :=
  match processes with
  | [] => false
  | proc :: rest =>
      if counts env includeHelpers proc then true
      else scan env includeHelpers rest
  end.

(** [isProcessRunning(includeHelpers)]; an error thrown on is caught and
    answered by [false]. *)
Definition isProcessRunning (env : Env) (includeHelpers : bool) : bool :=
  match search env ["Antigravity"; "antigravity"] [] false with
  | Some (processMap, _) => scan env includeHelpers processMap.*2
  | None => false
  end.

(** [_waitForProcessExit(timeoutMs)] *)
Inductive Waited : Type :=
| Exited
| TimedOut.

(** The loop, [startTime] being read; each round reads the clock and, within
    the timeout, looks at the machine as it is then. [None]: the rounds
    given do not end the loop. *)
Fixpoint waitRounds (timeoutMs startTime : Z) (rounds : list (Z * Env))
  : option Waited :=
  match rounds with
  | [] => None
  | (now, env) :: rest =>
      if now - startTime <? timeoutMs then
        if negb (isProcessRunning env true) then Some Exited
        else waitRounds timeoutMs startTime rest
      else Some TimedOut
  end.

Lemma counts_helpers env proc :
  counts env false proc = true -> counts env true proc = true.
Proof.
  unfold counts.
  destruct (match pid proc with Some p => p =? currentPid env | None => false end);
    [done|].
  cbv zeta.
  destruct (_ || _ || _); [done|].
  simpl. destruct (isHelperProcess _ _); [done|]. done.
Qed.

Lemma scan_helpers env processes :
  scan env false processes = true -> scan env true processes = true.
Proof.
  induction processes as [|proc rest IH]; simpl; [done|].
  destruct (counts env false proc) eqn:Hc.
  - by rewrite (counts_helpers _ _ Hc).
  - intros H. rewrite (IH H). by destruct (counts env true proc).
Qed.

Lemma isProcessRunning_helpers env :
  isProcessRunning env false = true -> isProcessRunning env true = true.
Proof.
  unfold isProcessRunning.
  destruct (search env _ [] false) as [[processMap saw]|]; [|done].
  apply scan_helpers.
Qed.

Lemma scan_true env includeHelpers processes :
  scan env includeHelpers processes = true <->
  exists proc, proc ∈ processes /\ counts env includeHelpers proc = true.
Proof.
  induction processes as [|proc rest IH]; simpl.
  - split; [done|]. intros (p & Hp & _). by apply elem_of_nil in Hp.
  - destruct (counts env includeHelpers proc) eqn:Hc.
    + split; [|done]. intros _. exists proc. split; [left|done].
    + rewrite IH. split.
      * intros (p & Hp & Hcp). exists p. split; [by right|done].
      * intros (p & Hp & Hcp). apply elem_of_cons in Hp as [->|Hp].
        -- by rewrite Hc in Hcp.
        -- by exists p.
Qed.

Lemma elem_of_mapSet k v m (e : Z * ProcessInfo) :
  e ∈ mapSet k v m -> e = (k, v) \/ e ∈ m.
Proof.
  induction m as [|[k' v'] m IH]; simpl.
  - intros He. apply list_elem_of_singleton in He. by left.
  - destruct (k' =? k).
    + intros He. apply elem_of_cons in He as [->|He]; [by left|].
      right. by right.
    + intros He. apply elem_of_cons in He as [->|He]; [right; by left|].
      destruct (IH He) as [->|Hin]; [by left|right; by right].
Qed.

Lemma elem_of_addMatches matches : forall m e,
  e ∈ addMatches matches m ->
  e ∈ m \/ (e.2 ∈ matches /\ pid e.2 = Some e.1).
Proof.
  unfold addMatches.
  induction matches as [|proc matches IH]; intros m e; simpl; [by left|].
  intros He. apply IH in He as [He|[He Hp]].
  - destruct (pid proc) as [p|] eqn:Hp; [|by left].
    apply elem_of_mapSet in He as [->|He]; [|by left].
    right. split; [by left|done].
  - right. split; [by right|done].
Qed.

Lemma elem_of_search env : forall searchNames m saw m' saw' e,
  search env searchNames m saw = Some (m', saw') ->
  e ∈ m' ->
  e ∈ m \/
  exists searchName matches,
    searchName ∈ searchNames /\
    findProcess env searchName = Found matches /\
    e.2 ∈ matches /\ pid e.2 = Some e.1.
Proof.
  induction searchNames as [|n rest IH]; intros m saw m' saw' e; simpl.
  - intros [= <- <-] He. by left.
  - destruct (findProcess env n) as [matches|error] eqn:Hfind.
    + intros Hs He. destruct (IH _ _ _ _ _ Hs He) as [Hin|Hlater].
      * apply elem_of_addMatches in Hin as [Hin|[Hin Hp]]; [by left|].
        right. exists n, matches. split_and!; [by left|done|done|done].
      * destruct Hlater as (n' & ms & Hn' & Hf & Hin & Hp).
        right. exists n', ms. split_and!; [by right|done|done|done].
    + destruct (isPgrepNoMatchError error); [|done].
      intros Hs He. destruct (IH _ _ _ _ _ Hs He) as [Hin|Hlater]; [by left|].
      destruct Hlater as (n' & ms & Hn' & Hf & Hin & Hp).
      right. exists n', ms. split_and!; [by right|done|done|done].
Qed.

(** The words that mark the manager's own processes. *)
Definition isManager (proc : ProcessInfo) : bool :=
  let name := match name proc with Some s => Js.toLowerCase s | None => "" end in
  let cmd := match cmd proc with Some s => Js.toLowerCase s | None => "" end in
  Js.includes "manager" name || Js.includes "manager" cmd.

Lemma counts_foreign env includeHelpers proc :
  counts env includeHelpers proc = true ->
  pid proc <> Some (currentPid env) /\ isManager proc = false.
Proof.
  unfold counts, isManager. cbv zeta.
  destruct (pid proc) as [p|].
  - destruct (p =? currentPid env) eqn:Hp; [done|].
    apply Z.eqb_neq in Hp.
    destruct (Js.includes "manager" _ || Js.includes "manager" _) eqn:Hm;
      [done|].
    intros _. split; [congruence|done].
  - destruct (Js.includes "manager" _ || Js.includes "manager" _) eqn:Hm;
      [done|].
    done.
Qed.

Lemma waitRounds_spec timeoutMs startTime rounds :
  match waitRounds timeoutMs startTime rounds with
  | Some Exited =>
      exists i now env,
        rounds !! i = Some (now, env) /\ now - startTime < timeoutMs /\
        isProcessRunning env true = false
  | Some TimedOut =>
      exists i now env,
        rounds !! i = Some (now, env) /\ timeoutMs <= now - startTime
  | None =>
      Forall (fun round => round.1 - startTime < timeoutMs) rounds
  end.
Proof.
  induction rounds as [|[now env] rounds IH]; simpl; [constructor|].
  destruct (now - startTime <? timeoutMs) eqn:Hlt.
  - apply Z.ltb_lt in Hlt.
    destruct (isProcessRunning env true) eqn:Hrun; simpl.
    + destruct (waitRounds timeoutMs startTime rounds) as [[]|].
      * destruct IH as (i & n & e & H). by exists (S i), n, e.
      * destruct IH as (i & n & e & H). by exists (S i), n, e.
      * by constructor.
    + by exists 0%nat, now, env.
  - apply Z.ltb_ge in Hlt. by exists 0%nat, now, env.
Qed.

End ProcessHandler.

Definition noMatch : ProcessHandler.Thrown :=
  ProcessHandler.mkThrown true
    "Command failed: pgrep -fi Antigravity" (Some 1).

(** A Linux machine on which the application runs beside the manager; the
    manager's own pid is 100. *)
Definition linuxEnv : ProcessHandler.Env :=
  ProcessHandler.mkEnv "linux" 100
    (fun searchName =>
       if String.eqb searchName "Antigravity" then ProcessHandler.Raised noMatch
       else ProcessHandler.Found
              [ProcessHandler.mkProc (Some 100) (Some "antigravity")
                 (Some "/opt/Antigravity/antigravity");
               ProcessHandler.mkProc (Some 4243) (Some "antigravity")
                 (Some "/usr/share/antigravity/antigravity --type=renderer");
               ProcessHandler.mkProc (Some 4242) (Some "Antigravity")
                 (Some "/usr/share/antigravity/antigravity")]).

(** The same machine after the application has gone. *)
Definition quietLinuxEnv : ProcessHandler.Env :=
  ProcessHandler.mkEnv "linux" 100
    (fun searchName =>
       if String.eqb searchName "Antigravity" then ProcessHandler.Raised noMatch
       else ProcessHandler.Found
              [ProcessHandler.mkProc (Some 100) (Some "antigravity")
                 (Some "/opt/Antigravity/antigravity")]).

(** X28. Including the helper processes only widens the check: whenever
    [isProcessRunning(false)] finds the application running,
    [isProcessRunning(true)] on the same machine finds it too. *)
Theorem helpers_check_is_stronger :
  forall env : ProcessHandler.Env,
    ProcessHandler.isProcessRunning env false = true ->
    ProcessHandler.isProcessRunning env true = true.
Proof. exact ProcessHandler.isProcessRunning_helpers. Qed.

Lemma helpers_check_is_stronger_witness :
  ProcessHandler.isProcessRunning linuxEnv true = true.
Proof.
  apply (helpers_check_is_stronger linuxEnv). reflexivity.
Defined.

(** X29. A positive answer of [isProcessRunning] always rests on a process
    that one of the two searches found, that has a numeric pid other than
    the manager's own, and whose name and command line do not contain
    [manager]. *)
Theorem running_means_foreign_process :
  forall (env : ProcessHandler.Env) (includeHelpers : bool),
    ProcessHandler.isProcessRunning env includeHelpers = true ->
    exists searchName matches proc,
      searchName ∈ ["Antigravity"; "antigravity"] /\
      ProcessHandler.findProcess env searchName = ProcessHandler.Found matches /\
      proc ∈ matches /\
      is_Some (ProcessHandler.pid proc) /\
      ProcessHandler.pid proc <> Some (ProcessHandler.currentPid env) /\
      ProcessHandler.isManager proc = false.
Proof.
  intros env includeHelpers. unfold ProcessHandler.isProcessRunning.
  destruct (ProcessHandler.search env _ [] false) as [[processMap saw]|] eqn:Hs;
    [|done].
  intros Hscan. apply ProcessHandler.scan_true in Hscan as (proc & Hin & Hc).
  apply list_elem_of_fmap in Hin as ([p proc'] & -> & Hin). cbn [snd] in Hc.
  destruct (ProcessHandler.elem_of_search _ _ _ _ _ _ _ Hs Hin)
    as [Hnil|(n & ms & Hn & Hf & Hm & Hp)]; [by apply elem_of_nil in Hnil|].
  cbn [fst snd] in Hm, Hp. apply ProcessHandler.counts_foreign in Hc as [Hpid Hman].
  exists n, ms, proc'. split_and!; done.
Qed.

Lemma running_means_foreign_process_witness :
  exists searchName matches proc,
    searchName ∈ ["Antigravity"; "antigravity"] /\
    ProcessHandler.findProcess linuxEnv searchName = ProcessHandler.Found matches /\
    proc ∈ matches /\
    is_Some (ProcessHandler.pid proc) /\
    ProcessHandler.pid proc <> Some (ProcessHandler.currentPid linuxEnv) /\
    ProcessHandler.isManager proc = false.
Proof.
  apply (running_means_foreign_process linuxEnv false). reflexivity.
Defined.

(** X30. [_waitForProcessExit] with a clock that advances by at least
    500 ms from one round to the next: the wait ends within
    [timeoutMs / 500 + 1] rounds. It returns only after a round, begun
    before the timeout, in which no process was found, helper or not; it
    throws only after reading a clock at least [timeoutMs] past the
    start. *)
Theorem wait_for_exit_ends :
  forall (timeoutMs startTime : Z) (rounds : list (Z * ProcessHandler.Env)),
    (forall i now env,
       rounds !! i = Some (now, env) -> startTime + 500 * Z.of_nat i <= now) ->
    rounds <> [] ->
    timeoutMs <= 500 * (Z.of_nat (length rounds) - 1) ->
    exists result,
      ProcessHandler.waitRounds timeoutMs startTime rounds = Some result /\
      match result with
      | ProcessHandler.Exited =>
          exists i now env,
            rounds !! i = Some (now, env) /\ now - startTime < timeoutMs /\
            ProcessHandler.isProcessRunning env true = false /\
            ProcessHandler.isProcessRunning env false = false
      | ProcessHandler.TimedOut =>
          exists i now env,
            rounds !! i = Some (now, env) /\ timeoutMs <= now - startTime
      end.
Proof.
  intros timeoutMs startTime rounds Hclock Hne Hlong.
  pose proof (ProcessHandler.waitRounds_spec timeoutMs startTime rounds) as Hspec.
  destruct (ProcessHandler.waitRounds timeoutMs startTime rounds) as [[]|].
  - exists ProcessHandler.Exited. split; [done|].
    destruct Hspec as (i & now & env & Hi & Hlt & Hrun).
    exists i, now, env. split_and!; try done.
    destruct (ProcessHandler.isProcessRunning env false) eqn:Hmain; [|done].
    apply ProcessHandler.isProcessRunning_helpers in Hmain. congruence.
  - by exists ProcessHandler.TimedOut.
  - exfalso.
    destruct (rounds !! (length rounds - 1)%nat) as [[now env]|] eqn:Hlast.
    + pose proof (Hclock _ _ _ Hlast) as Hnow.
      pose proof (proj1 (Forall_lookup _ _) Hspec _ _ Hlast) as Hlt.
      simpl in Hlt. destruct rounds; [done|]. simpl in *. lia.
    + apply lookup_ge_None in Hlast. destruct rounds; [done|]. simpl in *. lia.
Qed.

Lemma wait_for_exit_ends_witness :
  exists result,
    ProcessHandler.waitRounds 2000 1000
      [(1000, linuxEnv); (1501, linuxEnv); (2003, quietLinuxEnv);
       (2504, quietLinuxEnv); (3005, quietLinuxEnv)] = Some result /\
    match result with
    | ProcessHandler.Exited =>
        exists i now env,
          [(1000, linuxEnv); (1501, linuxEnv); (2003, quietLinuxEnv);
           (2504, quietLinuxEnv); (3005, quietLinuxEnv)] !! i = Some (now, env) /\
          now - 1000 < 2000 /\
          ProcessHandler.isProcessRunning env true = false /\
          ProcessHandler.isProcessRunning env false = false
    | ProcessHandler.TimedOut =>
        exists i now env,
          [(1000, linuxEnv); (1501, linuxEnv); (2003, quietLinuxEnv);
           (2504, quietLinuxEnv); (3005, quietLinuxEnv)] !! i = Some (now, env) /\
          2000 <= now - 1000
    end.
Proof.
  apply (wait_for_exit_ends 2000 1000
           [(1000, linuxEnv); (1501, linuxEnv); (2003, quietLinuxEnv);
            (2504, quietLinuxEnv); (3005, quietLinuxEnv)]).
  - intros [|[|[|[|[|i]]]]] now env H; simpl in H; try discriminate H;
      injection H as <- _; lia.
  - discriminate.
  - simpl. lia.
Defined.
